(** * Nested-sampling evidence integrator (nested_sampling/nested_integrator.py)

    A shallow embedding of [integrate_remainder] and [nested_integrator].

    Numbers.  Python/numpy floats are modelled by exact reals [R]: rounding,
    overflow and underflow are not part of the model.  Python integers
    (iteration counter, [nlive_points], [ndraws], [max_samples]) are [Z].
    Where a statement is about the IEEE special values themselves ([-inf],
    [nan]) the module [XFloat] extends the reals by them.

    Partial operations.  On the reals the square root of a negative number,
    the logarithm of a non-positive one and a quotient by zero are each some
    number, where Python yields [nan], [-inf] or raises [ZeroDivisionError].
    A statement that depends on such a value assumes its argument to be in
    the domain: [nlive_points] positive, the information [H] not negative,
    [max_remainder] positive.  [pass_defined] collects these assumptions for
    one pass of the main loop and [runs] for all passes of a run.

    Effects.  The sampler and numpy's random generator are stateful; both are
    threaded explicitly.  Python exceptions ([IndexError] on an empty live set,
    [NameError] on an unbound local) are [None].  The progress bar and the
    [print] statements are display only and are left out. *)

From Stdlib Require Import Reals Lra Lia ZArith List Bool Permutation.
From Stdlib Require Import Sorting.Sorted Sorting.Mergesort.
Import ListNotations.

Open Scope R_scope.

(** ** Option as the exception monad *)

Definition obind {A B : Type} (m : option A) (k : A -> option B) : option B :=
  match m with
  | Some a => k a
  | None => None
  end.

Notation "x <- m ;; k" := (obind m (fun x => k))
  (at level 61, m at next level, right associativity).
Notation "' p <- m ;; k" := (obind m (fun x => match x with p => k end))
  (at level 61, p pattern, m at next level, right associativity).

(** ** Numeric primitives *)

Module Num.

(** [numpy.logaddexp(a, b)]: the logarithm of [exp a + exp b]. *)
Definition logaddexp (a b : R) : R := ln (exp a + exp b).

(** [x ** 0.5] for [0 <= x].  On a negative argument numpy yields [nan]
    where [sqrt] yields 0: a statement that depends on the value of a
    square root assumes that its argument is not negative. *)
Definition pow_half (x : R) : R := sqrt x.

(** The result of a float comparison [a < b] as a boolean. *)
Definition Rltb (a b : R) : bool := if Rlt_dec a b then true else false.

(** [arr.sum()]; the sum of an empty array is 0. *)
Definition sum (l : list R) : R := fold_right Rplus 0 l.

(** [numpy.max] and [numpy.min] of a sequence; both raise on an empty one. *)
Definition np_max (l : list R) : option R :=
  match l with
  | [] => None
  | a :: l' => Some (fold_left Rmax l' a)
  end.

Definition np_min (l : list R) : option R :=
  match l with
  | [] => None
  | a :: l' => Some (fold_left Rmin l' a)
  end.

End Num.

(** ** Python sequence operations *)

Module Py.

Section Seq.
Context {A : Type}.

(** The position a (possibly negative) index denotes, [None] when it is out
    of range. *)
Definition position (n : nat) (k : Z) : option nat :=
  let len := Z.of_nat n in
  if ((0 <=? k) && (k <? len))%Z then Some (Z.to_nat k)
  else if ((- len <=? k) && (k <? 0))%Z then Some (Z.to_nat (len + k))
  else None.

(** [l[k]]. *)
Definition getitem (l : list A) (k : Z) : option A :=
  i <- position (length l) k ;; nth_error l i.

Fixpoint update (l : list A) (i : nat) (v : A) : list A :=
  match l, i with
  | [], _ => []
  | _ :: t, O => v :: t
  | h :: t, S j => h :: update t j v
  end.

(** [l[k] = v] on a copy of [l]. *)
Definition setitem (l : list A) (k : Z) (v : A) : option (list A) :=
  i <- position (length l) k ;; Some (update l i v).

(** [l[1:]]. *)
Definition slice_from1 (l : list A) : list A := skipn 1 l.

(** [l[:-1]]. *)
Definition slice_to_last (l : list A) : list A := firstn (length l - 1) l.

(** [arr[idx]] for an index array [idx]: raises when an index is out of
    range. *)
Fixpoint take (l : list A) (idx : list nat) : option (list A) :=
  match idx with
  | [] => Some []
  | i :: idx' =>
      a <- nth_error l i ;; r <- take l idx' ;; Some (a :: r)
  end.

End Seq.

End Py.

(** ** Data model *)

(** A point [(u, x, L)] as the sampler yields it. *)
Record Point : Type := mkPoint {
  pt_u : list R;
  pt_x : list R;
  pt_L : R
}.

(** An entry [[ui, xi, Li, logwidth]] of the [weights] output. *)
Record WeightRecord : Type := mkWeight {
  w_u : list R;
  w_x : list R;
  w_L : R;
  w_logwidth : R
}.

Definition weight_of (p : Point) (logwidth : R) : WeightRecord :=
  mkWeight (pt_u p) (pt_x p) (pt_L p) logwidth.

(** The five values [integrate_remainder] returns, under the names the
    caller binds them to. *)
Record Remainder : Type := mkRemainder {
  remainderZ : R;
  remainderZerr : R;
  totalZ : R;
  totalZerr : R;
  totalZerr_bootstrapped : R
}.

(** A live set in the order [remainder()] is assumed to give it: ascending in
    likelihood. *)
Definition ascending (live : list Point) : Prop :=
  StronglySorted (fun p q => pt_L p <= pt_L q) live.

(** The sampler as [nested_integrator] uses it. *)
Class Sampler (S : Type) : Type := {
  nlive_points : S -> Z;
  Lmax : S -> R;
  ndraws : S -> Z;
  samples : S -> list Point;
  next : S -> S * Point;
  remainder : S -> list Point
}.

(** [numpy.random.randint(low, high, size)] with the generator state made
    explicit. *)
Class RandomSource (G : Type) : Type := {
  randint : G -> nat -> nat -> nat -> G * list nat
}.

(** What numpy guarantees of [randint] when [low < high]: [size] draws, each
    in the half-open range. *)
Definition randint_spec {G : Type} {RandomG : RandomSource G} : Prop :=
  forall (g : G) (low high size : nat), (low < high)%nat ->
    length (snd (randint g low high size)) = size /\
    Forall (fun k => (low <= k < high)%nat) (snd (randint g low high size)).

(** The sampler contract's fixed live-set size: drawing a point does not
    change [nlive_points]. *)
Definition nlive_points_fixed {S : Type} {SamplerS : Sampler S} : Prop :=
  forall s : S, nlive_points (fst (next s)) = nlive_points s.

(** ** The evidence accumulator

    The update the source writes out twice, in the loop at the end of
    [integrate_remainder] and at the end of each iteration of the main loop:
<<
    wi = logwidth + Li
    logZnew = logaddexp(logZ, wi)
    H = exp(wi - logZnew) * Li + exp(logZ - logZnew) * (H + logZ) - logZnew
    logZ = logZnew
>> *)
Definition accumulate (logZ H logwidth Li : R) : R * R :=
  let wi := logwidth + Li in
  let logZnew := Num.logaddexp logZ wi in
  let H' := exp (wi - logZnew) * Li + exp (logZ - logZnew) * (H + logZ) - logZnew in
  (logZnew, H').

(** ** conservative_estimator

    The alternative estimator of the remainder: the maximum likelihood times
    the remaining volume, and how far it can raise [logZ].  [logwidth] is
    not read. *)
Definition conservative_estimator {S : Type} {SamplerS : Sampler S}
  (sampler : S) (logwidth logVolremaining logZ : R) : R * R :=
  let maxContribution := Lmax sampler + logVolremaining in
  let logZup := Num.logaddexp maxContribution logZ in
  (maxContribution, logZup - logZ).

(** The sum of the live likelihoods, and the sum of [L * log L] over them,
    without rebasing. *)
Definition likelihood_sum (live : list Point) : R :=
  Num.sum (map (fun p => exp (pt_L p)) live).

Definition likelihood_moment (live : list Point) : R :=
  Num.sum (map (fun p => exp (pt_L p) * pt_L p) live).

(** The prior volume the weight records account for. *)
Definition recorded_volume (ws : list WeightRecord) : R :=
  Num.sum (map (fun w => exp (w_logwidth w)) ws).

(** ** integrate_remainder *)

Section Remainder.
Context {S G : Type} {SamplerS : Sampler S} {RandomG : RandomSource G}.

(** [L0] and the rebased likelihoods [Ls]. *)
Definition rebase_base (live : list Point) : option R :=
  p <- Py.getitem live (-1) ;; Some (pt_L p).

Definition rebased (live : list Point) (L0 : R) : list R :=
  map (fun p => exp (pt_L p - L0)) live.

(** [LsMax]: a copy of [Ls] whose last entry is [exp(globalLmax - L0)]. *)
Definition rebased_max (Ls : list R) (globalLmax L0 : R) : option (list R) :=
  Py.setitem Ls (-1) (exp (globalLmax - L0)).

(** [arr[1:].sum() + arr[-1]] and [arr[:-1].sum() + arr[0]]. *)
Definition positive_edge (arr : list R) : option R :=
  t <- Py.getitem arr (-1) ;; Some (Num.sum (Py.slice_from1 arr) + t).

Definition negative_edge (arr : list R) : option R :=
  b <- Py.getitem arr 0 ;; Some (Num.sum (Py.slice_to_last arr) + b).

(** One pass of the bootstrap loop: the two values it appends. *)
Definition bootstrap_round (g : G) (Ls LsMax : list R) (logZ logV L0 : R)
  : option (G * (R * R)) :=
  let '(g', i) := randint g 0 (length Ls) (length Ls) in
  let i := NatSort.sort i in
  bs_LsMax <- Py.take LsMax i ;;
  Lmax <- positive_edge bs_LsMax ;;
  bs_Ls <- Py.take Ls i ;;
  Lmin <- negative_edge bs_Ls ;;
  Some (g', (Num.logaddexp logZ (logV + ln Lmax + L0),
             Num.logaddexp logZ (logV + ln Lmin + L0))).

(** [for _ in range(rounds)], collecting [bs_logZmids]. *)
Fixpoint bootstrap (rounds : nat) (g : G) (Ls LsMax : list R)
  (logZ logV L0 : R) (bs_logZmids : list R) : option (G * list R) :=
  match rounds with
  | O => Some (g, bs_logZmids)
  | Datatypes.S k =>
      '(g', (up, lo)) <- bootstrap_round g Ls LsMax logZ logV L0 ;;
      bootstrap k g' Ls LsMax logZ logV L0 (bs_logZmids ++ [up; lo])
  end.

(** The loop over the live points that rebinds the locals [H] and [logZ]. *)
Fixpoint fold_live (logwidth : R) (live : list Point) (logZ H : R) : R * R :=
  match live with
  | [] => (logZ, H)
  | p :: rest =>
      let '(logZnew, H') := accumulate logZ H logwidth (pt_L p) in
      fold_live logwidth rest logZnew H'
  end.

(** The locals of [integrate_remainder]; [v_Lmax] and [v_Lmin] are the values
    bound before the bootstrap loop reuses the two names, [v_logZ] and [v_H]
    the values after the last loop. *)
Record Locals : Type := mkLocals {
  v_L0 : R;
  v_Ls : list R;
  v_LsMax : list R;
  v_Lmax : R;
  v_Lmin : R;
  v_logLmid : R;
  v_logZmid : R;
  v_logZup : R;
  v_logZlo : R;
  v_logZerr : R;
  v_bs_logZerr : R;
  v_logZ : R;
  v_H : R
}.

(** The body of [integrate_remainder] up to its [return]; the argument
    [logVolremaining] is not read. *)
Definition integrate_remainder_locals (sampler : S) (g : G)
  (logwidth logVolremaining logZ H globalLmax : R) : option (G * Locals) :=
  let live := remainder sampler in
  let logV := logwidth in
  L0 <- rebase_base live ;;
  let Ls := rebased live L0 in
  LsMax <- rebased_max Ls globalLmax L0 ;;
  Lmax <- positive_edge LsMax ;;
  Lmin <- negative_edge Ls ;;
  let logLmid := ln (Num.sum Ls) + L0 in
  let logZmid := Num.logaddexp logZ (logV + logLmid) in
  let logZup := Num.logaddexp logZ (logV + ln Lmax + L0) in
  let logZlo := Num.logaddexp logZ (logV + ln Lmin + L0) in
  let logZerr := logZup - logZlo in
  '(g', bs_logZmids) <- bootstrap 20 g Ls LsMax logZ logV L0 [] ;;
  hi <- Num.np_max bs_logZmids ;;
  lo <- Num.np_min bs_logZmids ;;
  let bs_logZerr := hi - lo in
  let '(logZ', H') := fold_live logwidth live logZ H in
  Some (g', mkLocals L0 Ls LsMax Lmax Lmin logLmid logZmid logZup logZlo
                     logZerr bs_logZerr logZ' H').

(** The returned tuple. *)
Definition returned (sampler : S) (logwidth : R) (v : Locals) : Remainder :=
  let stat := Num.pow_half (v_H v / IZR (nlive_points sampler)) in
  mkRemainder (logwidth + v_logLmid v) (v_logZerr v) (v_logZmid v)
              (v_logZerr v + stat) (v_bs_logZerr v + stat).

Definition integrate_remainder (sampler : S) (g : G)
  (logwidth logVolremaining logZ H globalLmax : R) : option (G * Remainder) :=
  '(g', v) <- integrate_remainder_locals sampler g logwidth logVolremaining
                logZ H globalLmax ;;
  Some (g', returned sampler logwidth v).

End Remainder.

(** ** nested_integrator *)

(** The keyword arguments.  [max_samples] is [None] or an integer, so that
    [int(max_samples)] is the value itself. *)
Record Config : Type := mkConfig {
  tolerance : R;
  max_samples : option Z;
  need_small_remainder : bool;
  max_remainder : R;
  need_robust_remainder_error : bool
}.

(** The defaults of the signature: [tolerance = 0.01], [max_samples = None],
    [need_small_remainder = True], [max_remainder = 0.1],
    [need_robust_remainder_error = False]. *)
Definition default_config : Config :=
  mkConfig (1 / 100) None true (1 / 10) false.

(** The dictionary [nested_integrator] returns. *)
Record Output : Type := mkOutput {
  out_logZ : R;
  out_logZerr : R;
  out_samples : list Point;
  out_weights : list WeightRecord;
  out_information : R;
  out_niterations : Z
}.

(** Which [break] left the loop. *)
Inductive Reason : Type :=
| MaxSamplesReached
| ToleranceReached
| NoImprovement.

Section Integrator.
Context {S G : Type} {SamplerS : Sampler S} {RandomG : RandomSource G}.

(** The variables of the function that live across iterations.  [s_est] is
    [None] while [remainderZ, ..., totalZerr_bootstrapped] are unbound. *)
Record LoopState : Type := mkLoop {
  s_sampler : S;
  s_rng : G;
  s_i : Z;
  s_logVolremaining : R;
  s_logwidth : R;
  s_weights : list WeightRecord;
  s_point : Point;
  s_logZ : R;
  s_H : R;
  s_est : option Remainder
}.

Inductive Outcome : Type :=
| Continue (st : LoopState)
| Break (why : Reason) (st : LoopState).

Definition outcome_state (o : Outcome) : LoopState :=
  match o with
  | Continue st => st
  | Break _ st => st
  end.

(** [log(1 - exp(-1. / sampler.nlive_points))] for [0 < nlive_points].  At
    [nlive_points = 0] Python raises [ZeroDivisionError] (lines 128, 145 and
    146), and below 0 the logarithm is [nan]: a statement on a run of the
    function assumes [0 < nlive_points]. *)
Definition shell (sampler : S) : R :=
  ln (1 - exp (- 1 / IZR (nlive_points sampler))).

(** Everything before [while True]. *)
Definition start (sampler : S) (g : G) : LoopState :=
  let logVolremaining := 0 in
  let logwidth := shell sampler in
  let '(sampler', p) := next sampler in
  let wi := logwidth + pt_L p in
  let logZ := wi in
  let H := pt_L p - logZ in
  mkLoop sampler' g 0%Z logVolremaining logwidth [] p logZ H None.

(** The head of the loop body: the counter, the shell width, the remaining
    volume and the weight record of the current point. *)
Definition advance (st : LoopState) : LoopState :=
  let sampler := s_sampler st in
  let i := (s_i st + 1)%Z in
  let logwidth := shell sampler + s_logVolremaining st in
  let logVolremaining := s_logVolremaining st - 1 / IZR (nlive_points sampler) in
  mkLoop sampler (s_rng st) i logVolremaining logwidth
         (s_weights st ++ [weight_of (s_point st) logwidth])
         (s_point st) (s_logZ st) (s_H st) (s_est st).

(** [logZerr = (H / sampler.nlive_points)**0.5]. *)
Definition stat_error (st : LoopState) : R :=
  Num.pow_half (s_H st / IZR (nlive_points (s_sampler st))).

(** [i == 1 or (i > sampler.nlive_points and i % 10 == 1)]. *)
Definition refresh_due (st : LoopState) : bool :=
  ((s_i st =? 1) ||
   ((nlive_points (s_sampler st) <? s_i st) && (s_i st mod 10 =? 1)))%Z.

(** The periodic call of [integrate_remainder]. *)
Definition refresh (st : LoopState) : option LoopState :=
  if refresh_due st then
    '(g', m) <- integrate_remainder (s_sampler st) (s_rng st) (s_logwidth st)
                  (s_logVolremaining st) (s_logZ st) (s_H st)
                  (Lmax (s_sampler st)) ;;
    Some (mkLoop (s_sampler st) g' (s_i st) (s_logVolremaining st)
                 (s_logwidth st) (s_weights st) (s_point st) (s_logZ st)
                 (s_H st) (Some m))
  else Some st.

(** [max_samples is not None and int(max_samples) < int(sampler.ndraws)]. *)
Definition budget_exhausted (cfg : Config) (st : LoopState) : bool :=
  match max_samples cfg with
  | Some m => (m <? ndraws (s_sampler st))%Z
  | None => false
  end.

(** The condition of the second [if], with [total_error = totalZerr].  The
    logarithm is that of a positive [max_remainder]; numpy yields [-inf] at
    0 and [nan] below, where [ln] yields 0, so a statement on this rule
    assumes [0 < max_remainder] when [need_small_remainder] is set. *)
Definition tolerance_reached (cfg : Config) (m : Remainder) : bool :=
  let total_error := totalZerr m in
  Num.Rltb total_error (tolerance cfg)
  && (negb (need_small_remainder cfg)
      || Num.Rltb (remainderZ m) (totalZ m + ln (max_remainder cfg)))
  && (negb (need_robust_remainder_error cfg)
      || Num.Rltb (totalZerr_bootstrapped m) (tolerance cfg)).

(** [remainderZerr < logZerr / 10.]. *)
Definition no_improvement (m : Remainder) (logZerr : R) : bool :=
  Num.Rltb (remainderZerr m) (logZerr / 10).

(** The block under [if i > sampler.nlive_points]. *)
Definition stop_rule (cfg : Config) (st : LoopState) (m : Remainder)
  (logZerr : R) : option Reason :=
  if (nlive_points (s_sampler st) <? s_i st)%Z then
    if budget_exhausted cfg st then Some MaxSamplesReached
    else if tolerance_reached cfg m then Some ToleranceReached
    else if no_improvement m logZerr then Some NoImprovement
    else None
  else None.

(** The tail of the loop body: the next point is drawn and folded into
    [logZ] and [H]. *)
Definition draw (st : LoopState) : LoopState :=
  let '(sampler', p) := next (s_sampler st) in
  let '(logZnew, H') := accumulate (s_logZ st) (s_H st) (s_logwidth st) (pt_L p) in
  mkLoop sampler' (s_rng st) (s_i st) (s_logVolremaining st) (s_logwidth st)
         (s_weights st) p logZnew H' (s_est st).

(** One pass through the loop body. *)
Definition iteration (cfg : Config) (st : LoopState) : option Outcome :=
  let st1 := advance st in
  let logZerr := stat_error st1 in
  st2 <- refresh st1 ;;
  m <- s_est st2 ;;
  match stop_rule cfg st2 m logZerr with
  | Some why => Some (Break why st2)
  | None => Some (Continue (draw st2))
  end.

(** The code after the loop. *)
Definition finish (cfg : Config) (st : LoopState) : option Output :=
  let sampler := s_sampler st in
  '(_, m) <- integrate_remainder sampler (s_rng st) (s_logwidth st)
               (s_logVolremaining st) (s_logZ st) (s_H st) (Lmax sampler) ;;
  let weights :=
    s_weights st ++ map (fun p => weight_of p (s_logwidth st)) (remainder sampler) in
  let totalZerr :=
    if need_robust_remainder_error cfg
    then Rmax (totalZerr m) (totalZerr_bootstrapped m)
    else totalZerr m in
  Some (mkOutput (totalZ m) totalZerr (samples sampler) weights (s_H st) (s_i st)).

(** What a bounded run of the function comes to. *)
Inductive Run : Type :=
| Returned (out : Output) (why : Reason)
| Raised
| OutOfFuel.

Fixpoint loop (fuel : nat) (cfg : Config) (st : LoopState) : Run :=
  match fuel with
  | O => OutOfFuel
  | Datatypes.S k =>
      match iteration cfg st with
      | None => Raised
      | Some (Continue st') => loop k cfg st'
      | Some (Break why st') =>
          match finish cfg st' with
          | Some out => Returned out why
          | None => Raised
          end
      end
  end.

Definition nested_integrator (fuel : nat) (sampler : S) (g : G) (cfg : Config)
  : Run :=
  loop fuel cfg (start sampler g).

(** [continues cfg n st st']: [n] passes through the loop body, none of which
    left the loop, lead from [st] to [st']. *)
Inductive continues (cfg : Config) : nat -> LoopState -> LoopState -> Prop :=
| continues_refl (st : LoopState) : continues cfg 0 st st
| continues_step (n : nat) (st st1 st2 : LoopState) :
    iteration cfg st = Some (Continue st1) ->
    continues cfg n st1 st2 ->
    continues cfg (Datatypes.S n) st st2.

End Integrator.

(** A state as the loop meets it: before the first pass, or with the
    remainder variables bound. *)
Definition loop_ready {S G : Type} (st : @LoopState S G) : Prop :=
  s_i st = 0%Z \/ exists m, s_est st = Some m.

(** The floats of the pass that begins in [st] are numbers, as the real
    model takes them to be: [nlive_points] is positive (the division of
    line 145 does not raise and the logarithm has a positive argument), [H]
    is not negative (so [logZerr] of line 150 is not [nan]), the [H] that a
    call of [integrate_remainder] due in this pass ends with is not negative
    (so neither [totalZerr] nor [totalZerr_bootstrapped] is [nan]), and
    [max_remainder] is positive when its logarithm is taken. *)
Definition pass_defined {S G : Type} {SamplerS : Sampler S}
  (cfg : Config) (st : @LoopState S G) : Prop :=
  (0 < nlive_points (s_sampler st))%Z /\
  0 <= s_H st /\
  (refresh_due (advance st) = true ->
   0 <= snd (fold_live (s_logwidth (advance st)) (remainder (s_sampler st))
                       (s_logZ st) (s_H st))) /\
  (need_small_remainder cfg = true -> 0 < max_remainder cfg).

(** [runs cfg n st st']: [n] passes, all of them on numbers, none of which
    left the loop, lead from [st] to [st']. *)
Inductive runs {S G : Type} {SamplerS : Sampler S} {RandomG : RandomSource G}
  (cfg : Config) : nat -> @LoopState S G -> @LoopState S G -> Prop :=
| runs_refl (st : LoopState) : runs cfg 0 st st
| runs_step (n : nat) (st st1 st2 : LoopState) :
    pass_defined cfg st ->
    iteration cfg st = Some (Continue st1) ->
    runs cfg n st1 st2 ->
    runs cfg (Datatypes.S n) st st2.

(** ** The accumulator on floats with the IEEE special values

    [Fin r] is the finite float of value [r] (exact), the other three are
    [+inf], [-inf] and [nan].  The operations follow IEEE 754 on the special
    values ([inf - inf] and [0 * inf] are [nan], [exp(-inf) = 0]) and numpy's
    [logaddexp], which returns the finite argument when the other one is
    [-inf]. *)

Module XFloat.

Inductive xfloat : Type :=
| Fin (r : R)
| PInf
| NInf
| NaN.

Definition xadd (a b : xfloat) : xfloat :=
  match a, b with
  | NaN, _ | _, NaN => NaN
  | Fin x, Fin y => Fin (x + y)
  | PInf, NInf | NInf, PInf => NaN
  | PInf, _ | _, PInf => PInf
  | NInf, _ | _, NInf => NInf
  end.

Definition xopp (a : xfloat) : xfloat :=
  match a with
  | Fin x => Fin (- x)
  | PInf => NInf
  | NInf => PInf
  | NaN => NaN
  end.

Definition xsub (a b : xfloat) : xfloat :=
  match a, b with
  | Fin x, Fin y => Fin (x - y)
  | _, _ => xadd a (xopp b)
  end.

(** The product of the finite [x] and an infinity: [pos] when [x] is
    positive, [neg] when negative, [nan] when zero. *)
Definition scale_inf (x : R) (pos neg : xfloat) : xfloat :=
  match total_order_T 0 x with
  | inleft (left _) => pos
  | inleft (right _) => NaN
  | inright _ => neg
  end.

Definition xmul (a b : xfloat) : xfloat :=
  match a, b with
  | NaN, _ | _, NaN => NaN
  | Fin x, Fin y => Fin (x * y)
  | Fin x, PInf | PInf, Fin x => scale_inf x PInf NInf
  | Fin x, NInf | NInf, Fin x => scale_inf x NInf PInf
  | PInf, PInf | NInf, NInf => PInf
  | PInf, NInf | NInf, PInf => NInf
  end.

Definition xexp (a : xfloat) : xfloat :=
  match a with
  | Fin x => Fin (exp x)
  | PInf => PInf
  | NInf => Fin 0
  | NaN => NaN
  end.

Definition xlogaddexp (a b : xfloat) : xfloat :=
  match a, b with
  | NaN, _ | _, NaN => NaN
  | Fin x, Fin y => Fin (Num.logaddexp x y)
  | PInf, _ | _, PInf => PInf
  | NInf, y => y
  | x, NInf => x
  end.

(** The accumulator update of the main loop on such floats. *)
Definition xaccumulate (logZ H logwidth Li : xfloat) : xfloat * xfloat :=
  let wi := xadd logwidth Li in
  let logZnew := xlogaddexp logZ wi in
  let H' :=
    xsub (xadd (xmul (xexp (xsub wi logZnew)) Li)
               (xmul (xexp (xsub logZ logZnew)) (xadd H logZ)))
         logZnew in
  (logZnew, H').

End XFloat.

(** ** A small sampler and generator to run the functions on *)

Module Toy.

(** A sampler state: the live set, the counters and the running maximum.
    [next] hands out the lowest live point and counts one draw. *)
Record State : Type := mkState {
  t_live : list Point;
  t_nlive : Z;
  t_ndraws : Z;
  t_Lmax : R
}.

Definition point (l : R) : Point := mkPoint [] [] l.

Definition t_next (s : State) : State * Point :=
  (mkState (t_live s) (t_nlive s) (t_ndraws s + 1) (t_Lmax s),
   hd (point 0) (t_live s)).

#[global] Instance sampler : Sampler State := {
  nlive_points := t_nlive;
  Lmax := t_Lmax;
  ndraws := t_ndraws;
  samples := fun _ => [];
  next := t_next;
  remainder := t_live
}.

(** A generator that always answers [low]. *)
#[global] Instance lowest : RandomSource unit := {
  randint := fun g low high size => (g, repeat low size)
}.

(** Live sets used as inputs below: two points of likelihoods 0 and 1, two
    points of equal likelihood 0, one point of likelihood 2. *)
Definition rising : State := mkState [point 0; point 1] 2 0 1.
Definition flat : State := mkState [point 0; point 0] 2 0 0.
Definition flat_below_max : State := mkState [point 0; point 0] 2 0 1.
Definition single : State := mkState [point 2] 1 0 2.

(** The value of a computation that did not raise. *)
Definition value {A : Type} (d : A) (o : option A) : A :=
  match o with
  | Some a => a
  | None => d
  end.

End Toy.

(** ** Loop states and configurations to run the loop on *)

Module ToyRun.

(** A budget of no draws at all. *)
Definition no_budget : Config := mkConfig (1 / 100) (Some 0%Z) true (1 / 10) false.

(** The run on [Toy.single]: the state before the loop and after one pass. *)
Definition single0 : @LoopState Toy.State unit := start Toy.single tt.
Definition single1 : @LoopState Toy.State unit :=
  draw (Toy.value single0 (refresh (advance single0))).

(** The run on [Toy.rising]: the state before the loop and after one pass. *)
Definition rising0 : @LoopState Toy.State unit := start Toy.rising tt.
Definition rising1 : @LoopState Toy.State unit :=
  draw (Toy.value rising0 (refresh (advance rising0))).

End ToyRun.

(** ** A sampler that climbs

    Two live points kept in ascending order; [next] hands out the lowest one
    and puts a fresh point of likelihood 10 in its place; [Lmax] is the
    likelihood of the best live point. *)

Module Climb.

Record State : Type := mkState {
  c_live : list Point;
  c_ndraws : Z
}.

Definition fresh : Point := Toy.point 10.

Definition c_next (s : State) : State * Point :=
  (mkState (tl (c_live s) ++ [fresh]) (c_ndraws s + 1),
   hd (Toy.point 0) (c_live s)).

#[global] Instance sampler : Sampler State := {
  nlive_points := fun _ => 2%Z;
  Lmax := fun s => pt_L (last (c_live s) (Toy.point 0));
  ndraws := c_ndraws;
  samples := fun _ => [];
  next := c_next;
  remainder := c_live
}.

(** Two initial live sets: likelihoods 0 and 0, and likelihoods 0 and 10. *)
Definition flat_start : State := mkState [Toy.point 0; Toy.point 0] 0.
Definition step_start : State := mkState [Toy.point 0; Toy.point 10] 0.

(** The run from [flat_start]: before the loop, after one pass and after
    two.  The call of [integrate_remainder] in the first pass sees the live
    likelihoods 0 and 10; the points drawn have likelihoods 0, 0 and 10. *)
Definition flat0 : @LoopState State unit := start flat_start tt.
Definition flat1 : @LoopState State unit :=
  draw (Toy.value flat0 (refresh (advance flat0))).
Definition flat2 : @LoopState State unit := draw (advance flat1).

(** The run from [step_start]: the call in the first pass sees the live
    likelihoods 10 and 10; the points drawn have likelihoods 0, 10 and 10. *)
Definition step0 : @LoopState State unit := start step_start tt.
Definition step1 : @LoopState State unit :=
  draw (Toy.value step0 (refresh (advance step0))).
Definition step2 : @LoopState State unit := draw (advance step1).

(** The remainder variables in the third pass of each run: those of the
    call in the first pass. *)
Definition flat_estimate : Remainder :=
  Toy.value (mkRemainder 0 0 0 0 0) (s_est flat2).
Definition step_estimate : Remainder :=
  Toy.value (mkRemainder 0 0 0 0 0) (s_est step2).

(** Budgets of two and of three draws, and a tolerance of 1 with the check
    of the remainder off. *)
Definition budget2 : Config :=
  mkConfig (1 / 100) (Some 2%Z) true (1 / 10) false.
Definition budget3 : Config :=
  mkConfig (1 / 100) (Some 3%Z) true (1 / 10) false.
Definition unit_tolerance : Config := mkConfig 1 None false (1 / 10) false.

End Climb.

(** * Properties *)

(** ** Arithmetic of the primitives *)

Lemma exp_self_cancel (a : R) : exp (a - a) = 1.
Proof.
  replace (a - a) with 0 by ring. apply exp_0.
Qed.

Lemma logaddexp_gt_left (a b : R) : a < Num.logaddexp a b.
Proof.
  unfold Num.logaddexp.
  rewrite <- (ln_exp a) at 1.
  apply ln_increasing.
  - apply exp_pos.
  - pose proof (exp_pos b). lra.
Qed.

Lemma Rltb_true (a b : R) : Num.Rltb a b = true <-> a < b.
Proof.
  unfold Num.Rltb. destruct (Rlt_dec a b); split; intros; try easy.
Qed.

Lemma Rltb_false (a b : R) : Num.Rltb a b = false <-> ~ a < b.
Proof.
  unfold Num.Rltb. destruct (Rlt_dec a b); split; intros; try easy.
Qed.

(** ** The accumulator and a point of mass [-inf] *)

Section SpecialValues.
Import XFloat.

(** On finite floats the update is the one on the reals. *)
Lemma accumulate_finite (logZ H logwidth Li : R) :
  xaccumulate (Fin logZ) (Fin H) (Fin logwidth) (Fin Li) =
  (Fin (fst (accumulate logZ H logwidth Li)),
   Fin (snd (accumulate logZ H logwidth Li))).
Proof. reflexivity. Qed.

Lemma scale_inf_zero (pos neg : xfloat) : scale_inf 0 pos neg = NaN.
Proof.
  unfold scale_inf.
  destruct (total_order_T 0 0) as [[Hlt | _] | Hgt]; try reflexivity;
    exfalso; lra.
Qed.

(** C8, as amended: for finite [logZ], [H] and a finite log-likelihood [Li],
    folding in a point whose mass [logwidth + Li] is [-inf] leaves both
    [logZ] and [H] as they were. *)
Theorem accumulate_neg_inf_mass_identity (logZ H Li : R) (logwidth : xfloat) :
  xadd logwidth (Fin Li) = NInf ->
  xaccumulate (Fin logZ) (Fin H) logwidth (Fin Li) = (Fin logZ, Fin H).
Proof.
  intros Hmass.
  unfold xaccumulate. rewrite Hmass. cbn.
  rewrite exp_self_cancel.
  f_equal. f_equal. ring.
Qed.

Lemma accumulate_neg_inf_mass_identity_witness :
  xadd NInf (Fin 1) = NInf /\
  xaccumulate (Fin 0) (Fin 2) NInf (Fin 1) = (Fin 0, Fin 2).
Proof.
  split.
  - reflexivity.
  - apply (accumulate_neg_inf_mass_identity 0 2 1 NInf). reflexivity.
Defined.

(** C8, as stated, fails when the mass is [-inf] because the point's own
    log-likelihood is: [exp(-inf) * -inf] is [nan], and so is the new [H]. *)
Lemma accumulate_neg_inf_likelihood_nan :
  xadd (Fin 0) NInf = NInf /\
  xaccumulate (Fin 0) (Fin 0) (Fin 0) NInf = (Fin 0, NaN) /\
  xaccumulate (Fin 0) (Fin 0) (Fin 0) NInf <> (Fin 0, Fin 0).
Proof.
  assert (E : xaccumulate (Fin 0) (Fin 0) (Fin 0) NInf = (Fin 0, NaN)).
  { unfold xaccumulate. cbn. rewrite scale_inf_zero. reflexivity. }
  split; [reflexivity | split; [exact E | rewrite E; discriminate]].
Qed.

End SpecialValues.

(** ** Python indexing in terms of list functions *)

Section PyFacts.
Context {A : Type}.
Implicit Types (l : list A) (v d : A).

Lemma position_nil (k : Z) : Py.position 0 k = None.
Proof.
  unfold Py.position. cbn.
  destruct (0 <=? k)%Z eqn:E0, (k <? 0)%Z eqn:E1; cbn; try reflexivity.
  apply Z.leb_le in E0. apply Z.ltb_lt in E1. lia.
Qed.

Lemma position_first (n : nat) : (0 < n)%nat -> Py.position n 0 = Some 0%nat.
Proof.
  intros Hn. unfold Py.position.
  replace (0 <=? 0)%Z with true by reflexivity.
  replace (0 <? Z.of_nat n)%Z with true by (symmetry; apply Z.ltb_lt; lia).
  reflexivity.
Qed.

Lemma position_last (n : nat) :
  (0 < n)%nat -> Py.position n (-1) = Some (n - 1)%nat.
Proof.
  intros Hn. unfold Py.position.
  replace (0 <=? -1)%Z with false by reflexivity. cbn [andb].
  replace (- Z.of_nat n <=? -1)%Z with true by (symmetry; apply Z.leb_le; lia).
  replace (-1 <? 0)%Z with true by reflexivity. cbn [andb].
  f_equal. lia.
Qed.

Lemma getitem_nil (k : Z) : Py.getitem (@nil A) k = None.
Proof. unfold Py.getitem. cbn [length]. rewrite position_nil. reflexivity. Qed.

Lemma getitem_first l d : l <> [] -> Py.getitem l 0 = Some (hd d l).
Proof.
  destruct l as [| a t]; [congruence |]. intros _.
  unfold Py.getitem. rewrite position_first by (cbn; lia). reflexivity.
Qed.

Lemma nth_error_last l d :
  l <> [] -> nth_error l (length l - 1) = Some (last l d).
Proof.
  induction l as [| a t IH]; [congruence |]. intros _.
  destruct t as [| b t']; [reflexivity |].
  replace (length (a :: b :: t') - 1)%nat with (Datatypes.S (length (b :: t') - 1))
    by (cbn; lia).
  cbn [nth_error]. rewrite IH by discriminate. reflexivity.
Qed.

Lemma getitem_last l d : l <> [] -> Py.getitem l (-1) = Some (last l d).
Proof.
  intros Hl. unfold Py.getitem.
  rewrite position_last by (destruct l; [congruence | cbn; lia]).
  cbn [obind]. apply nth_error_last, Hl.
Qed.

Lemma getitem_some_nonempty l k v : Py.getitem l k = Some v -> l <> [].
Proof.
  intros E ->. rewrite getitem_nil in E. discriminate.
Qed.

Lemma update_last l v :
  l <> [] -> Py.update l (length l - 1) v = removelast l ++ [v].
Proof.
  induction l as [| a t IH]; [congruence |]. intros _.
  destruct t as [| b t']; [reflexivity |].
  replace (length (a :: b :: t') - 1)%nat with (Datatypes.S (length (b :: t') - 1))
    by (cbn; lia).
  change (a :: Py.update (b :: t') (length (b :: t') - 1) v =
          removelast (a :: b :: t') ++ [v]).
  rewrite IH by discriminate. reflexivity.
Qed.

Lemma setitem_last l v :
  l <> [] -> Py.setitem l (-1) v = Some (removelast l ++ [v]).
Proof.
  intros Hl. unfold Py.setitem.
  rewrite position_last by (destruct l; [congruence | cbn; lia]).
  cbn [obind]. f_equal. apply update_last, Hl.
Qed.

Lemma slice_from1_tl l : Py.slice_from1 l = tl l.
Proof. destruct l; reflexivity. Qed.

Lemma slice_to_last_removelast l : Py.slice_to_last l = removelast l.
Proof.
  unfold Py.slice_to_last. rewrite removelast_firstn_len.
  f_equal. lia.
Qed.

Lemma take_in_range l (idx : list nat) :
  Forall (fun k => (k < length l)%nat) idx ->
  exists r, Py.take l idx = Some r /\ length r = length idx.
Proof.
  induction 1 as [| k idx Hk _ [r [IH Hlen]]].
  - exists []. split; reflexivity.
  - destruct (nth_error l k) as [a |] eqn:E.
    + exists (a :: r). cbn. rewrite E, IH. cbn. split; [reflexivity | lia].
    + apply nth_error_None in E. lia.
Qed.

End PyFacts.

(** ** Sums *)

Lemma sum_app (l1 l2 : list R) : Num.sum (l1 ++ l2) = Num.sum l1 + Num.sum l2.
Proof.
  unfold Num.sum.
  induction l1 as [| a t IH]; cbn [app fold_right].
  - ring.
  - rewrite IH. ring.
Qed.

Lemma sum_removelast_last (l : list R) (d : R) :
  l <> [] -> Num.sum (removelast l) + last l d = Num.sum l.
Proof.
  intros Hl.
  rewrite (app_removelast_last d Hl) at 3.
  rewrite sum_app. unfold Num.sum at 3. cbn [fold_right]. ring.
Qed.

Lemma sum_hd_tl (l : list R) (d : R) :
  l <> [] -> hd d l + Num.sum (tl l) = Num.sum l.
Proof. destruct l; [congruence | reflexivity]. Qed.

(** ** integrate_remainder: what a returning call computed *)

Section RemainderFacts.
Context {S G : Type} {SamplerS : Sampler S} {RandomG : RandomSource G}.

Lemma rebase_base_last (live : list Point) (d : Point) (L0 : R) :
  rebase_base live = Some L0 -> live <> [] /\ L0 = pt_L (last live d).
Proof.
  unfold rebase_base. intros E.
  destruct (Py.getitem live (-1)) as [p |] eqn:Ep; cbn [obind] in E;
    [| discriminate].
  pose proof (getitem_some_nonempty _ _ _ Ep) as Hne.
  rewrite (getitem_last live d Hne) in Ep.
  split; [exact Hne | congruence].
Qed.

Lemma rebased_nonempty (live : list Point) (L0 : R) :
  live <> [] -> rebased live L0 <> [].
Proof. destruct live; [congruence | discriminate]. Qed.

Lemma positive_edge_eq (arr : list R) :
  arr <> [] -> positive_edge arr = Some (Num.sum (tl arr) + last arr 0).
Proof.
  intros Hne. unfold positive_edge.
  rewrite (getitem_last arr 0 Hne), slice_from1_tl. reflexivity.
Qed.

Lemma negative_edge_eq (arr : list R) :
  arr <> [] -> negative_edge arr = Some (Num.sum (removelast arr) + hd 0 arr).
Proof.
  intros Hne. unfold negative_edge.
  rewrite (getitem_first arr 0 Hne), slice_to_last_removelast. reflexivity.
Qed.

Lemma rebased_max_eq (Ls : list R) (globalLmax L0 : R) :
  Ls <> [] ->
  rebased_max Ls globalLmax L0 = Some (removelast Ls ++ [exp (globalLmax - L0)]).
Proof. intros Hne. apply setitem_last, Hne. Qed.

(** The locals of a call that returned, in terms of its arguments. *)
Lemma integrate_remainder_locals_inv (sampler : S) (g g' : G)
  (logwidth logVolremaining logZ H globalLmax : R) (v : Locals) (d : Point) :
  integrate_remainder_locals sampler g logwidth logVolremaining logZ H
    globalLmax = Some (g', v) ->
  remainder sampler <> [] /\
  v_L0 v = pt_L (last (remainder sampler) d) /\
  v_Ls v = rebased (remainder sampler) (v_L0 v) /\
  v_LsMax v = removelast (v_Ls v) ++ [exp (globalLmax - v_L0 v)] /\
  v_Lmax v = Num.sum (tl (v_LsMax v)) + last (v_LsMax v) 0 /\
  v_Lmin v = Num.sum (removelast (v_Ls v)) + hd 0 (v_Ls v) /\
  v_logLmid v = ln (Num.sum (v_Ls v)) + v_L0 v /\
  v_logZmid v = Num.logaddexp logZ (logwidth + v_logLmid v) /\
  v_logZup v = Num.logaddexp logZ (logwidth + ln (v_Lmax v) + v_L0 v) /\
  v_logZlo v = Num.logaddexp logZ (logwidth + ln (v_Lmin v) + v_L0 v) /\
  v_logZerr v = v_logZup v - v_logZlo v /\
  (v_logZ v, v_H v) = fold_live logwidth (remainder sampler) logZ H.
Proof.
  intros E. unfold integrate_remainder_locals in E.
  destruct (rebase_base (remainder sampler)) as [L0 |] eqn:EL0;
    cbn [obind] in E; [| discriminate].
  destruct (rebase_base_last _ d _ EL0) as [Hne ->].
  set (L0 := pt_L (last (remainder sampler) d)) in *.
  pose proof (rebased_nonempty _ L0 Hne) as HLs.
  rewrite (rebased_max_eq _ globalLmax L0 HLs) in E. cbn [obind] in E.
  rewrite positive_edge_eq in E by (destruct (removelast _); discriminate).
  cbn [obind] in E.
  rewrite (negative_edge_eq _ HLs) in E. cbn [obind] in E.
  destruct (bootstrap _ _ _ _ _ _ _ _) as [[g1 bs] |]; cbn [obind] in E;
    [| discriminate].
  destruct (Num.np_max bs) as [hi |]; cbn [obind] in E; [| discriminate].
  destruct (Num.np_min bs) as [lo |]; cbn [obind] in E; [| discriminate].
  destruct (fold_live _ _ _ _) as [logZ' H'].
  injection E as <- <-. cbn.
  repeat split; try reflexivity; exact Hne.
Qed.

Lemma integrate_remainder_inv (sampler : S) (g g' : G)
  (logwidth logVolremaining logZ H globalLmax : R) (m : Remainder) :
  integrate_remainder sampler g logwidth logVolremaining logZ H globalLmax
    = Some (g', m) ->
  exists v,
    integrate_remainder_locals sampler g logwidth logVolremaining logZ H
      globalLmax = Some (g', v) /\
    m = returned sampler logwidth v.
Proof.
  unfold integrate_remainder. intros E.
  destruct (integrate_remainder_locals _ _ _ _ _ _ _) as [[g1 v] |];
    cbn [obind] in E; [| discriminate].
  injection E as <- <-. exists v. split; reflexivity.
Qed.

End RemainderFacts.

(** ** The bracket of integrate_remainder *)

Section BracketClaims.
Context {S G : Type} {SamplerS : Sampler S} {RandomG : RandomSource G}.

(** C7: the upper sum is taken over the rebased sequence whose last entry is
    replaced by [exp(globalLmax - L0)], as the sum without the first entry
    plus the last entry again; the lower sum over the rebased sequence itself,
    as the sum without the last entry plus the first entry again; and the
    returned bracket width is [logZup - logZlo] for the two [logaddexp]
    values built from these sums. *)
Theorem integrate_remainder_bracket (sampler : S) (g g' : G)
  (logwidth logVolremaining logZ H globalLmax : R) (m : Remainder) :
  integrate_remainder sampler g logwidth logVolremaining logZ H globalLmax
    = Some (g', m) ->
  exists L0 : R,
    rebase_base (remainder sampler) = Some L0 /\
    let Ls := rebased (remainder sampler) L0 in
    let LsMax := removelast Ls ++ [exp (globalLmax - L0)] in
    let upper := Num.sum (tl LsMax) + last LsMax 0 in
    let lower := Num.sum (removelast Ls) + hd 0 Ls in
    let logZup := Num.logaddexp logZ (logwidth + ln upper + L0) in
    let logZlo := Num.logaddexp logZ (logwidth + ln lower + L0) in
    rebased_max Ls globalLmax L0 = Some LsMax /\
    positive_edge LsMax = Some upper /\
    negative_edge Ls = Some lower /\
    remainderZerr m = logZup - logZlo.
Proof.
  intros E.
  destruct (integrate_remainder_inv _ _ _ _ _ _ _ _ _ E) as [v [Ev ->]].
  destruct (integrate_remainder_locals_inv _ _ _ _ _ _ _ _ _ (mkPoint [] [] 0) Ev)
    as (Hne & EL0 & ELs & ELsMax & ELmax & ELmin & _ & _ & Eup & Elo & Eerr & _).
  exists (v_L0 v).
  assert (Hbase : rebase_base (remainder sampler) = Some (v_L0 v)).
  { unfold rebase_base.
    rewrite (getitem_last _ (mkPoint [] [] 0) Hne). cbn [obind]. congruence. }
  pose proof (rebased_nonempty _ (v_L0 v) Hne) as HLs.
  split; [exact Hbase |]. cbn zeta.
  rewrite <- ELs, <- ELsMax.
  split; [rewrite ELsMax; apply rebased_max_eq; rewrite ELs; exact HLs |].
  split.
  { rewrite positive_edge_eq; [reflexivity |].
    rewrite ELsMax. destruct (removelast (v_Ls v)); discriminate. }
  split.
  { rewrite negative_edge_eq; [reflexivity |]. rewrite ELs. exact HLs. }
  cbn [returned remainderZerr].
  rewrite Eerr, Eup, Elo, ELmax, ELmin. reflexivity.
Qed.

End BracketClaims.

Lemma integrate_remainder_bracket_witness :
  let r := Toy.value (tt, mkRemainder 0 0 0 0 0)
             (integrate_remainder Toy.rising tt 0 0 0 0 1) in
  integrate_remainder Toy.rising tt 0 0 0 0 1 = Some r /\
  exists L0 : R,
    rebase_base (remainder Toy.rising) = Some L0 /\
    let Ls := rebased (remainder Toy.rising) L0 in
    let LsMax := removelast Ls ++ [exp (1 - L0)] in
    let upper := Num.sum (tl LsMax) + last LsMax 0 in
    let lower := Num.sum (removelast Ls) + hd 0 Ls in
    rebased_max Ls 1 L0 = Some LsMax /\
    positive_edge LsMax = Some upper /\
    negative_edge Ls = Some lower /\
    remainderZerr (snd r) =
      Num.logaddexp 0 (0 + ln upper + L0) - Num.logaddexp 0 (0 + ln lower + L0).
Proof.
  split.
  - reflexivity.
  - apply (integrate_remainder_bracket Toy.rising tt tt 0 0 0 0 1). reflexivity.
Defined.

(** ** The rebasing base *)

Lemma ascending_le_last (live : list Point) (d p : Point) :
  ascending live -> In p live -> pt_L p <= pt_L (last live d).
Proof.
  unfold ascending. induction 1 as [| a t _ IH Hall]; intros Hin.
  - destruct Hin.
  - destruct t as [| b t'].
    + destruct Hin as [<- | []]. apply Rle_refl.
    + change (last (a :: b :: t') d) with (last (b :: t') d).
      destruct Hin as [<- | Hin]; [| apply IH, Hin].
      rewrite Forall_forall in Hall. apply Hall.
      destruct (exists_last (l := b :: t')) as [l' [z E]]; [discriminate |].
      rewrite E, last_last. apply in_or_app. right. left. reflexivity.
  Qed.

Lemma exp_le_1 (x : R) : x <= 0 -> 0 < exp x <= 1.
Proof.
  intros Hx. split; [apply exp_pos |].
  destruct Hx as [Hlt | ->].
  - left. rewrite <- exp_0. apply exp_increasing, Hlt.
  - rewrite exp_0. apply Rle_refl.
Qed.

Section RebaseClaims.
Context {S G : Type} {SamplerS : Sampler S} {RandomG : RandomSource G}.

(** C2, as amended: the rebasing base [L0] is the log-likelihood of the last
    entry of the live set, and every rebased value is [exp(L_i - L0)] for
    that base; on a live set ascending in likelihood the base is therefore
    the highest live likelihood and every rebased value lies in (0, 1]. *)
Theorem rebase_base_is_last_entry (sampler : S) (g g' : G)
  (logwidth logVolremaining logZ H globalLmax : R) (v : Locals) (d : Point) :
  integrate_remainder_locals sampler g logwidth logVolremaining logZ H
    globalLmax = Some (g', v) ->
  v_L0 v = pt_L (last (remainder sampler) d) /\
  (forall i p, nth_error (remainder sampler) i = Some p ->
     nth_error (v_Ls v) i =
       Some (exp (pt_L p - pt_L (last (remainder sampler) d)))) /\
  (ascending (remainder sampler) ->
     (forall p, In p (remainder sampler) -> pt_L p <= v_L0 v) /\
     Forall (fun x => 0 < x <= 1) (v_Ls v)).
Proof.
  intros E.
  destruct (integrate_remainder_locals_inv _ _ _ _ _ _ _ _ _ d E)
    as (Hne & EL0 & ELs & _).
  split; [exact EL0 |]. split.
  - intros i p Hp. rewrite ELs, EL0. unfold rebased.
    rewrite nth_error_map, Hp. reflexivity.
  - intros Hasc.
    assert (Hle : forall p, In p (remainder sampler) -> pt_L p <= v_L0 v).
    { intros p Hin. rewrite EL0. apply ascending_le_last; assumption. }
    split; [exact Hle |].
    rewrite ELs. unfold rebased. apply Forall_map, Forall_forall.
    intros p Hin. apply exp_le_1. specialize (Hle p Hin). lra.
Qed.

End RebaseClaims.

Lemma rebase_base_is_last_entry_witness :
  let r := Toy.value (tt, mkLocals 0 [] [] 0 0 0 0 0 0 0 0 0 0)
             (integrate_remainder_locals Toy.rising tt 0 0 0 0 1) in
  integrate_remainder_locals Toy.rising tt 0 0 0 0 1 = Some r /\
  v_L0 (snd r) = 1 /\
  nth_error (v_Ls (snd r)) 0 = Some (exp (0 - 1)) /\
  Forall (fun x => 0 < x <= 1) (v_Ls (snd r)).
Proof.
  intros r.
  assert (E : integrate_remainder_locals Toy.rising tt 0 0 0 0 1
              = Some (tt, snd r)) by reflexivity.
  assert (Hasc : ascending (remainder Toy.rising)).
  { repeat constructor. cbn. lra. }
  split; [reflexivity |].
  destruct (rebase_base_is_last_entry Toy.rising tt tt 0 0 0 0 1 (snd r)
              (Toy.point 0) E) as [E0 [Ei Hs]].
  split; [exact E0 |].
  split; [exact (Ei 0%nat (Toy.point 0) eq_refl) |].
  exact (proj2 (Hs Hasc)).
Defined.

(** C2, as stated, fails: on the ascending live set of likelihoods 0 and 1 the
    first rebased value is [exp(0 - 1)], not [exp(0 - 0)]; the base is not
    the likelihood of the first entry. *)
Lemma rebase_base_is_not_first_entry :
  exists v : Locals,
    integrate_remainder_locals Toy.rising tt 0 0 0 0 1 = Some (tt, v) /\
    ascending (remainder Toy.rising) /\
    ~ (forall i p, nth_error (remainder Toy.rising) i = Some p ->
         nth_error (v_Ls v) i =
           Some (exp (pt_L p - pt_L (hd p (remainder Toy.rising))))).
Proof.
  eexists. split; [reflexivity |]. split.
  - repeat constructor. cbn. lra.
  - intros Hall. specialize (Hall 0%nat (Toy.point 0) eq_refl).
    cbn in Hall. injection Hall as Hall.
    pose proof (exp_increasing (0 - 1) (0 - 0)) as Hlt. lra.
Qed.

(** ** A live set of equal likelihoods *)

Lemma all_ones_hd (l : list R) :
  l <> [] -> Forall (fun x => x = 1) l -> hd 0 l = 1.
Proof.
  destruct l as [| a t]; [congruence |].
  intros _ Hall. inversion Hall; subst. reflexivity.
Qed.

Lemma all_ones_last (l : list R) :
  l <> [] -> Forall (fun x => x = 1) l -> last l 0 = 1.
Proof.
  intros Hne Hall. rewrite Forall_forall in Hall. apply Hall.
  destruct (exists_last Hne) as [l' [z ->]].
  rewrite last_last. apply in_or_app. right. left. reflexivity.
Qed.

Lemma all_ones_edges (l : list R) :
  l <> [] -> Forall (fun x => x = 1) l ->
  Num.sum (tl l) + last l 0 = Num.sum l /\
  Num.sum (removelast l) + hd 0 l = Num.sum l.
Proof.
  intros Hne Hall.
  pose proof (all_ones_hd l Hne Hall) as Hhd.
  pose proof (all_ones_last l Hne Hall) as Hlast.
  split.
  - rewrite Hlast, <- Hhd, Rplus_comm. apply sum_hd_tl, Hne.
  - rewrite Hhd, <- Hlast. apply sum_removelast_last, Hne.
Qed.

Lemma rebased_all_ones (live : list Point) (c : R) :
  (forall p, In p live -> pt_L p = c) ->
  Forall (fun x => x = 1) (rebased live c).
Proof.
  intros Hc. unfold rebased. apply Forall_map, Forall_forall.
  intros p Hin. rewrite (Hc p Hin). apply exp_self_cancel.
Qed.

Section EqualLikelihoods.
Context {S G : Type} {SamplerS : Sampler S} {RandomG : RandomSource G}.

(** The lower and the mid estimate of a live set of equal likelihoods
    coincide, whatever [globalLmax] is. *)
Lemma equal_likelihoods_lower_is_mid (sampler : S) (g g' : G)
  (logwidth logVolremaining logZ H globalLmax c : R) (v : Locals) :
  (forall p, In p (remainder sampler) -> pt_L p = c) ->
  integrate_remainder_locals sampler g logwidth logVolremaining logZ H
    globalLmax = Some (g', v) ->
  v_L0 v = c /\ Forall (fun x => x = 1) (v_Ls v) /\ v_Ls v <> [] /\
  v_logZlo v = v_logZmid v.
Proof.
  intros Hc E.
  destruct (integrate_remainder_locals_inv _ _ _ _ _ _ _ _ _ (mkPoint [] [] 0) E)
    as (Hne & EL0 & ELs & _ & _ & ELmin & Emid' & Emid & _ & Elo & _).
  assert (E0 : v_L0 v = c).
  { rewrite EL0. apply Hc.
    destruct (exists_last Hne) as [l' [z ->]].
    rewrite last_last. apply in_or_app. right. left. reflexivity. }
  assert (Hones : Forall (fun x => x = 1) (v_Ls v)).
  { rewrite ELs, E0. apply rebased_all_ones, Hc. }
  assert (HLs : v_Ls v <> []).
  { rewrite ELs. apply rebased_nonempty, Hne. }
  repeat split; try assumption.
  rewrite Elo, Emid, Emid', ELmin.
  rewrite (proj2 (all_ones_edges _ HLs Hones)).
  f_equal. ring.
Qed.

(** C9, as amended: when all live log-likelihoods are equal and the global
    maximum passed in is that same value, the upper, lower and mid estimates
    coincide and the returned [remainderZerr] is zero. *)
Theorem equal_likelihoods_estimates_coincide (sampler : S) (g g' : G)
  (logwidth logVolremaining logZ H globalLmax c : R) (m : Remainder) :
  (forall p, In p (remainder sampler) -> pt_L p = c) ->
  globalLmax = c ->
  integrate_remainder sampler g logwidth logVolremaining logZ H globalLmax
    = Some (g', m) ->
  exists v : Locals,
    integrate_remainder_locals sampler g logwidth logVolremaining logZ H
      globalLmax = Some (g', v) /\
    v_logZup v = v_logZlo v /\
    v_logZlo v = v_logZmid v /\
    totalZ m = v_logZmid v /\
    remainderZerr m = 0.
Proof.
  intros Hc Hmax E.
  destruct (integrate_remainder_inv _ _ _ _ _ _ _ _ _ E) as [v [Ev ->]].
  exists v. split; [exact Ev |].
  destruct (equal_likelihoods_lower_is_mid _ _ _ _ _ _ _ _ _ _ Hc Ev)
    as (E0 & Hones & HLs & Hlomid).
  destruct (integrate_remainder_locals_inv _ _ _ _ _ _ _ _ _ (mkPoint [] [] 0) Ev)
    as (_ & _ & _ & ELsMax & ELmax & ELmin & _ & _ & Eup & Elo & Eerr & _).
  assert (Hsame : v_LsMax v = v_Ls v).
  { rewrite ELsMax, Hmax, E0, exp_self_cancel.
    rewrite <- (all_ones_last _ HLs Hones).
    symmetry. apply app_removelast_last, HLs. }
  assert (Hup : v_logZup v = v_logZlo v).
  { rewrite Eup, Elo, ELmax, ELmin, Hsame.
    rewrite (proj1 (all_ones_edges _ HLs Hones)).
    rewrite (proj2 (all_ones_edges _ HLs Hones)). reflexivity. }
  repeat split; try assumption.
  - cbn [returned remainderZerr]. rewrite Eerr, Hup. ring.
Qed.

End EqualLikelihoods.

Lemma equal_likelihoods_estimates_coincide_witness :
  let r := Toy.value (tt, mkRemainder 0 0 0 0 0)
             (integrate_remainder Toy.flat tt 0 0 0 0 0) in
  (forall p, In p (remainder Toy.flat) -> pt_L p = 0) /\
  integrate_remainder Toy.flat tt 0 0 0 0 0 = Some r /\
  remainderZerr (snd r) = 0.
Proof.
  intros r.
  assert (Hc : forall p, In p (remainder Toy.flat) -> pt_L p = 0).
  { intros p [<- | [<- | []]]; reflexivity. }
  assert (E : integrate_remainder Toy.flat tt 0 0 0 0 0 = Some (tt, snd r))
    by reflexivity.
  split; [exact Hc |]. split; [reflexivity |].
  destruct (equal_likelihoods_estimates_coincide Toy.flat tt tt 0 0 0 0 0 0
              (snd r) Hc eq_refl E) as [v (_ & _ & _ & _ & Hz)].
  exact Hz.
Defined.

Lemma logaddexp_lt_right (a b b' : R) :
  b < b' -> Num.logaddexp a b < Num.logaddexp a b'.
Proof.
  intros Hb. unfold Num.logaddexp.
  pose proof (exp_pos a). pose proof (exp_pos b).
  pose proof (exp_increasing _ _ Hb).
  apply ln_increasing; lra.
Qed.

(** C9, as stated, fails: with two live points of equal likelihood 0 and a
    global maximum of 1 the upper estimate lies above the lower one, and the
    returned [remainderZerr] is not zero. *)
Lemma equal_likelihoods_bracket_open :
  exists m : Remainder,
    integrate_remainder Toy.flat_below_max tt 0 0 0 0 1 = Some (tt, m) /\
    (forall p, In p (remainder Toy.flat_below_max) -> pt_L p = 0) /\
    remainderZerr m <> 0.
Proof.
  pose (r := Toy.value (tt, mkRemainder 0 0 0 0 0)
               (integrate_remainder Toy.flat_below_max tt 0 0 0 0 1)).
  assert (E : integrate_remainder Toy.flat_below_max tt 0 0 0 0 1
              = Some (tt, snd r)) by reflexivity.
  exists (snd r). split; [exact E |]. split.
  { intros p [<- | [<- | []]]; reflexivity. }
  destruct (integrate_remainder_inv _ _ _ _ _ _ _ _ _ E) as [v [Ev ->]].
  destruct (integrate_remainder_locals_inv _ _ _ _ _ _ _ _ _ (Toy.point 0) Ev)
    as (_ & EL0 & ELs & ELsMax & ELmax & ELmin & _ & _ & Eup & Elo & Eerr & _).
  cbn [returned remainderZerr]. rewrite Eerr, Eup, Elo.
  assert (Hlt : ln (v_Lmin v) < ln (v_Lmax v)).
  { rewrite ELmax, ELmin, ELsMax, ELs, EL0.
    cbn [remainder Toy.sampler Toy.flat_below_max Toy.t_live last rebased map
         removelast app tl hd Num.sum fold_right Toy.point pt_L].
    pose proof (exp_increasing (0 - 0) (1 - 0)) as Hexp.
    pose proof (exp_pos (0 - 0)).
    apply ln_increasing; lra. }
  pose proof (logaddexp_lt_right 0 (0 + ln (v_Lmin v) + v_L0 v)
                (0 + ln (v_Lmax v) + v_L0 v)) as Hgap.
  lra.
Qed.

(** ** The information used in the returned total errors *)

Lemma exp_sub (a b : R) : exp (a - b) = exp a / exp b.
Proof.
  unfold Rminus, Rdiv. rewrite exp_plus, exp_Ropp. reflexivity.
Qed.

Lemma ln_2_lt_1 : ln 2 < 1.
Proof.
  apply Rlt_le_trans with (ln (exp 1)); [| rewrite ln_exp; apply Rle_refl].
  apply ln_increasing; [lra |].
  pose proof (exp_ineq1 1). lra.
Qed.

(** Folding a point of likelihood 2 and weight [-2 + 2] into [logZ = 0],
    [H = 0] gives the information [1 - ln 2]. *)
Lemma accumulate_unit_mass : snd (accumulate 0 0 (-2) 2) = 1 - ln 2.
Proof.
  unfold accumulate. cbn [snd].
  assert (EZ : Num.logaddexp 0 (-2 + 2) = ln 2).
  { unfold Num.logaddexp. replace (-2 + 2) with 0 by ring.
    rewrite exp_0. replace (1 + 1) with 2 by ring. reflexivity. }
  rewrite EZ, !exp_sub, exp_ln by lra.
  replace (-2 + 2) with 0 by ring. rewrite exp_0. field.
Qed.

Section FoldedInformation.
Context {S G : Type} {SamplerS : Sampler S} {RandomG : RandomSource G}.

(** The argument [H] reaches the result only through the last loop: every
    other local is the same for any two values of it. *)
Lemma integrate_remainder_locals_other_H (sampler : S) (g g' : G)
  (logwidth logVolremaining logZ H H2 globalLmax : R) (v : Locals) :
  integrate_remainder_locals sampler g logwidth logVolremaining logZ H
    globalLmax = Some (g', v) ->
  exists v2 : Locals,
    integrate_remainder_locals sampler g logwidth logVolremaining logZ H2
      globalLmax = Some (g', v2) /\
    v_logLmid v2 = v_logLmid v /\
    v_logZmid v2 = v_logZmid v /\
    v_logZerr v2 = v_logZerr v /\
    v_bs_logZerr v2 = v_bs_logZerr v.
Proof.
  unfold integrate_remainder_locals. intros E.
  destruct (rebase_base (remainder sampler)) as [L0 |];
    cbn [obind] in *; [| discriminate].
  destruct (rebased_max _ _ _) as [LsMax |]; cbn [obind] in *; [| discriminate].
  destruct (positive_edge LsMax) as [up |]; cbn [obind] in *; [| discriminate].
  destruct (negative_edge _) as [lo |]; cbn [obind] in *; [| discriminate].
  destruct (bootstrap _ _ _ _ _ _ _ _) as [[g1 bs] |]; cbn [obind] in *;
    [| discriminate].
  destruct (Num.np_max bs) as [hi |]; cbn [obind] in *; [| discriminate].
  destruct (Num.np_min bs) as [lw |]; cbn [obind] in *; [| discriminate].
  destruct (fold_live logwidth (remainder sampler) logZ H) as [z1 h1].
  destruct (fold_live logwidth (remainder sampler) logZ H2) as [z2 h2].
  injection E as <- <-.
  eexists. split; [reflexivity |]. cbn. repeat split.
Qed.

(** C1, as amended: the statistical term of both returned total errors is
    taken from the [H] the last loop ends with, the caller's [H] folded with
    every live point at weight [logwidth]; the loop leaves [remainderZ],
    [remainderZerr] and [totalZ] as they were computed before it, so these
    three are the same for every [H] passed in. *)
Theorem integrate_remainder_total_errors (sampler : S) (g g' : G)
  (logwidth logVolremaining logZ H globalLmax : R) (m : Remainder) :
  integrate_remainder sampler g logwidth logVolremaining logZ H globalLmax
    = Some (g', m) ->
  let H' := snd (fold_live logwidth (remainder sampler) logZ H) in
  let stat := Num.pow_half (H' / IZR (nlive_points sampler)) in
  totalZerr m = remainderZerr m + stat /\
  (exists v : Locals,
     integrate_remainder_locals sampler g logwidth logVolremaining logZ H
       globalLmax = Some (g', v) /\
     totalZerr_bootstrapped m = v_bs_logZerr v + stat) /\
  (forall H2 : R, exists m2 : Remainder,
     integrate_remainder sampler g logwidth logVolremaining logZ H2 globalLmax
       = Some (g', m2) /\
     remainderZ m2 = remainderZ m /\
     remainderZerr m2 = remainderZerr m /\
     totalZ m2 = totalZ m).
Proof.
  intros E H' stat.
  destruct (integrate_remainder_inv _ _ _ _ _ _ _ _ _ E) as [v [Ev ->]].
  destruct (integrate_remainder_locals_inv _ _ _ _ _ _ _ _ _ (mkPoint [] [] 0) Ev)
    as (_ & _ & _ & _ & _ & _ & _ & _ & _ & _ & _ & Efold).
  assert (EH : v_H v = H') by (unfold H'; rewrite <- Efold; reflexivity).
  split; [| split].
  - cbn [returned totalZerr remainderZerr]. rewrite EH. reflexivity.
  - exists v. split; [exact Ev |].
    cbn [returned totalZerr_bootstrapped]. rewrite EH. reflexivity.
  - intros H2.
    destruct (integrate_remainder_locals_other_H _ _ _ _ _ _ _ H2 _ _ Ev)
      as (v2 & Ev2 & Emid & EZmid & Eerr & _).
    exists (returned sampler logwidth v2). split.
    + unfold integrate_remainder. rewrite Ev2. reflexivity.
    + cbn [returned remainderZ remainderZerr totalZ].
      rewrite Emid, EZmid, Eerr. repeat split.
Qed.

End FoldedInformation.

Lemma integrate_remainder_total_errors_witness :
  let r := Toy.value (tt, mkRemainder 0 0 0 0 0)
             (integrate_remainder Toy.single tt (-2) 0 0 0 2) in
  integrate_remainder Toy.single tt (-2) 0 0 0 2 = Some r /\
  totalZerr (snd r) = remainderZerr (snd r) + Num.pow_half ((1 - ln 2) / 1).
Proof.
  intros r.
  assert (E : integrate_remainder Toy.single tt (-2) 0 0 0 2 = Some (tt, snd r))
    by reflexivity.
  split; [reflexivity |].
  destruct (integrate_remainder_total_errors Toy.single tt tt (-2) 0 0 0 2
              (snd r) E) as [Etot _].
  rewrite Etot. rewrite <- accumulate_unit_mass. reflexivity.
Defined.

(** C1, as stated, fails: called with [H = 0] on one live point of likelihood
    2 at [logwidth = -2], the function returns a [totalZerr] that exceeds
    [logZerr + sqrt(0 / 1)] by [sqrt(1 - ln 2)]: the last loop changed the
    result. *)
Lemma integrate_remainder_total_error_not_from_argument :
  exists m : Remainder,
    integrate_remainder Toy.single tt (-2) 0 0 0 2 = Some (tt, m) /\
    remainder Toy.single <> [] /\
    totalZerr m <>
      remainderZerr m + Num.pow_half (0 / IZR (nlive_points Toy.single)).
Proof.
  pose (r := Toy.value (tt, mkRemainder 0 0 0 0 0)
               (integrate_remainder Toy.single tt (-2) 0 0 0 2)).
  assert (E : integrate_remainder Toy.single tt (-2) 0 0 0 2 = Some (tt, snd r))
    by reflexivity.
  exists (snd r). split; [exact E |]. split; [discriminate |].
  destruct (integrate_remainder_inv _ _ _ _ _ _ _ _ _ E) as [v [Ev ->]].
  destruct (integrate_remainder_locals_inv _ _ _ _ _ _ _ _ _ (Toy.point 0) Ev)
    as (_ & _ & _ & _ & _ & _ & _ & _ & _ & _ & _ & Efold).
  assert (EH : v_H v = 1 - ln 2).
  { rewrite <- accumulate_unit_mass.
    change (v_H v) with (snd (v_logZ v, v_H v)). rewrite Efold. reflexivity. }
  cbn [returned totalZerr remainderZerr nlive_points Toy.sampler Toy.single
       Toy.t_nlive].
  rewrite EH. unfold Num.pow_half.
  replace (0 / 1) with 0 by field. rewrite sqrt_0.
  pose proof ln_2_lt_1.
  assert (0 < sqrt ((1 - ln 2) / 1)) by (apply sqrt_lt_R0; lra).
  lra.
Qed.

(** ** integrate_remainder returns on a non-empty live set *)

Lemma toy_randint_spec : @randint_spec unit Toy.lowest.
Proof.
  intros g low high size Hlt. cbn. split.
  - apply repeat_length.
  - apply Forall_forall. intros k Hk. apply repeat_spec in Hk. lia.
Qed.

Section Returns.
Context {S G : Type} {SamplerS : Sampler S} {RandomG : RandomSource G}.
Hypothesis Hrand : randint_spec.

Lemma edges_of_nonempty (arr : list R) :
  arr <> [] ->
  (exists up, positive_edge arr = Some up) /\
  (exists lo, negative_edge arr = Some lo).
Proof.
  intros Hne. split; eexists.
  - apply positive_edge_eq, Hne.
  - apply negative_edge_eq, Hne.
Qed.

Lemma take_nonempty (l : list R) (idx : list nat) :
  idx <> [] -> Forall (fun k => (k < length l)%nat) idx ->
  exists r, Py.take l idx = Some r /\ r <> [].
Proof.
  intros Hidx Hin.
  destruct (take_in_range l idx Hin) as [r [E Hlen]].
  exists r. split; [exact E |].
  intros ->. destruct idx; [congruence | discriminate].
Qed.

Lemma bootstrap_round_returns (g : G) (Ls LsMax : list R) (logZ logV L0 : R) :
  Ls <> [] -> length LsMax = length Ls ->
  exists g' ab, bootstrap_round g Ls LsMax logZ logV L0 = Some (g', ab).
Proof.
  intros HLs Hlen. unfold bootstrap_round.
  assert (Hpos : (0 < length Ls)%nat) by (destruct Ls; [congruence | cbn; lia]).
  destruct (Hrand g 0%nat (length Ls) (length Ls) Hpos) as [Hsize Hrange].
  destruct (randint g 0 (length Ls) (length Ls)) as [g' idx]. cbn [snd] in *.
  pose proof (NatSort.Permuted_sort idx) as Hperm.
  set (i := NatSort.sort idx) in *.
  assert (Hi : i <> []).
  { intros Ei. apply Permutation_length in Hperm. rewrite Ei in Hperm.
    cbn in Hperm. lia. }
  assert (Hin : Forall (fun k => (k < length Ls)%nat) i).
  { eapply Permutation_Forall; [exact Hperm |].
    eapply Forall_impl; [| exact Hrange]. cbn. intros k Hk. lia. }
  destruct (take_nonempty LsMax i Hi) as [r1 [E1 Hr1]];
    [rewrite Hlen; exact Hin |].
  destruct (take_nonempty Ls i Hi Hin) as [r2 [E2 Hr2]].
  destruct (edges_of_nonempty r1 Hr1) as [[up Eup] _].
  destruct (edges_of_nonempty r2 Hr2) as [_ [lo Elo]].
  rewrite E1. cbn [obind]. rewrite Eup. cbn [obind].
  rewrite E2. cbn [obind]. rewrite Elo. cbn [obind].
  eexists. eexists. reflexivity.
Qed.

Lemma bootstrap_returns (rounds : nat) (Ls LsMax : list R) (logZ logV L0 : R) :
  Ls <> [] -> length LsMax = length Ls ->
  forall (g : G) (acc : list R),
  exists g' bs,
    bootstrap rounds g Ls LsMax logZ logV L0 acc = Some (g', bs) /\
    length bs = (length acc + 2 * rounds)%nat.
Proof.
  intros HLs Hlen. induction rounds as [| k IH]; intros g acc.
  - exists g, acc. split; [reflexivity | lia].
  - destruct (bootstrap_round_returns g Ls LsMax logZ logV L0 HLs Hlen)
      as [g1 [[up lo] E]].
    cbn [bootstrap]. rewrite E. cbn [obind].
    destruct (IH g1 (acc ++ [up; lo])) as [g' [bs [Eb Hb]]].
    exists g', bs. split; [exact Eb |].
    rewrite Hb, length_app. cbn. lia.
Qed.

(** With a generator that meets [randint_spec], the function returns on
    every non-empty live set. *)
Lemma integrate_remainder_returns (sampler : S) (g : G)
  (logwidth logVolremaining logZ H globalLmax : R) :
  remainder sampler <> [] ->
  exists g' m,
    integrate_remainder sampler g logwidth logVolremaining logZ H globalLmax
      = Some (g', m).
Proof.
  intros Hne. unfold integrate_remainder, integrate_remainder_locals.
  unfold rebase_base.
  rewrite (getitem_last _ (mkPoint [] [] 0) Hne). cbn [obind].
  set (L0 := pt_L (last (remainder sampler) (mkPoint [] [] 0))).
  pose proof (rebased_nonempty _ L0 Hne) as HLs.
  rewrite (rebased_max_eq _ globalLmax L0 HLs). cbn [obind].
  set (LsMax := removelast _ ++ _).
  assert (HLsMax : LsMax <> []).
  { unfold LsMax. destruct (removelast _); discriminate. }
  rewrite (positive_edge_eq _ HLsMax). cbn [obind].
  rewrite (negative_edge_eq _ HLs). cbn [obind].
  assert (Hlen : length LsMax = length (rebased (remainder sampler) L0)).
  { unfold LsMax. rewrite length_app.
    rewrite (app_removelast_last 0 HLs) at 2. rewrite length_app. reflexivity. }
  destruct (bootstrap_returns 20 _ _ logZ logwidth L0 HLs Hlen g [])
    as [g' [bs [Eb Hb]]].
  rewrite Eb. cbn [obind].
  destruct bs as [| b bs']; [cbn in Hb; lia |].
  cbn [Num.np_max Num.np_min obind].
  destruct (fold_live _ _ _ _) as [z h]. cbn [obind].
  eexists. eexists. reflexivity.
Qed.

End Returns.

(** ** One pass through the loop body *)

Section LoopFacts.
Context {S G : Type} {SamplerS : Sampler S} {RandomG : RandomSource G}.
Implicit Types (st : @LoopState S G) (cfg : Config) (m : Remainder).

(** [refresh] touches the generator and the five remainder variables only. *)
Lemma refresh_keeps st1 st2 :
  refresh st1 = Some st2 ->
  s_sampler st2 = s_sampler st1 /\ s_i st2 = s_i st1 /\
  s_logVolremaining st2 = s_logVolremaining st1 /\
  s_logwidth st2 = s_logwidth st1 /\ s_weights st2 = s_weights st1 /\
  s_point st2 = s_point st1 /\ s_logZ st2 = s_logZ st1 /\ s_H st2 = s_H st1.
Proof.
  unfold refresh. intros E.
  destruct (refresh_due st1).
  - destruct (integrate_remainder _ _ _ _ _ _ _) as [[g' m] |];
      cbn [obind] in E; [| discriminate].
    injection E as <-. cbn. repeat split.
  - injection E as <-. repeat split.
Qed.

(** The remainder variables after [refresh] are those of the call just made,
    or, when no call was due, the ones held before. *)
Lemma refresh_est st1 st2 m :
  refresh st1 = Some st2 -> s_est st2 = Some m ->
  (refresh_due st1 = true /\
   exists g', integrate_remainder (s_sampler st1) (s_rng st1) (s_logwidth st1)
                (s_logVolremaining st1) (s_logZ st1) (s_H st1)
                (Lmax (s_sampler st1)) = Some (g', m)) \/
  (refresh_due st1 = false /\ s_est st1 = Some m).
Proof.
  unfold refresh. intros E Em.
  destruct (refresh_due st1).
  - left. split; [reflexivity |].
    destruct (integrate_remainder _ _ _ _ _ _ _) as [[g' m'] |];
      cbn [obind] in E; [| discriminate].
    injection E as <-. cbn in Em. injection Em as ->.
    exists g'. reflexivity.
  - right. injection E as <-. split; [reflexivity | exact Em].
Qed.

Lemma draw_fields st :
  s_sampler (draw st) = fst (next (s_sampler st)) /\
  s_point (draw st) = snd (next (s_sampler st)) /\
  s_i (draw st) = s_i st /\
  s_logVolremaining (draw st) = s_logVolremaining st /\
  s_logwidth (draw st) = s_logwidth st /\
  s_weights (draw st) = s_weights st /\
  (s_logZ (draw st), s_H (draw st)) =
    accumulate (s_logZ st) (s_H st) (s_logwidth st)
      (pt_L (snd (next (s_sampler st)))).
Proof.
  unfold draw. destruct (next (s_sampler st)) as [sampler' p].
  cbn [fst snd]. unfold accumulate. cbn. repeat split.
Qed.

Lemma iteration_eq cfg st st2 m :
  refresh (advance st) = Some st2 -> s_est st2 = Some m ->
  iteration cfg st =
    match stop_rule cfg st2 m (stat_error (advance st)) with
    | Some why => Some (Break why st2)
    | None => Some (Continue (draw st2))
    end.
Proof.
  intros E Em. unfold iteration. rewrite E. cbn [obind].
  rewrite Em. reflexivity.
Qed.

Lemma iteration_inv cfg st (o : Outcome) :
  iteration cfg st = Some o ->
  exists st2 m,
    refresh (advance st) = Some st2 /\ s_est st2 = Some m /\
    ((stop_rule cfg st2 m (stat_error (advance st)) = None /\
      o = Continue (draw st2)) \/
     (exists why, stop_rule cfg st2 m (stat_error (advance st)) = Some why /\
                  o = Break why st2)).
Proof.
  unfold iteration. intros E.
  destruct (refresh (advance st)) as [st2 |]; cbn [obind] in E; [| discriminate].
  destruct (s_est st2) as [m |] eqn:Em; cbn [obind] in E; [| discriminate].
  exists st2, m. split; [reflexivity |]. split; [exact Em |].
  destruct (stop_rule cfg st2 m _) as [why |]; injection E as <-.
  - right. exists why. split; reflexivity.
  - left. split; reflexivity.
Qed.

(** The rules of the block under [if i > sampler.nlive_points], one by one. *)
Lemma stop_rule_early cfg st2 m (e : R) :
  (s_i st2 <= nlive_points (s_sampler st2))%Z -> stop_rule cfg st2 m e = None.
Proof.
  intros Hle. unfold stop_rule.
  replace (nlive_points (s_sampler st2) <? s_i st2)%Z with false; [reflexivity |].
  symmetry. apply Z.ltb_ge, Hle.
Qed.

Lemma stop_rule_late cfg st2 m (e : R) :
  (nlive_points (s_sampler st2) < s_i st2)%Z ->
  stop_rule cfg st2 m e =
    if budget_exhausted cfg st2 then Some MaxSamplesReached
    else if tolerance_reached cfg m then Some ToleranceReached
    else if no_improvement m e then Some NoImprovement
    else None.
Proof.
  intros Hlt. unfold stop_rule.
  replace (nlive_points (s_sampler st2) <? s_i st2)%Z with true; [reflexivity |].
  symmetry. apply Z.ltb_lt, Hlt.
Qed.

Lemma budget_exhausted_iff cfg st2 :
  budget_exhausted cfg st2 = true <->
  exists limit, max_samples cfg = Some limit /\
                (limit < ndraws (s_sampler st2))%Z.
Proof.
  unfold budget_exhausted. destruct (max_samples cfg) as [limit |]; split.
  - intros E. exists limit. split; [reflexivity | apply Z.ltb_lt, E].
  - intros [l [El Hl]]. injection El as <-. apply Z.ltb_lt, Hl.
  - discriminate.
  - intros [l [El _]]. discriminate.
Qed.

Lemma tolerance_reached_iff cfg m :
  tolerance_reached cfg m = true <->
  totalZerr m < tolerance cfg /\
  (need_small_remainder cfg = false \/
   remainderZ m < totalZ m + ln (max_remainder cfg)) /\
  (need_robust_remainder_error cfg = false \/
   totalZerr_bootstrapped m < tolerance cfg).
Proof.
  unfold tolerance_reached.
  rewrite !andb_true_iff, !orb_true_iff, !negb_true_iff, !Rltb_true.
  tauto.
Qed.

Lemma no_improvement_iff m (e : R) :
  no_improvement m e = true <-> remainderZerr m < e / 10.
Proof. apply Rltb_true. Qed.

(** Passes that do not leave the loop use up one unit of fuel each. *)
Lemma loop_continues cfg (n fuel : nat) st st' :
  continues cfg n st st' -> loop (n + fuel) cfg st = loop fuel cfg st'.
Proof.
  induction 1 as [| n st st1 st2 E _ IH]; [reflexivity |].
  cbn [Nat.add loop]. rewrite E. exact IH.
Qed.

(** The code after the loop returns whenever the final call of
    [integrate_remainder] does. *)
Lemma finish_returns cfg st :
  randint_spec -> remainder (s_sampler st) <> [] ->
  exists g' m,
    integrate_remainder (s_sampler st) (s_rng st) (s_logwidth st)
      (s_logVolremaining st) (s_logZ st) (s_H st) (Lmax (s_sampler st))
      = Some (g', m) /\
    finish cfg st =
      Some (mkOutput (totalZ m)
              (if need_robust_remainder_error cfg
               then Rmax (totalZerr m) (totalZerr_bootstrapped m)
               else totalZerr m)
              (samples (s_sampler st))
              (s_weights st ++
                 map (fun p => weight_of p (s_logwidth st))
                     (remainder (s_sampler st)))
              (s_H st) (s_i st)).
Proof.
  intros Hrand Hne.
  destruct (integrate_remainder_returns Hrand (s_sampler st) (s_rng st)
              (s_logwidth st) (s_logVolremaining st) (s_logZ st) (s_H st)
              (Lmax (s_sampler st)) Hne) as [g' [m E]].
  exists g', m. split; [exact E |].
  unfold finish. rewrite E. reflexivity.
Qed.

End LoopFacts.

(** ** The stopping rules *)

Section StoppingRules.
Context {S G : Type} {SamplerS : Sampler S} {RandomG : RandomSource G}.
Implicit Types (st : @LoopState S G) (cfg : Config) (m : Remainder).

Lemma runs_continues cfg (n : nat) st st' :
  runs cfg n st st' -> continues cfg n st st'.
Proof.
  induction 1 as [st | n st st1 st2 _ E _ IH]; [apply continues_refl |].
  apply continues_step with st1; assumption.
Qed.

(** A pass that leaves the loop makes the function return what the code
    after the loop builds from the state the loop was left in. *)
Lemma break_returns cfg (n fuel : nat) (sampler : S) (g : G) st st2
  (why : Reason) :
  randint_spec ->
  remainder (s_sampler st2) <> [] ->
  continues cfg n (start sampler g) st ->
  iteration cfg st = Some (Break why st2) ->
  exists (out : Output) (g' : G) (mf : Remainder),
    nested_integrator (n + Datatypes.S fuel) sampler g cfg = Returned out why /\
    finish cfg st2 = Some out /\
    integrate_remainder (s_sampler st2) (s_rng st2) (s_logwidth st2)
      (s_logVolremaining st2) (s_logZ st2) (s_H st2) (Lmax (s_sampler st2))
      = Some (g', mf) /\
    out_logZ out = totalZ mf /\
    out_logZerr out =
      (if need_robust_remainder_error cfg
       then Rmax (totalZerr mf) (totalZerr_bootstrapped mf)
       else totalZerr mf) /\
    out_information out = s_H st2 /\
    out_niterations out = s_i st2.
Proof.
  intros Hrand Hne Hrun Ebreak.
  destruct (finish_returns cfg st2 Hrand Hne) as [g' [mf [Ecall Efin]]].
  match type of Efin with _ = Some ?o => exists o, g', mf end.
  split; [| split; [exact Efin | split; [exact Ecall | cbn; repeat split]]].
  unfold nested_integrator.
  rewrite (loop_continues cfg n (Datatypes.S fuel) _ _ Hrun).
  cbn [loop]. rewrite Ebreak, Efin. reflexivity.
Qed.

(** A pass that stays in the loop hands the state after its draw to the
    next pass. *)
Lemma continue_goes_on cfg (n fuel : nat) (sampler : S) (g : G) st st' :
  continues cfg n (start sampler g) st ->
  iteration cfg st = Some (Continue st') ->
  nested_integrator (n + Datatypes.S fuel) sampler g cfg = loop fuel cfg st'.
Proof.
  intros Hrun E. unfold nested_integrator.
  rewrite (loop_continues cfg n (Datatypes.S fuel) _ _ Hrun).
  cbn [loop]. rewrite E. reflexivity.
Qed.

(** C3, as amended: in a run on numbers, past [nlive_points] iterations the
    budget rule leaves the loop exactly when [max_samples] is set and
    [ndraws] is strictly above it (at [ndraws = max_samples] it does not
    fire); the function then returns, without raising, the result of the
    final remainder integration together with the iteration count, and the
    returned [logZerr] is that call's [totalZerr] (the larger of the two
    total errors when [need_robust_remainder_error] is set), compared with
    no tolerance. *)
Theorem budget_rule_stops_past_limit cfg (n fuel : nat) (sampler : S) (g : G)
  st st2 m :
  randint_spec ->
  (0 < nlive_points sampler)%Z ->
  runs cfg n (start sampler g) st ->
  pass_defined cfg st ->
  remainder (s_sampler st2) <> [] ->
  refresh (advance st) = Some st2 ->
  s_est st2 = Some m ->
  (nlive_points (s_sampler st2) < s_i st2)%Z ->
  (iteration cfg st = Some (Break MaxSamplesReached st2) <->
   exists limit, max_samples cfg = Some limit /\
                 (limit < ndraws (s_sampler st2))%Z) /\
  (forall limit, max_samples cfg = Some limit ->
     ndraws (s_sampler st2) = limit ->
     iteration cfg st <> Some (Break MaxSamplesReached st2) /\
     forall out, nested_integrator (n + 1) sampler g cfg
                 <> Returned out MaxSamplesReached) /\
  ((exists limit, max_samples cfg = Some limit /\
                  (limit < ndraws (s_sampler st2))%Z) ->
   exists (out : Output) (g' : G) (mf : Remainder),
     nested_integrator (n + Datatypes.S fuel) sampler g cfg
       = Returned out MaxSamplesReached /\
     finish cfg st2 = Some out /\
     integrate_remainder (s_sampler st2) (s_rng st2) (s_logwidth st2)
       (s_logVolremaining st2) (s_logZ st2) (s_H st2) (Lmax (s_sampler st2))
       = Some (g', mf) /\
     out_logZ out = totalZ mf /\
     out_information out = s_H st2 /\
     out_niterations out = s_i st2 /\
     (0 <= snd (fold_live (s_logwidth st2) (remainder (s_sampler st2))
                          (s_logZ st2) (s_H st2)) ->
      out_logZerr out =
        (if need_robust_remainder_error cfg
         then Rmax (totalZerr mf) (totalZerr_bootstrapped mf)
         else totalZerr mf))).
Proof.
  intros Hrand Hpos Hruns Hdef Hne E Em Hlate.
  pose proof (runs_continues cfg n _ _ Hruns) as Hrun.
  pose proof (iteration_eq cfg st st2 m E Em) as Eit.
  rewrite (stop_rule_late cfg st2 m _ Hlate) in Eit.
  assert (Hiff : iteration cfg st = Some (Break MaxSamplesReached st2) <->
                 budget_exhausted cfg st2 = true).
  { rewrite Eit. destruct (budget_exhausted cfg st2); [tauto |].
    split; [| discriminate].
    destruct (tolerance_reached cfg m); [discriminate |].
    destruct (no_improvement m _); discriminate. }
  split; [rewrite Hiff; apply budget_exhausted_iff |].
  split.
  - intros limit El End.
    assert (Hnot : iteration cfg st <> Some (Break MaxSamplesReached st2)).
    { intros Hbreak. apply Hiff, budget_exhausted_iff in Hbreak.
      destruct Hbreak as [l [El' Hl]]. rewrite El in El'. injection El' as <-.
      lia. }
    split; [exact Hnot |].
    intros out Eout. unfold nested_integrator in Eout.
    rewrite (loop_continues cfg n 1 _ _ Hrun) in Eout.
    cbn [loop] in Eout. rewrite Eit in Eout. rewrite Eit in Hnot.
    destruct (budget_exhausted cfg st2); [contradiction Hnot; reflexivity |].
    destruct (tolerance_reached cfg m).
    { destruct (finish cfg st2); discriminate. }
    destruct (no_improvement m _); [| discriminate].
    destruct (finish cfg st2); discriminate.
  - intros Hover. apply budget_exhausted_iff, Hiff in Hover.
    destruct (break_returns cfg n fuel sampler g st st2 MaxSamplesReached
                Hrand Hne Hrun Hover)
      as (out & g' & mf & Erun & Efin & Ecall & EZ & Eerr & EH & Ei).
    exists out, g', mf. repeat split; try assumption.
    intros _. exact Eerr.
Qed.

(** C4: in a run on numbers, up to [nlive_points] iterations no rule is
    evaluated and the loop goes on.  Past them, and with the budget rule not
    having fired, the loop is left through the tolerance rule exactly when
    [totalZerr < tolerance], the remainder is small or that check is off,
    and the bootstrapped error is within tolerance or that check is off; the
    function then returns the result of the final remainder integration, and
    when they do not all hold this pass does not make it return through this
    rule.  When the three hold the loop is left at this check whatever the
    budget.  The quantities compared are those of the latest call of
    [integrate_remainder]. *)
Theorem tolerance_rule_exact cfg (n fuel : nat) (sampler : S) (g : G)
  st st2 m :
  randint_spec ->
  (0 < nlive_points sampler)%Z ->
  runs cfg n (start sampler g) st ->
  pass_defined cfg st ->
  remainder (s_sampler st2) <> [] ->
  refresh (advance st) = Some st2 ->
  s_est st2 = Some m ->
  let satisfied :=
    totalZerr m < tolerance cfg /\
    (need_small_remainder cfg = false \/
     remainderZ m < totalZ m + ln (max_remainder cfg)) /\
    (need_robust_remainder_error cfg = false \/
     totalZerr_bootstrapped m < tolerance cfg) in
  (tolerance_reached cfg m = true <-> satisfied) /\
  ((s_i st2 <= nlive_points (s_sampler st2))%Z ->
   iteration cfg st = Some (Continue (draw st2)) /\
   nested_integrator (n + Datatypes.S fuel) sampler g cfg
     = loop fuel cfg (draw st2)) /\
  ((nlive_points (s_sampler st2) < s_i st2)%Z ->
   budget_exhausted cfg st2 = false ->
   (iteration cfg st = Some (Break ToleranceReached st2) <-> satisfied) /\
   (satisfied ->
    exists (out : Output) (g' : G) (mf : Remainder),
      nested_integrator (n + Datatypes.S fuel) sampler g cfg
        = Returned out ToleranceReached /\
      finish cfg st2 = Some out /\
      integrate_remainder (s_sampler st2) (s_rng st2) (s_logwidth st2)
        (s_logVolremaining st2) (s_logZ st2) (s_H st2) (Lmax (s_sampler st2))
        = Some (g', mf) /\
      out_logZ out = totalZ mf /\
      out_information out = s_H st2 /\
      out_niterations out = s_i st2) /\
   (~ satisfied ->
    forall out, nested_integrator (n + 1) sampler g cfg
                <> Returned out ToleranceReached)) /\
  ((nlive_points (s_sampler st2) < s_i st2)%Z -> satisfied ->
   exists why, iteration cfg st = Some (Break why st2)) /\
  ((refresh_due (advance st) = true /\
    exists g', integrate_remainder (s_sampler st) (s_rng st)
                 (s_logwidth (advance st)) (s_logVolremaining (advance st))
                 (s_logZ st) (s_H st) (Lmax (s_sampler st)) = Some (g', m)) \/
   (refresh_due (advance st) = false /\ s_est st = Some m)).
Proof.
  intros Hrand Hpos Hruns Hdef Hne E Em satisfied.
  pose proof (runs_continues cfg n _ _ Hruns) as Hrun.
  pose proof (iteration_eq cfg st st2 m E Em) as Eit.
  split; [apply tolerance_reached_iff |]. split; [| split; [| split]].
  - intros Hearly.
    rewrite (stop_rule_early cfg st2 m _ Hearly) in Eit.
    split; [exact Eit |].
    exact (continue_goes_on cfg n fuel sampler g st _ Hrun Eit).
  - intros Hlate Hbudget.
    rewrite (stop_rule_late cfg st2 m _ Hlate), Hbudget in Eit.
    assert (Hiff : iteration cfg st = Some (Break ToleranceReached st2) <->
                   satisfied).
    { rewrite Eit. unfold satisfied. rewrite <- tolerance_reached_iff.
      destruct (tolerance_reached cfg m); [tauto |].
      split; [| discriminate].
      destruct (no_improvement m _); discriminate. }
    split; [exact Hiff |]. split.
    + intros Hsat. apply Hiff in Hsat.
      destruct (break_returns cfg n fuel sampler g st st2 ToleranceReached
                  Hrand Hne Hrun Hsat)
        as (out & g' & mf & Erun & Efin & Ecall & EZ & _ & EH & Ei).
      exists out, g', mf. repeat split; assumption.
    + intros Hnot out Eout. unfold nested_integrator in Eout.
      rewrite (loop_continues cfg n 1 _ _ Hrun) in Eout.
      cbn [loop] in Eout. rewrite Eit in Eout.
      destruct (tolerance_reached cfg m) eqn:Etol.
      { apply Hnot, tolerance_reached_iff, Etol. }
      destruct (no_improvement m _); [| discriminate].
      destruct (finish cfg st2); discriminate.
  - intros Hlate Hsat. apply tolerance_reached_iff in Hsat.
    rewrite Eit, (stop_rule_late cfg st2 m _ Hlate), Hsat.
    destruct (budget_exhausted cfg st2); eexists; reflexivity.
  - exact (refresh_est (advance st) st2 m E Em).
Qed.

(** C5: in a run on numbers, with more than [nlive_points] iterations done
    and neither the budget nor the tolerance rule having fired, the loop is
    left through the last rule exactly when
    [remainderZerr < sqrt(H / nlive_points) / 10], for the [H] current in
    this iteration; the function then returns the result of the final
    remainder integration; otherwise the next point is drawn and the loop
    goes on. *)
Theorem no_improvement_rule_exact cfg (n fuel : nat) (sampler : S) (g : G)
  st st2 m :
  randint_spec ->
  (0 < nlive_points sampler)%Z ->
  runs cfg n (start sampler g) st ->
  pass_defined cfg st ->
  remainder (s_sampler st2) <> [] ->
  refresh (advance st) = Some st2 ->
  s_est st2 = Some m ->
  (nlive_points (s_sampler st2) < s_i st2)%Z ->
  budget_exhausted cfg st2 = false ->
  tolerance_reached cfg m = false ->
  let statisticalError := sqrt (s_H st / IZR (nlive_points (s_sampler st))) in
  (no_improvement m (stat_error (advance st)) = true <->
   remainderZerr m < statisticalError / 10) /\
  (iteration cfg st = Some (Break NoImprovement st2) <->
   remainderZerr m < statisticalError / 10) /\
  (remainderZerr m < statisticalError / 10 ->
   exists (out : Output) (g' : G) (mf : Remainder),
     nested_integrator (n + Datatypes.S fuel) sampler g cfg
       = Returned out NoImprovement /\
     finish cfg st2 = Some out /\
     integrate_remainder (s_sampler st2) (s_rng st2) (s_logwidth st2)
       (s_logVolremaining st2) (s_logZ st2) (s_H st2) (Lmax (s_sampler st2))
       = Some (g', mf) /\
     out_logZ out = totalZ mf /\
     out_information out = s_H st2 /\
     out_niterations out = s_i st2) /\
  (~ remainderZerr m < statisticalError / 10 ->
   iteration cfg st = Some (Continue (draw st2)) /\
   nested_integrator (n + Datatypes.S fuel) sampler g cfg
     = loop fuel cfg (draw st2)).
Proof.
  intros Hrand Hpos Hruns Hdef Hne E Em Hlate Hbudget Htol statisticalError.
  pose proof (runs_continues cfg n _ _ Hruns) as Hrun.
  pose proof (iteration_eq cfg st st2 m E Em) as Eit.
  rewrite (stop_rule_late cfg st2 m _ Hlate), Hbudget, Htol in Eit.
  assert (Hrule : no_improvement m (stat_error (advance st)) = true <->
                  remainderZerr m < statisticalError / 10)
    by apply no_improvement_iff.
  assert (Hiff : iteration cfg st = Some (Break NoImprovement st2) <->
                 remainderZerr m < statisticalError / 10).
  { rewrite Eit.
    destruct (no_improvement m (stat_error (advance st))); [tauto |].
    split; [discriminate |]. intros Hlt. apply Hrule in Hlt. discriminate. }
  split; [exact Hrule |]. split; [exact Hiff |]. split.
  - intros Hlt. apply Hiff in Hlt.
    destruct (break_returns cfg n fuel sampler g st st2 NoImprovement
                Hrand Hne Hrun Hlt)
      as (out & g' & mf & Erun & Efin & Ecall & EZ & _ & EH & Ei).
    exists out, g', mf. repeat split; assumption.
  - intros Hnot.
    assert (Eno : no_improvement m (stat_error (advance st)) = false).
    { destruct (no_improvement m (stat_error (advance st))); [| reflexivity].
      exfalso. apply Hnot, Hrule. reflexivity. }
    rewrite Eno in Eit. split; [exact Eit |].
    exact (continue_goes_on cfg n fuel sampler g st _ Hrun Eit).
Qed.

End StoppingRules.

Lemma tolerance_not_reached (cfg : Config) (m : Remainder) :
  ~ totalZerr m < tolerance cfg -> tolerance_reached cfg m = false.
Proof.
  intros Hnot. unfold tolerance_reached.
  rewrite (proj2 (Rltb_false _ _) Hnot). reflexivity.
Qed.

(** ** Volume, evidence and the recorded widths along the loop *)

Lemma toy_nlive_points_fixed : @nlive_points_fixed Toy.State Toy.sampler.
Proof. intros s. reflexivity. Qed.

Section LoopInvariants.
Context {S G : Type} {SamplerS : Sampler S} {RandomG : RandomSource G}.
Implicit Types (st : @LoopState S G) (cfg : Config) (m : Remainder).

(** What one pass does to the tracked scalars, whether or not it leaves the
    loop. *)
Lemma iteration_effect cfg st (o : Outcome) :
  iteration cfg st = Some o ->
  s_logVolremaining (outcome_state o) =
    s_logVolremaining st - 1 / IZR (nlive_points (s_sampler st)) /\
  s_logwidth (outcome_state o) = shell (s_sampler st) + s_logVolremaining st /\
  s_weights (outcome_state o) =
    s_weights st ++
      [weight_of (s_point st) (shell (s_sampler st) + s_logVolremaining st)] /\
  ((o = Continue (outcome_state o) /\
    s_sampler (outcome_state o) = fst (next (s_sampler st)) /\
    s_point (outcome_state o) = snd (next (s_sampler st)) /\
    (s_logZ (outcome_state o), s_H (outcome_state o)) =
      accumulate (s_logZ st) (s_H st) (s_logwidth (outcome_state o))
        (pt_L (s_point (outcome_state o)))) \/
   ((exists why, o = Break why (outcome_state o)) /\
    s_sampler (outcome_state o) = s_sampler st /\
    s_logZ (outcome_state o) = s_logZ st)).
Proof.
  intros E.
  destruct (iteration_inv cfg st o E) as (st2 & m & Er & _ & Ho).
  destruct (refresh_keeps _ _ Er)
    as (Es & _ & Ev & Ew & Ews & Ep & Ez & Eh).
  destruct Ho as [[_ ->] | [why [_ ->]]]; cbn [outcome_state].
  - destruct (draw_fields st2) as (Ds & Dp & _ & Dv & Dw & Dws & Dacc).
    split; [rewrite Dv, Ev; reflexivity |].
    split; [rewrite Dw, Ew; reflexivity |].
    split; [rewrite Dws, Ews; reflexivity |].
    left. split; [reflexivity |].
    split; [rewrite Ds, Es; reflexivity |].
    split; [rewrite Dp, Es; reflexivity |].
    rewrite Dacc, Dw, Dp, Ez, Eh, Es. reflexivity.
  - split; [rewrite Ev; reflexivity |].
    split; [rewrite Ew; reflexivity |].
    split; [rewrite Ews; reflexivity |].
    right. split; [exists why; reflexivity |].
    split; [rewrite Es; reflexivity | rewrite Ez; reflexivity].
Qed.

Lemma iteration_logZ cfg st (o : Outcome) :
  iteration cfg st = Some o -> s_logZ st <= s_logZ (outcome_state o).
Proof.
  intros E.
  destruct (iteration_effect cfg st o E) as (_ & _ & _ & [Hc | Hb]).
  - destruct Hc as (_ & _ & _ & Eacc).
    unfold accumulate in Eacc. injection Eacc as Ez _. rewrite Ez.
    left. apply logaddexp_gt_left.
  - destruct Hb as (_ & _ & ->). apply Rle_refl.
Qed.

Lemma continues_effect cfg (n : nat) st st' :
  nlive_points_fixed ->
  continues cfg n st st' ->
  nlive_points (s_sampler st') = nlive_points (s_sampler st) /\
  s_logVolremaining st' =
    s_logVolremaining st - INR n / IZR (nlive_points (s_sampler st)) /\
  s_logZ st <= s_logZ st'.
Proof.
  intros Hfixed. induction 1 as [st | n st st1 st2 E _ IH].
  - cbn [INR]. repeat split; [| apply Rle_refl].
    unfold Rdiv. rewrite Rmult_0_l. ring.
  - destruct IH as (IHn & IHv & IHz).
    pose proof (iteration_logZ cfg st _ E) as Hz.
    destruct (iteration_effect cfg st _ E) as (Ev & _ & _ & [Hc | Hb]);
      cbn [outcome_state] in *.
    + destruct Hc as (_ & Es & _).
      assert (En : nlive_points (s_sampler st1) = nlive_points (s_sampler st)).
      { rewrite Es. apply Hfixed. }
      rewrite IHn, En. split; [reflexivity |]. split; [| lra].
      rewrite IHv, Ev, En, S_INR. unfold Rdiv. ring.
    + destruct Hb as ([why Hwhy] & _). discriminate Hwhy.
Qed.

(** C6: with [nlive_points > 0], every pass through the loop body lowers
    [logVolremaining] by exactly [1 / nlive_points], hence strictly, and does
    not lower [logZ], because [logaddexp(logZ, w) >= logZ] for every [w];
    along a run both orders hold between any earlier and later state. *)
Theorem volume_decreases_evidence_grows cfg (n : nat) st st' (o : Outcome) :
  nlive_points_fixed ->
  (0 < nlive_points (s_sampler st))%Z ->
  continues cfg n st st' ->
  iteration cfg st' = Some o ->
  let N := IZR (nlive_points (s_sampler st)) in
  (forall logZ w : R, logZ <= Num.logaddexp logZ w) /\
  s_logVolremaining (outcome_state o) = s_logVolremaining st' - 1 / N /\
  s_logVolremaining (outcome_state o) < s_logVolremaining st' /\
  s_logZ st' <= s_logZ (outcome_state o) /\
  s_logVolremaining st' = s_logVolremaining st - INR n / N /\
  s_logVolremaining st' <= s_logVolremaining st /\
  s_logZ st <= s_logZ st'.
Proof.
  intros Hfixed Hpos Hrun E N.
  assert (HN : 0 < N) by (apply (IZR_lt 0), Hpos).
  assert (Hinv : 0 < / N) by (apply Rinv_0_lt_compat, HN).
  destruct (continues_effect cfg n st st' Hfixed Hrun) as (En & Ev & Ez).
  destruct (iteration_effect cfg st' o E) as (Eo & _).
  rewrite En in Eo. fold N in Eo, Ev.
  split; [intros logZ w; left; apply logaddexp_gt_left |].
  split; [exact Eo |].
  split; [rewrite Eo; unfold Rdiv; lra |].
  split; [exact (iteration_logZ cfg st' o E) |].
  split; [exact Ev |].
  split; [| exact Ez].
  rewrite Ev. pose proof (pos_INR n). unfold Rdiv. nra.
Qed.

(** C10: a point drawn at the end of one pass is folded into [logZ] at the
    [logwidth] of that pass; the next pass appends one record to [weights],
    which holds that point and a [logwidth] smaller by exactly
    [1 / nlive_points], so that the recorded log-weight is that much below
    the one of the [logZ] update.  The first point alone is recorded with
    the width it was folded in at.  The records that the code after the
    loop adds for the live points carry the [logwidth] of the last pass,
    the one at which the final call of [integrate_remainder] takes them:
    the lag is that of the points the loop draws. *)
Theorem recorded_logwidth_lags cfg st st1 (o : Outcome) :
  nlive_points_fixed ->
  (0 < nlive_points (s_sampler st))%Z ->
  iteration cfg st = Some (Continue st1) ->
  iteration cfg st1 = Some o ->
  let N := IZR (nlive_points (s_sampler st)) in
  let p := s_point st1 in
  let folded_at := s_logwidth st1 in
  p = snd (next (s_sampler st)) /\
  s_logZ st1 = Num.logaddexp (s_logZ st) (folded_at + pt_L p) /\
  (s_logZ st1, s_H st1) = accumulate (s_logZ st) (s_H st) folded_at (pt_L p) /\
  (exists rec : WeightRecord,
     s_weights (outcome_state o) = s_weights st1 ++ [rec] /\
     w_u rec = pt_u p /\ w_x rec = pt_x p /\ w_L rec = pt_L p /\
     w_logwidth rec = folded_at - 1 / N /\
     w_logwidth rec < folded_at /\
     w_logwidth rec + w_L rec = folded_at + pt_L p - 1 / N /\
     s_logwidth (outcome_state o) = w_logwidth rec) /\
  (forall (sampler : S) (g : G) (o0 : Outcome),
     iteration cfg (start sampler g) = Some o0 ->
     s_logZ (start sampler g) =
       s_logwidth (start sampler g) + pt_L (s_point (start sampler g)) /\
     exists rec0 : WeightRecord,
       s_weights (outcome_state o0) = [rec0] /\
       w_L rec0 = pt_L (s_point (start sampler g)) /\
       w_logwidth rec0 = s_logwidth (start sampler g)) /\
  (forall (out : Output),
     finish cfg (outcome_state o) = Some out ->
     exists live_records : list WeightRecord,
       out_weights out = s_weights (outcome_state o) ++ live_records /\
       map w_L live_records =
         map pt_L (remainder (s_sampler (outcome_state o))) /\
       Forall (fun rec => w_logwidth rec = s_logwidth (outcome_state o))
              live_records).
Proof.
  intros Hfixed Hpos E1 E2 N p folded_at.
  assert (HN : 0 < N) by (apply (IZR_lt 0), Hpos).
  assert (Hinv : 0 < / N) by (apply Rinv_0_lt_compat, HN).
  destruct (iteration_effect cfg st _ E1) as (Ev & Ew & _ & [Hc | Hb]);
    cbn [outcome_state] in *.
  2: { destruct Hb as ([why Hwhy] & _). discriminate Hwhy. }
  destruct Hc as (_ & Es & Ep & Eacc).
  destruct (iteration_effect cfg st1 o E2) as (_ & Ewo & Ews & _).
  assert (Hw : shell (s_sampler st1) + s_logVolremaining st1
               = folded_at - 1 / N).
  { unfold folded_at, N. rewrite Ew, Ev.
    unfold shell. rewrite Es, Hfixed. ring. }
  split; [exact Ep |].
  split; [unfold accumulate in Eacc; injection Eacc as Ez _; exact Ez |].
  split; [exact Eacc |].
  split.
  { exists (weight_of p (shell (s_sampler st1) + s_logVolremaining st1)).
    split; [exact Ews |].
    cbn [weight_of w_u w_x w_L w_logwidth]. rewrite Hw.
    repeat split; try reflexivity.
    - unfold Rdiv. lra.
    - ring.
    - rewrite Ewo. exact Hw. }
  split.
  - intros sampler g o0 E0.
    destruct (iteration_effect cfg _ o0 E0) as (_ & _ & Ews0 & _).
    rewrite Ews0. unfold start.
    destruct (next sampler) as [sampler' p0] eqn:En. cbn.
    split; [reflexivity |].
    assert (Hw0 : shell sampler' + 0 = shell sampler).
    { unfold shell.
      replace sampler' with (fst (next sampler)) by (rewrite En; reflexivity).
      rewrite Hfixed. ring. }
    eexists. split; [reflexivity |].
    cbn [weight_of w_L w_logwidth]. split; [reflexivity | exact Hw0].
  - intros out Efin. unfold finish in Efin.
    destruct (integrate_remainder _ _ _ _ _ _ _) as [[g' mf] |];
      cbn [obind] in Efin; [| discriminate].
    injection Efin as <-. cbn [out_weights].
    eexists. split; [reflexivity |].
    split.
    + rewrite map_map. apply map_ext. intros q. reflexivity.
    + apply Forall_forall. intros rec Hin.
      apply in_map_iff in Hin. destruct Hin as [q [<- _]]. reflexivity.
Qed.

End LoopInvariants.

Lemma volume_decreases_evidence_grows_witness :
  s_logVolremaining (advance ToyRun.single1)
    < s_logVolremaining ToyRun.single1 /\
  s_logZ ToyRun.single0 <= s_logZ ToyRun.single1.
Proof.
  assert (Hpos : (0 < nlive_points (s_sampler ToyRun.single0))%Z)
    by reflexivity.
  assert (Hrun : continues ToyRun.no_budget 1 ToyRun.single0 ToyRun.single1).
  { apply continues_step with ToyRun.single1; [reflexivity |].
    apply continues_refl. }
  assert (E : iteration ToyRun.no_budget ToyRun.single1
              = Some (Break MaxSamplesReached (advance ToyRun.single1)))
    by reflexivity.
  destruct (volume_decreases_evidence_grows ToyRun.no_budget 1 ToyRun.single0
              ToyRun.single1 _ toy_nlive_points_fixed Hpos Hrun E)
    as (_ & _ & Hv & _ & _ & _ & Hz).
  split; [exact Hv | exact Hz].
Defined.

Lemma recorded_logwidth_lags_witness :
  exists rec : WeightRecord,
    s_weights (draw (advance ToyRun.rising1)) =
      s_weights ToyRun.rising1 ++ [rec] /\
    w_L rec = pt_L (s_point ToyRun.rising1) /\
    w_logwidth rec = s_logwidth ToyRun.rising1 - 1 / 2 /\
    w_logwidth rec < s_logwidth ToyRun.rising1.
Proof.
  assert (Hpos : (0 < nlive_points (s_sampler ToyRun.rising0))%Z)
    by reflexivity.
  assert (E1 : iteration default_config ToyRun.rising0
               = Some (Continue ToyRun.rising1)) by reflexivity.
  assert (E2 : iteration default_config ToyRun.rising1
               = Some (Continue (draw (advance ToyRun.rising1))))
    by reflexivity.
  destruct (recorded_logwidth_lags default_config ToyRun.rising0
              ToyRun.rising1 _ toy_nlive_points_fixed Hpos E1 E2)
    as (_ & _ & _ & Hrec & _).
  destruct Hrec as (rec & Ews & _ & _ & EL & Ew & Hlt & _).
  exists rec. repeat split; assumption.
Defined.

(** * Further properties of the code *)

(** ** conservative_estimator *)

Lemma logaddexp_comm (a b : R) : Num.logaddexp a b = Num.logaddexp b a.
Proof. unfold Num.logaddexp. f_equal. ring. Qed.

Lemma logaddexp_le_right (a b b' : R) :
  b <= b' -> Num.logaddexp a b <= Num.logaddexp a b'.
Proof.
  intros [Hlt | ->]; [left; apply logaddexp_lt_right, Hlt | apply Rle_refl].
Qed.

Lemma logaddexp_excess (a b : R) :
  Num.logaddexp a b - b = ln (1 + exp (a - b)).
Proof.
  unfold Num.logaddexp.
  pose proof (exp_pos a) as Ha. pose proof (exp_pos b) as Hb.
  pose proof (exp_pos (a - b)) as Hab.
  replace (exp a + exp b) with (exp b * (1 + exp (a - b))).
  - rewrite ln_mult, ln_exp by lra. ring.
  - rewrite exp_sub. field. lra.
Qed.

(** The conservative estimator reports the contribution
    [Lmax + logVolremaining] and an uncertainty that is strictly positive,
    equals [log(1 + exp(maxContribution - logZ))], and shrinks strictly with
    the remaining volume. *)
Theorem conservative_estimator_uncertainty {S : Type} {SamplerS : Sampler S}
  (sampler : S) (logwidth logVolremaining logZ : R) :
  let r := conservative_estimator sampler logwidth logVolremaining logZ in
  fst r = Lmax sampler + logVolremaining /\
  0 < snd r /\
  snd r = ln (1 + exp (fst r - logZ)) /\
  exp (logZ + snd r) = exp logZ + exp (fst r) /\
  (forall smaller : R, smaller < logVolremaining ->
     snd (conservative_estimator sampler logwidth smaller logZ) < snd r).
Proof.
  unfold conservative_estimator. cbn [fst snd].
  set (c := Lmax sampler + logVolremaining).
  split; [reflexivity |].
  assert (Hpos : 0 < Num.logaddexp c logZ - logZ).
  { rewrite logaddexp_comm. pose proof (logaddexp_gt_left logZ c). lra. }
  split; [exact Hpos |].
  split; [apply logaddexp_excess |].
  split.
  - replace (logZ + (Num.logaddexp c logZ - logZ)) with (Num.logaddexp c logZ)
      by ring.
    unfold Num.logaddexp. rewrite exp_ln; [ring |].
    pose proof (exp_pos c). pose proof (exp_pos logZ). lra.
  - intros smaller Hlt.
    rewrite (logaddexp_comm (Lmax sampler + smaller)), (logaddexp_comm c).
    assert (Hc : Lmax sampler + smaller < c) by (unfold c; lra).
    pose proof (logaddexp_lt_right logZ _ _ Hc). lra.
Qed.

(** ** The accumulator as a sum of masses *)

Lemma exp_logaddexp (a b : R) : exp (Num.logaddexp a b) = exp a + exp b.
Proof.
  unfold Num.logaddexp. apply exp_ln.
  pose proof (exp_pos a). pose proof (exp_pos b). lra.
Qed.

Lemma accumulate_masses (logZ H logwidth Li : R) :
  let r := accumulate logZ H logwidth Li in
  exp (fst r) = exp logZ + exp (logwidth + Li) /\
  exp (logwidth + Li - fst r) + exp (logZ - fst r) = 1 /\
  exp (fst r) * (snd r + fst r) =
    exp logZ * (H + logZ) + exp (logwidth + Li) * Li.
Proof.
  unfold accumulate. cbn [fst snd].
  set (w := logwidth + Li). set (z' := Num.logaddexp logZ w).
  assert (Ez : exp z' = exp logZ + exp w) by apply exp_logaddexp.
  pose proof (exp_pos z') as Hz. pose proof (exp_pos logZ) as Hz0.
  pose proof (exp_pos w) as Hw.
  split; [exact Ez |]. rewrite !exp_sub. split.
  - rewrite Ez. field. lra.
  - replace (exp w / exp z' * Li + exp logZ / exp z' * (H + logZ) - z' + z')
      with ((exp w * Li + exp logZ * (H + logZ)) / exp z') by (field; lra).
    field. lra.
Qed.

(** One update of the accumulator adds the mass [exp(logwidth + Li)] to
    [exp(logZ)], weighs the old and the new term of [H] by two factors that
    sum to one, and adds [exp(logwidth + Li) * Li] to [exp(logZ) * (H + logZ)];
    the new [logZ] is strictly above the old one. *)
Theorem accumulate_adds_mass (logZ H logwidth Li : R) :
  let r := accumulate logZ H logwidth Li in
  exp (fst r) = exp logZ + exp (logwidth + Li) /\
  exp (logwidth + Li - fst r) + exp (logZ - fst r) = 1 /\
  exp (fst r) * (snd r + fst r) =
    exp logZ * (H + logZ) + exp (logwidth + Li) * Li /\
  logZ < fst r.
Proof.
  destruct (accumulate_masses logZ H logwidth Li) as (E1 & E2 & E3).
  cbn zeta in *. repeat split; try assumption.
  unfold accumulate. cbn [fst]. apply logaddexp_gt_left.
Qed.

Lemma sum_permutation (l l' : list R) :
  Permutation l l' -> Num.sum l = Num.sum l'.
Proof.
  unfold Num.sum.
  induction 1 as [| x l l' _ IH | x y l | l l' l'' _ IH1 _ IH2];
    cbn [fold_right].
  - reflexivity.
  - rewrite IH. reflexivity.
  - ring.
  - rewrite IH1. exact IH2.
Qed.

Lemma sum_cons (a : R) (l : list R) : Num.sum (a :: l) = a + Num.sum l.
Proof. reflexivity. Qed.

Lemma likelihood_sum_pos (live : list Point) :
  live <> [] -> 0 < likelihood_sum live.
Proof.
  unfold likelihood_sum.
  destruct live as [| p rest]; [congruence |]. intros _.
  cbn [map]. rewrite sum_cons.
  assert (Hrest : 0 <= Num.sum (map (fun q => exp (pt_L q)) rest)).
  { induction rest as [| q rest IH]; [apply Rle_refl |].
    cbn [map]. rewrite sum_cons. pose proof (exp_pos (pt_L q)). lra. }
  pose proof (exp_pos (pt_L p)). lra.
Qed.

(** The last loop of [integrate_remainder] in closed form. *)
Lemma fold_live_sums (logwidth : R) (live : list Point) :
  forall logZ H : R,
  let r := fold_live logwidth live logZ H in
  exp (fst r) = exp logZ + exp logwidth * likelihood_sum live /\
  exp (fst r) * (snd r + fst r) =
    exp logZ * (H + logZ) + exp logwidth * likelihood_moment live.
Proof.
  unfold likelihood_sum, likelihood_moment.
  induction live as [| p rest IH]; intros logZ H.
  - cbn. split; ring.
  - cbn [fold_live map]. rewrite !sum_cons.
    destruct (accumulate_masses logZ H logwidth (pt_L p)) as (Ez & _ & Eh).
    destruct (accumulate logZ H logwidth (pt_L p)) as [z1 h1].
    cbn [fst snd] in Ez, Eh.
    destruct (IH z1 h1) as [IHz IHh]. cbn zeta in IHz, IHh |- *.
    split.
    + rewrite IHz, Ez, exp_plus. ring.
    + rewrite IHh, Eh, exp_plus. ring.
Qed.

(** The values of [logZ] and [H] the last loop of [integrate_remainder] ends
    with do not depend on the order of the live points. *)
Theorem fold_live_order_independent (logwidth logZ H : R)
  (live live' : list Point) :
  Permutation live live' ->
  fold_live logwidth live logZ H = fold_live logwidth live' logZ H.
Proof.
  intros Hperm.
  destruct (fold_live_sums logwidth live logZ H) as [Ez Eh].
  destruct (fold_live_sums logwidth live' logZ H) as [Ez' Eh'].
  cbn zeta in *.
  assert (Es : likelihood_sum live = likelihood_sum live').
  { unfold likelihood_sum. apply sum_permutation, Permutation_map, Hperm. }
  assert (Em : likelihood_moment live = likelihood_moment live').
  { unfold likelihood_moment. apply sum_permutation, Permutation_map, Hperm. }
  destruct (fold_live logwidth live logZ H) as [z h].
  destruct (fold_live logwidth live' logZ H) as [z' h'].
  cbn [fst snd] in *.
  assert (Hz : z = z').
  { apply exp_inv. rewrite Ez, Ez', Es. reflexivity. }
  subst z'. f_equal.
  pose proof (exp_pos z) as Hpos.
  assert (Hh : exp z * (h + z) = exp z * (h' + z)).
  { rewrite Eh, Eh', Em. reflexivity. }
  apply Rmult_eq_reg_l in Hh; lra.
Qed.

Lemma fold_live_order_independent_witness :
  fold_live 0 [Toy.point 0; Toy.point 1] 0 0 =
  fold_live 0 [Toy.point 1; Toy.point 0] 0 0.
Proof.
  apply (fold_live_order_independent 0 0 0).
  apply perm_swap.
Defined.

(** ** Rebasing does not change the mid estimate *)

Lemma sum_rebased (live : list Point) (L0 : R) :
  Num.sum (rebased live L0) = exp (- L0) * likelihood_sum live.
Proof.
  unfold rebased, likelihood_sum.
  induction live as [| p rest IH]; cbn [map].
  - cbn. ring.
  - rewrite !sum_cons, IH.
    replace (pt_L p - L0) with (pt_L p + - L0) by ring.
    rewrite exp_plus. ring.
Qed.

Lemma ln_sum_rebased (live : list Point) (L0 : R) :
  live <> [] -> ln (Num.sum (rebased live L0)) + L0 = ln (likelihood_sum live).
Proof.
  intros Hne. rewrite sum_rebased.
  rewrite ln_mult by (try apply exp_pos; apply likelihood_sum_pos, Hne).
  rewrite ln_exp. ring.
Qed.

Section RebasingInvariance.
Context {S G : Type} {SamplerS : Sampler S} {RandomG : RandomSource G}.

(** Whatever base the likelihoods are rebased to, the returned [remainderZ]
    is [logwidth + log(sum_i exp(L_i))] and the returned [totalZ] satisfies
    [exp(totalZ) = exp(logZ) + exp(logwidth) * sum_i exp(L_i)]; in particular
    [totalZ = logaddexp(logZ, remainderZ)]. *)
Theorem integrate_remainder_mid_estimate (sampler : S) (g g' : G)
  (logwidth logVolremaining logZ H globalLmax : R) (m : Remainder) :
  integrate_remainder sampler g logwidth logVolremaining logZ H globalLmax
    = Some (g', m) ->
  remainderZ m = logwidth + ln (likelihood_sum (remainder sampler)) /\
  totalZ m = Num.logaddexp logZ (remainderZ m) /\
  exp (totalZ m) =
    exp logZ + exp logwidth * likelihood_sum (remainder sampler).
Proof.
  intros E.
  destruct (integrate_remainder_inv _ _ _ _ _ _ _ _ _ E) as [v [Ev ->]].
  destruct (integrate_remainder_locals_inv _ _ _ _ _ _ _ _ _ (mkPoint [] [] 0) Ev)
    as (Hne & _ & ELs & _ & _ & _ & Emid' & Emid & _).
  cbn [returned remainderZ totalZ].
  assert (Elog : v_logLmid v = ln (likelihood_sum (remainder sampler))).
  { rewrite Emid', ELs. apply ln_sum_rebased, Hne. }
  split; [rewrite Elog; reflexivity |].
  split; [exact Emid |].
  rewrite Emid, exp_logaddexp, Elog, exp_plus.
  rewrite exp_ln by (apply likelihood_sum_pos, Hne). reflexivity.
Qed.

(** The [logZ] the last loop of [integrate_remainder] arrives at, one live
    point at a time, is the [totalZ] the function returns. *)
Theorem integrate_remainder_loop_reaches_totalZ (sampler : S) (g g' : G)
  (logwidth logVolremaining logZ H globalLmax : R) (v : Locals) :
  integrate_remainder_locals sampler g logwidth logVolremaining logZ H
    globalLmax = Some (g', v) ->
  v_logZ v = totalZ (returned sampler logwidth v) /\
  v_logZ v = fst (fold_live logwidth (remainder sampler) logZ H).
Proof.
  intros Ev.
  destruct (integrate_remainder_locals_inv _ _ _ _ _ _ _ _ _ (mkPoint [] [] 0) Ev)
    as (Hne & _ & ELs & _ & _ & _ & Emid' & Emid & _ & _ & _ & Efold).
  assert (Ez : v_logZ v = fst (fold_live logwidth (remainder sampler) logZ H))
    by (rewrite <- Efold; reflexivity).
  split; [| exact Ez].
  cbn [returned totalZ]. apply exp_inv.
  destruct (fold_live_sums logwidth (remainder sampler) logZ H) as [Esum _].
  cbn zeta in Esum. rewrite Ez, Esum.
  rewrite Emid, exp_logaddexp, Emid', ELs, (ln_sum_rebased _ _ Hne), exp_plus.
  rewrite exp_ln by (apply likelihood_sum_pos, Hne). reflexivity.
Qed.

End RebasingInvariance.

Lemma integrate_remainder_mid_estimate_witness :
  let r := Toy.value (tt, mkRemainder 0 0 0 0 0)
             (integrate_remainder Toy.rising tt 0 0 0 0 1) in
  integrate_remainder Toy.rising tt 0 0 0 0 1 = Some r /\
  remainderZ (snd r) = 0 + ln (likelihood_sum (remainder Toy.rising)).
Proof.
  intros r.
  assert (E : integrate_remainder Toy.rising tt 0 0 0 0 1 = Some (tt, snd r))
    by reflexivity.
  split; [reflexivity |].
  exact (proj1 (integrate_remainder_mid_estimate Toy.rising tt tt 0 0 0 0 1
                  (snd r) E)).
Defined.

Lemma integrate_remainder_loop_reaches_totalZ_witness :
  let r := Toy.value (tt, mkLocals 0 [] [] 0 0 0 0 0 0 0 0 0 0)
             (integrate_remainder_locals Toy.rising tt 0 0 0 0 1) in
  integrate_remainder_locals Toy.rising tt 0 0 0 0 1 = Some r /\
  v_logZ (snd r) = totalZ (returned Toy.rising 0 (snd r)).
Proof.
  intros r.
  assert (E : integrate_remainder_locals Toy.rising tt 0 0 0 0 1
              = Some (tt, snd r)) by reflexivity.
  split; [reflexivity |].
  exact (proj1 (integrate_remainder_loop_reaches_totalZ Toy.rising tt tt
                  0 0 0 0 1 (snd r) E)).
Defined.

(** ** integrate_remainder: when it raises, and the order of its estimates *)

Lemma ln_le_mono (x y : R) : 0 < x -> x <= y -> ln x <= ln y.
Proof.
  intros Hx [Hlt | ->]; [left; apply ln_increasing; assumption | apply Rle_refl].
Qed.

Lemma exp_le_mono (x y : R) : x <= y -> exp x <= exp y.
Proof.
  intros [Hlt | ->]; [left; apply exp_increasing, Hlt | apply Rle_refl].
Qed.

Lemma last_map {A B : Type} (f : A -> B) (l : list A) (d : A) (e : B) :
  l <> [] -> last (map f l) e = f (last l d).
Proof.
  induction l as [| a t IH]; [congruence |]. intros _.
  destruct t as [| b t']; [reflexivity |].
  change (last (map f (b :: t')) e = f (last (b :: t') d)).
  apply IH. discriminate.
Qed.

Lemma hd_map {A B : Type} (f : A -> B) (l : list A) (d : A) (e : B) :
  l <> [] -> hd e (map f l) = f (hd d l).
Proof. destruct l; [congruence | reflexivity]. Qed.

Lemma Forall_removelast {A : Type} (P : A -> Prop) (l : list A) :
  Forall P l -> Forall P (removelast l).
Proof.
  induction 1 as [| a t Ha Ht IH]; [constructor |].
  destruct t as [| b t']; [constructor |].
  change (Forall P (a :: removelast (b :: t'))).
  constructor; assumption.
Qed.

Lemma sum_nonneg (l : list R) : Forall (fun x => 0 < x) l -> 0 <= Num.sum l.
Proof.
  induction 1 as [| a t Ha _ IH]; [apply Rle_refl |].
  rewrite sum_cons. lra.
Qed.

(** The two edge sums against the plain sum, on a list whose first entry is
    at most its last and whose last is at most the value [t] put in its
    place. *)
Lemma edge_sums_bracket_sum (l : list R) (t : R) :
  l <> [] -> hd 0 l <= last l 0 -> last l 0 <= t ->
  Num.sum (removelast l) + hd 0 l <= Num.sum l /\
  Num.sum l <=
    Num.sum (tl (removelast l ++ [t])) + last (removelast l ++ [t]) 0.
Proof.
  intros Hne Hhl Hlt. split.
  - pose proof (sum_removelast_last l 0 Hne). lra.
  - rewrite last_last.
    destruct l as [| a [| b r]]; [congruence | |].
    + cbn in *. lra.
    + change (removelast (a :: b :: r)) with (a :: removelast (b :: r)).
      change ((a :: removelast (b :: r)) ++ [t])
        with (a :: (removelast (b :: r) ++ [t])).
      cbn [tl]. rewrite sum_app, !sum_cons.
      assert (Hs : Num.sum (removelast (b :: r)) + last (b :: r) 0
                   = Num.sum (b :: r))
        by (apply sum_removelast_last; discriminate).
      rewrite sum_cons in Hs.
      change (last (a :: b :: r) 0) with (last (b :: r) 0) in *.
      cbn [hd] in Hhl. unfold Num.sum at 3. cbn [fold_right]. lra.
Qed.

Lemma np_min_le_np_max (l : list R) (hi lo : R) :
  Num.np_max l = Some hi -> Num.np_min l = Some lo -> lo <= hi.
Proof.
  destruct l as [| a t]; [discriminate |]. cbn.
  intros Ehi Elo. injection Ehi as <-. injection Elo as <-.
  assert (Hmax : forall l x, x <= fold_left Rmax l x).
  { induction l as [| b l IH]; intros x; [apply Rle_refl |].
    cbn. eapply Rle_trans; [apply (Rmax_l x b) | apply IH]. }
  assert (Hmin : forall l x, fold_left Rmin l x <= x).
  { induction l as [| b l IH]; intros x; [apply Rle_refl |].
    cbn. eapply Rle_trans; [apply IH | apply (Rmin_l x b)]. }
  eapply Rle_trans; [apply Hmin | apply Hmax].
Qed.

Section RemainderEdges.
Context {S G : Type} {SamplerS : Sampler S} {RandomG : RandomSource G}.

(** With a generator that meets numpy's contract, [integrate_remainder]
    raises exactly when the live set is empty (the [IndexError] of
    [remainder[-1]]). *)
Theorem integrate_remainder_raises_iff_empty (sampler : S) (g : G)
  (logwidth logVolremaining logZ H globalLmax : R) :
  randint_spec ->
  (integrate_remainder sampler g logwidth logVolremaining logZ H globalLmax
     = None <-> remainder sampler = []).
Proof.
  intros Hrand. split.
  - intros Enone.
    destruct (remainder sampler) as [| p rest] eqn:El; [reflexivity |].
    assert (Hne : remainder sampler <> []) by (rewrite El; discriminate).
    destruct (integrate_remainder_returns Hrand sampler g logwidth
                logVolremaining logZ H globalLmax Hne) as [g' [m E]].
    rewrite E in Enone. discriminate.
  - intros Eempty.
    unfold integrate_remainder, integrate_remainder_locals, rebase_base.
    rewrite Eempty, getitem_nil. reflexivity.
Qed.

(** On a live set ascending in likelihood and with [globalLmax] at least the
    best live likelihood, the lower sum is at most the plain sum and that at
    most the upper sum; so [logZlo <= logZmid <= logZup] and the returned
    [remainderZerr] is not negative. *)
Theorem integrate_remainder_bracket_order (sampler : S) (g g' : G)
  (logwidth logVolremaining logZ H globalLmax : R) (v : Locals) (d : Point) :
  ascending (remainder sampler) ->
  pt_L (last (remainder sampler) d) <= globalLmax ->
  integrate_remainder_locals sampler g logwidth logVolremaining logZ H
    globalLmax = Some (g', v) ->
  v_Lmin v <= Num.sum (v_Ls v) <= v_Lmax v /\
  v_logZlo v <= v_logZmid v <= v_logZup v /\
  0 <= remainderZerr (returned sampler logwidth v).
Proof.
  intros Hasc Hmax Ev.
  destruct (integrate_remainder_locals_inv _ _ _ _ _ _ _ _ _ d Ev)
    as (Hne & EL0 & ELs & ELsMax & ELmax & ELmin & Emid' & Emid & Eup & Elo
        & Eerr & _).
  assert (HLs : v_Ls v <> []) by (rewrite ELs; apply rebased_nonempty, Hne).
  assert (Hpos : Forall (fun x => 0 < x) (v_Ls v)).
  { rewrite ELs. unfold rebased. apply Forall_map, Forall_forall.
    intros p _. apply exp_pos. }
  assert (Hhd : hd 0 (v_Ls v) <= last (v_Ls v) 0).
  { rewrite ELs. unfold rebased.
    rewrite (hd_map _ _ d 0 Hne), (last_map _ _ d 0 Hne).
    apply exp_le_mono.
    assert (Hin : In (hd d (remainder sampler)) (remainder sampler)).
    { destruct (remainder sampler); [congruence | left; reflexivity]. }
    pose proof (ascending_le_last _ d _ Hasc Hin). lra. }
  assert (Hlast : last (v_Ls v) 0 <= exp (globalLmax - v_L0 v)).
  { rewrite ELs at 1. unfold rebased. rewrite (last_map _ _ d 0 Hne).
    apply exp_le_mono. rewrite EL0. lra. }
  destruct (edge_sums_bracket_sum (v_Ls v) _ HLs Hhd Hlast) as [Hlow Hhigh].
  rewrite <- ELsMax, <- ELmax in Hhigh. rewrite <- ELmin in Hlow.
  assert (Hmin_pos : 0 < v_Lmin v).
  { rewrite ELmin.
    pose proof (sum_nonneg _ (Forall_removelast _ _ Hpos)).
    assert (0 < hd 0 (v_Ls v)).
    { destruct (v_Ls v) as [| a t]; [congruence |].
      inversion Hpos; subst. assumption. }
    lra. }
  split; [split; assumption |].
  assert (Hlomid : v_logZlo v <= v_logZmid v).
  { rewrite Elo, Emid, Emid'. apply logaddexp_le_right.
    pose proof (ln_le_mono _ _ Hmin_pos Hlow). lra. }
  assert (Hmidup : v_logZmid v <= v_logZup v).
  { rewrite Eup, Emid, Emid'. apply logaddexp_le_right.
    assert (Hsum_pos : 0 < Num.sum (v_Ls v)) by lra.
    pose proof (ln_le_mono _ _ Hsum_pos Hhigh). lra. }
  split; [split; assumption |].
  cbn [returned remainderZerr]. rewrite Eerr. lra.
Qed.

(** The bootstrap spread is a maximum minus a minimum of the same values, so
    it is never negative; hence, where the statistical term is a number
    ([nlive_points] positive and the [H] of the last loop not negative), the
    bootstrapped total error is at least that term. *)
Theorem integrate_remainder_bootstrap_spread_nonneg (sampler : S) (g g' : G)
  (logwidth logVolremaining logZ H globalLmax : R) (v : Locals) :
  integrate_remainder_locals sampler g logwidth logVolremaining logZ H
    globalLmax = Some (g', v) ->
  0 <= v_bs_logZerr v /\
  ((0 < nlive_points sampler)%Z -> 0 <= v_H v ->
   0 <= Num.pow_half (v_H v / IZR (nlive_points sampler))
     <= totalZerr_bootstrapped (returned sampler logwidth v)).
Proof.
  unfold integrate_remainder_locals. intros E.
  destruct (rebase_base (remainder sampler)) as [L0 |];
    cbn [obind] in E; [| discriminate].
  destruct (rebased_max _ _ _) as [LsMax |]; cbn [obind] in E; [| discriminate].
  destruct (positive_edge LsMax) as [up |]; cbn [obind] in E; [| discriminate].
  destruct (negative_edge _) as [lo |]; cbn [obind] in E; [| discriminate].
  destruct (bootstrap _ _ _ _ _ _ _ _) as [[g1 bs] |]; cbn [obind] in E;
    [| discriminate].
  destruct (Num.np_max bs) as [hi |] eqn:Ehi; cbn [obind] in E; [| discriminate].
  destruct (Num.np_min bs) as [lw |] eqn:Elw; cbn [obind] in E; [| discriminate].
  destruct (fold_live _ _ _ _) as [z h].
  injection E as <- <-.
  pose proof (np_min_le_np_max bs hi lw Ehi Elw) as Hle.
  cbn [v_bs_logZerr returned totalZerr_bootstrapped v_H].
  split; [lra |]. intros _ _.
  pose proof (sqrt_pos (h / IZR (nlive_points sampler))) as Hs.
  unfold Num.pow_half. split; lra.
Qed.

End RemainderEdges.

Lemma integrate_remainder_raises_iff_empty_witness :
  integrate_remainder (Toy.mkState [] 1 0 0) tt 0 0 0 0 0 = None /\
  integrate_remainder Toy.single tt 0 0 0 0 0 <> None.
Proof.
  split.
  - apply (integrate_remainder_raises_iff_empty (Toy.mkState [] 1 0 0) tt
             0 0 0 0 0 toy_randint_spec).
    reflexivity.
  - intros Enone.
    apply (integrate_remainder_raises_iff_empty Toy.single tt 0 0 0 0 0
             toy_randint_spec) in Enone.
    discriminate Enone.
Defined.

Lemma integrate_remainder_bracket_order_witness :
  let r := Toy.value (tt, mkLocals 0 [] [] 0 0 0 0 0 0 0 0 0 0)
             (integrate_remainder_locals Toy.rising tt 0 0 0 0 1) in
  integrate_remainder_locals Toy.rising tt 0 0 0 0 1 = Some r /\
  v_logZlo (snd r) <= v_logZmid (snd r) <= v_logZup (snd r).
Proof.
  intros r.
  assert (E : integrate_remainder_locals Toy.rising tt 0 0 0 0 1
              = Some (tt, snd r)) by reflexivity.
  assert (Hasc : ascending (remainder Toy.rising)).
  { repeat constructor. cbn. lra. }
  assert (Hmax : pt_L (last (remainder Toy.rising) (Toy.point 0)) <= 1).
  { cbn. lra. }
  split; [reflexivity |].
  exact (proj1 (proj2 (integrate_remainder_bracket_order Toy.rising tt tt
                         0 0 0 0 1 (snd r) (Toy.point 0) Hasc Hmax E))).
Defined.

Lemma integrate_remainder_bootstrap_spread_nonneg_witness :
  let r := Toy.value (tt, mkLocals 0 [] [] 0 0 0 0 0 0 0 0 0 0)
             (integrate_remainder_locals Toy.single tt (-2) 0 0 0 2) in
  integrate_remainder_locals Toy.single tt (-2) 0 0 0 2 = Some r /\
  v_H (snd r) = 1 - ln 2 /\
  0 <= v_bs_logZerr (snd r) /\
  Num.pow_half ((1 - ln 2) / 1)
    <= totalZerr_bootstrapped (returned Toy.single (-2) (snd r)).
Proof.
  intros r.
  assert (E : integrate_remainder_locals Toy.single tt (-2) 0 0 0 2
              = Some (tt, snd r)) by reflexivity.
  assert (EH : v_H (snd r) = 1 - ln 2).
  { rewrite <- accumulate_unit_mass. reflexivity. }
  assert (Hpos : (0 < nlive_points Toy.single)%Z) by reflexivity.
  assert (HH : 0 <= v_H (snd r)).
  { rewrite EH. pose proof ln_2_lt_1. lra. }
  destruct (integrate_remainder_bootstrap_spread_nonneg Toy.single tt tt
              (-2) 0 0 0 2 (snd r) E) as [Hbs Hstat].
  split; [reflexivity |]. split; [exact EH |]. split; [exact Hbs |].
  destruct (Hstat Hpos HH) as [_ Hle]. rewrite EH in Hle. exact Hle.
Defined.

(** ** Runs of the main loop *)

Section Runs.
Context {S G : Type} {SamplerS : Sampler S} {RandomG : RandomSource G}.
Implicit Types (st : @LoopState S G) (cfg : Config) (m : Remainder).

Lemma draw_est st : s_est (draw st) = s_est st.
Proof.
  unfold draw. destruct (next (s_sampler st)) as [sampler' p].
  unfold accumulate. reflexivity.
Qed.

(** The counter and the remainder variables after one pass. *)
Lemma iteration_counter cfg st (o : Outcome) :
  iteration cfg st = Some o ->
  s_i (outcome_state o) = (s_i st + 1)%Z /\
  exists m, s_est (outcome_state o) = Some m.
Proof.
  intros E.
  destruct (iteration_inv cfg st o E) as (st2 & m & Er & Em & Ho).
  destruct (refresh_keeps _ _ Er) as (_ & Ei & _).
  destruct Ho as [[_ ->] | [why [_ ->]]]; cbn [outcome_state].
  - destruct (draw_fields st2) as (_ & _ & Di & _).
    rewrite Di, Ei, draw_est. split; [reflexivity | exists m; exact Em].
  - rewrite Ei. split; [reflexivity | exists m; exact Em].
Qed.

Lemma continues_snoc cfg (n : nat) st st1 st2 :
  continues cfg n st st1 ->
  iteration cfg st1 = Some (Continue st2) ->
  continues cfg (Datatypes.S n) st st2.
Proof.
  induction 1 as [st | n st sa sb E _ IH]; intros E2.
  - apply continues_step with st2; [exact E2 | apply continues_refl].
  - apply continues_step with sa; [exact E | apply IH, E2].
Qed.

Lemma continues_last cfg (n : nat) st st2 :
  continues cfg (Datatypes.S n) st st2 ->
  exists st1, continues cfg n st st1 /\
              iteration cfg st1 = Some (Continue st2).
Proof.
  revert st. induction n as [| n IH]; intros st Hrun.
  - inversion Hrun as [| n' sa sb sc E Hrest]; subst.
    inversion Hrest; subst.
    exists st. split; [apply continues_refl | exact E].
  - inversion Hrun as [| n' sa sb sc E Hrest]; subst.
    destruct (IH _ Hrest) as [st1 [Hrun1 E1]].
    exists st1. split; [| exact E1].
    apply continues_step with sb; assumption.
Qed.

(** After [n] passes that stay in the loop the counter has advanced by [n],
    one weight record was appended per pass, the live-set size is the one
    of the beginning, and the remainder variables are bound. *)
Lemma continues_counters cfg (n : nat) st st' :
  nlive_points_fixed ->
  continues cfg n st st' ->
  s_i st' = (s_i st + Z.of_nat n)%Z /\
  length (s_weights st') = (length (s_weights st) + n)%nat /\
  nlive_points (s_sampler st') = nlive_points (s_sampler st) /\
  (0 < n -> exists m, s_est st' = Some m)%nat.
Proof.
  intros Hfixed. induction 1 as [st | n st st1 st2 E Hrest IH].
  - repeat split; try lia.
  - destruct IH as (IHi & IHw & IHn & IHe).
    destruct (iteration_counter cfg st _ E) as [Ei Ee].
    destruct (iteration_effect cfg st _ E) as (_ & _ & Ew & [Hc | Hb]);
      cbn [outcome_state] in *.
    2: { destruct Hb as ([why Hwhy] & _). discriminate Hwhy. }
    destruct Hc as (_ & Es & _).
    split; [rewrite IHi, Ei; lia |].
    split; [rewrite IHw, Ew, length_app; cbn; lia |].
    split; [rewrite IHn, Es; apply Hfixed |].
    intros _. destruct n as [| n'].
    + inversion Hrest; subst. exact Ee.
    + apply IHe. lia.
Qed.

Lemma start_fields (sampler : S) (g : G) :
  s_sampler (start sampler g) = fst (next sampler) /\
  s_i (start sampler g) = 0%Z /\
  s_logVolremaining (start sampler g) = 0 /\
  s_weights (start sampler g) = [] /\
  s_est (start sampler g) = None /\
  s_logZ (start sampler g) = shell sampler + pt_L (snd (next sampler)) /\
  s_H (start sampler g) = - shell sampler.
Proof.
  unfold start. destruct (next sampler) as [sampler' p]. cbn.
  repeat split. ring.
Qed.

(** A run that returned went through some passes that stayed in the loop,
    one that left it, and the code after the loop. *)
Lemma loop_returned cfg (fuel : nat) st (out : Output) (why : Reason) :
  loop fuel cfg st = Returned out why ->
  exists (n : nat) st1 st2,
    (n < fuel)%nat /\ continues cfg n st st1 /\
    iteration cfg st1 = Some (Break why st2) /\
    finish cfg st2 = Some out.
Proof.
  revert st. induction fuel as [| k IH]; intros st E; [discriminate |].
  cbn [loop] in E.
  destruct (iteration cfg st) as [[st' | why' st'] |] eqn:Eit;
    [| | discriminate].
  - destruct (IH st' E) as (n & st1 & st2 & Hn & Hrun & Ebreak & Efin).
    exists (Datatypes.S n), st1, st2.
    split; [lia |]. split; [| split; assumption].
    apply continues_step with st'; assumption.
  - destruct (finish cfg st') as [out' |] eqn:Efin; [| discriminate].
    injection E as <- <-.
    exists 0%nat, st, st'.
    split; [lia |]. split; [apply continues_refl |]. split; assumption.
Qed.

Lemma finish_fields cfg st (out : Output) :
  finish cfg st = Some out ->
  out_niterations out = s_i st /\
  out_information out = s_H st /\
  out_samples out = samples (s_sampler st) /\
  out_weights out =
    s_weights st ++
      map (fun p => weight_of p (s_logwidth st)) (remainder (s_sampler st)).
Proof.
  unfold finish. intros E.
  destruct (integrate_remainder _ _ _ _ _ _ _) as [[g' m] |];
    cbn [obind] in E; [| discriminate].
  injection E as <-. cbn. repeat split.
Qed.

(** A run of [nested_integrator] that returns has made more than
    [nlive_points] iterations, at most as many as it had fuel for, and its
    [weights] hold one record per iteration followed by one per live point. *)
Theorem nested_integrator_iterations_and_weights cfg (fuel : nat)
  (sampler : S) (g : G) (out : Output) (why : Reason) :
  nlive_points_fixed ->
  nested_integrator fuel sampler g cfg = Returned out why ->
  (nlive_points sampler < out_niterations out)%Z /\
  (out_niterations out <= Z.of_nat fuel)%Z /\
  exists st2,
    finish cfg st2 = Some out /\
    length (out_weights out) =
      (Z.to_nat (out_niterations out) + length (remainder (s_sampler st2)))%nat.
Proof.
  intros Hfixed E. unfold nested_integrator in E.
  destruct (loop_returned cfg fuel _ out why E)
    as (n & st1 & st2 & Hn & Hrun & Ebreak & Efin).
  destruct (continues_counters cfg n _ st1 Hfixed Hrun) as (Ei & Ew & En & _).
  destruct (start_fields sampler g) as (Es0 & Ei0 & _ & Ew0 & _).
  rewrite Ei0 in Ei. rewrite Ew0 in Ew. rewrite Es0, Hfixed in En.
  destruct (iteration_counter cfg st1 _ Ebreak) as [Ei2 _].
  destruct (iteration_effect cfg st1 _ Ebreak) as (_ & _ & Ew2 & [Hc | Hb]);
    cbn [outcome_state] in *.
  1: { destruct Hc as (Hc & _). discriminate Hc. }
  destruct Hb as (_ & Es2 & _).
  destruct (iteration_inv cfg st1 _ Ebreak) as (st2' & m & Er & Em & Ho).
  destruct Ho as [[_ Ho] | [why' [Hrule Ho]]]; [discriminate Ho |].
  injection Ho as <- <-.
  destruct (finish_fields cfg st2 out Efin) as (Eni & _ & _ & Eow).
  assert (Hlate : (nlive_points (s_sampler st2) < s_i st2)%Z).
  { destruct (Z.ltb_spec (nlive_points (s_sampler st2)) (s_i st2)) as [Hlt | Hge];
      [exact Hlt |].
    rewrite (stop_rule_early cfg st2 m _ Hge) in Hrule. discriminate. }
  rewrite Es2, En in Hlate.
  split; [rewrite Eni; exact Hlate |].
  split; [rewrite Eni, Ei2, Ei; lia |].
  exists st2. split; [exact Efin |].
  rewrite Eow, length_app, length_map, Ew2, length_app, Ew, Eni, Ei2, Ei.
  cbn [length]. lia.
Qed.

End Runs.

Lemma toy_single_run_returns :
  exists out : Output,
    nested_integrator 2 Toy.single tt ToyRun.no_budget
      = Returned out MaxSamplesReached.
Proof.
  assert (Hne : remainder (s_sampler (advance ToyRun.single1)) <> []).
  { assert (El : remainder (s_sampler (advance ToyRun.single1))
                 = [Toy.point 2]) by reflexivity.
    rewrite El. discriminate. }
  destruct (finish_returns ToyRun.no_budget (advance ToyRun.single1)
              toy_randint_spec Hne) as [g' [mf [_ Efin]]].
  assert (E1 : iteration ToyRun.no_budget (start Toy.single tt)
               = Some (Continue ToyRun.single1)) by reflexivity.
  assert (E2 : iteration ToyRun.no_budget ToyRun.single1
               = Some (Break MaxSamplesReached (advance ToyRun.single1)))
    by reflexivity.
  eexists. unfold nested_integrator.
  change 2%nat with (Datatypes.S (Datatypes.S 0)).
  cbn [loop]. rewrite E1, E2, Efin. reflexivity.
Qed.

Lemma nested_integrator_iterations_and_weights_witness :
  exists out : Output,
    nested_integrator 2 Toy.single tt ToyRun.no_budget
      = Returned out MaxSamplesReached /\
    (nlive_points Toy.single < out_niterations out)%Z /\
    (out_niterations out <= 2)%Z.
Proof.
  destruct toy_single_run_returns as [out E].
  exists out. split; [exact E |].
  destruct (nested_integrator_iterations_and_weights ToyRun.no_budget 2
              Toy.single tt out MaxSamplesReached toy_nlive_points_fixed E)
    as (Hlo & Hhi & _).
  split; [exact Hlo | exact Hhi].
Defined.

(** ** The prior volume along a run *)

Lemma recorded_volume_app (ws : list WeightRecord) (w : WeightRecord) :
  recorded_volume (ws ++ [w]) = recorded_volume ws + exp (w_logwidth w).
Proof.
  unfold recorded_volume. rewrite map_app, sum_app.
  change (map (fun w0 => exp (w_logwidth w0)) [w]) with [exp (w_logwidth w)].
  replace (Num.sum [exp (w_logwidth w)]) with (exp (w_logwidth w));
    [reflexivity |].
  unfold Num.sum. cbn [fold_right]. ring.
Qed.

Section Volume.
Context {S G : Type} {SamplerS : Sampler S} {RandomG : RandomSource G}.
Implicit Types (st : @LoopState S G) (cfg : Config).

Lemma shrink_below_one (sampler : S) :
  (0 < nlive_points sampler)%Z ->
  exp (- 1 / IZR (nlive_points sampler)) < 1.
Proof.
  intros Hpos. rewrite <- exp_0. apply exp_increasing.
  assert (HN : 0 < IZR (nlive_points sampler)) by (apply (IZR_lt 0), Hpos).
  pose proof (Rinv_0_lt_compat _ HN). unfold Rdiv. lra.
Qed.

Lemma exp_shell (sampler : S) :
  (0 < nlive_points sampler)%Z ->
  exp (shell sampler) = 1 - exp (- 1 / IZR (nlive_points sampler)).
Proof.
  intros Hpos. unfold shell. apply exp_ln.
  pose proof (shrink_below_one sampler Hpos). lra.
Qed.

(** One pass moves the volume of one shell from the remaining volume to the
    weight records. *)
Lemma iteration_keeps_partition cfg st (o : Outcome) :
  (0 < nlive_points (s_sampler st))%Z ->
  iteration cfg st = Some o ->
  recorded_volume (s_weights (outcome_state o))
    + exp (s_logVolremaining (outcome_state o))
  = recorded_volume (s_weights st) + exp (s_logVolremaining st).
Proof.
  intros Hpos E.
  destruct (iteration_effect cfg st o E) as (Ev & _ & Ew & _).
  rewrite Ev, Ew, recorded_volume_app. cbn [weight_of w_logwidth].
  rewrite exp_plus, (exp_shell _ Hpos).
  replace (s_logVolremaining st - 1 / IZR (nlive_points (s_sampler st)))
    with (s_logVolremaining st + - 1 / IZR (nlive_points (s_sampler st)))
    by (unfold Rdiv; ring).
  rewrite exp_plus. ring.
Qed.

(** Through every pass of a run the widths recorded so far and the remaining
    volume make up the whole prior: the sum of [exp(logwidth)] over the
    weight records plus [exp(logVolremaining)] is 1, and after [n] passes the
    records account for [1 - exp(-n / nlive_points)] of it. *)
Theorem prior_volume_partition cfg (n : nat) (sampler : S) (g : G) st
  (o : Outcome) :
  nlive_points_fixed ->
  (0 < nlive_points sampler)%Z ->
  continues cfg n (start sampler g) st ->
  iteration cfg st = Some o ->
  recorded_volume (s_weights st) + exp (s_logVolremaining st) = 1 /\
  recorded_volume (s_weights (outcome_state o))
    + exp (s_logVolremaining (outcome_state o)) = 1 /\
  recorded_volume (s_weights st)
    = 1 - exp (- INR n / IZR (nlive_points sampler)).
Proof.
  intros Hfixed Hpos Hrun E.
  destruct (start_fields sampler g) as (Es0 & _ & Ev0 & Ew0 & _).
  assert (Hinv : forall k a b,
            continues cfg k a b ->
            (0 < nlive_points (s_sampler a))%Z ->
            recorded_volume (s_weights b) + exp (s_logVolremaining b)
            = recorded_volume (s_weights a) + exp (s_logVolremaining a)).
  { induction 1 as [a | k a a1 b Ea Hrest IH]; intros Ha; [reflexivity |].
    rewrite IH.
    - apply (iteration_keeps_partition cfg a _ Ha Ea).
    - destruct (iteration_effect cfg a _ Ea) as (_ & _ & _ & [Hc | Hb]);
        cbn [outcome_state] in *.
      + destruct Hc as (_ & Es & _). rewrite Es, Hfixed. exact Ha.
      + destruct Hb as ([why Hwhy] & _). discriminate Hwhy. }
  assert (Hpos0 : (0 < nlive_points (s_sampler (start sampler g)))%Z).
  { rewrite Es0, Hfixed. exact Hpos. }
  assert (Hst : recorded_volume (s_weights st) + exp (s_logVolremaining st) = 1).
  { rewrite (Hinv n _ _ Hrun Hpos0), Ew0, Ev0, exp_0.
    unfold recorded_volume. cbn. ring. }
  destruct (continues_effect cfg n _ st Hfixed Hrun) as (En & Ev & _).
  rewrite Es0, Hfixed in En. rewrite Ev0, Es0, Hfixed in Ev.
  split; [exact Hst |]. split.
  - assert (Hpos_st : (0 < nlive_points (s_sampler st))%Z)
      by (rewrite En; exact Hpos).
    rewrite (iteration_keeps_partition cfg st o Hpos_st E). exact Hst.
  - replace (- INR n / IZR (nlive_points sampler))
      with (s_logVolremaining st) by (rewrite Ev; unfold Rdiv; ring).
    lra.
Qed.

(** Before the loop the information is [-log(1 - exp(-1 / nlive_points))],
    whatever the first point is; it is positive, and so is the statistical
    error of the first pass. *)
Theorem start_information_positive (sampler : S) (g : G) :
  nlive_points_fixed ->
  (0 < nlive_points sampler)%Z ->
  s_H (start sampler g) = - ln (1 - exp (- 1 / IZR (nlive_points sampler))) /\
  0 < s_H (start sampler g) /\
  0 < stat_error (advance (start sampler g)).
Proof.
  intros Hfixed Hpos.
  destruct (start_fields sampler g) as (Es0 & _ & _ & _ & _ & _ & EH).
  assert (HH : 0 < s_H (start sampler g)).
  { rewrite EH. unfold shell.
    pose proof (shrink_below_one sampler Hpos) as Hlt.
    pose proof (exp_pos (- 1 / IZR (nlive_points sampler))) as Hgt.
    assert (Hln : ln (1 - exp (- 1 / IZR (nlive_points sampler))) < ln 1).
    { apply ln_increasing; lra. }
    rewrite ln_1 in Hln. lra. }
  split; [exact EH |]. split; [exact HH |].
  unfold stat_error, Num.pow_half. apply sqrt_lt_R0.
  change (s_H (advance (start sampler g))) with (s_H (start sampler g)).
  change (s_sampler (advance (start sampler g)))
    with (s_sampler (start sampler g)).
  rewrite Es0, Hfixed.
  assert (HN : 0 < IZR (nlive_points sampler)) by (apply (IZR_lt 0), Hpos).
  apply Rdiv_lt_0_compat; assumption.
Qed.

End Volume.

Lemma prior_volume_partition_witness :
  recorded_volume (s_weights ToyRun.single1)
    + exp (s_logVolremaining ToyRun.single1) = 1.
Proof.
  assert (Hpos : (0 < nlive_points Toy.single)%Z) by reflexivity.
  assert (Hrun : continues ToyRun.no_budget 1 (start Toy.single tt)
                   ToyRun.single1).
  { apply continues_step with ToyRun.single1; [reflexivity |].
    apply continues_refl. }
  assert (E : iteration ToyRun.no_budget ToyRun.single1
              = Some (Break MaxSamplesReached (advance ToyRun.single1)))
    by reflexivity.
  exact (proj1 (prior_volume_partition ToyRun.no_budget 1 Toy.single tt
                  ToyRun.single1 _ toy_nlive_points_fixed Hpos Hrun E)).
Defined.

Lemma start_information_positive_witness :
  0 < s_H (start Toy.single tt).
Proof.
  assert (Hpos : (0 < nlive_points Toy.single)%Z) by reflexivity.
  exact (proj1 (proj2 (start_information_positive Toy.single tt
                         toy_nlive_points_fixed Hpos))).
Defined.

(** ** Raising, stopping and terminating *)

Section Progress.
Context {S G : Type} {SamplerS : Sampler S} {RandomG : RandomSource G}.
Implicit Types (st : @LoopState S G) (cfg : Config) (m : Remainder).

Lemma integrate_remainder_empty (sampler : S) (g : G)
  (logwidth logVolremaining logZ H globalLmax : R) :
  remainder sampler = [] ->
  integrate_remainder sampler g logwidth logVolremaining logZ H globalLmax
    = None.
Proof.
  intros Eempty.
  unfold integrate_remainder, integrate_remainder_locals, rebase_base.
  rewrite Eempty, getitem_nil. reflexivity.
Qed.

Lemma continues_est cfg (n : nat) st st' :
  continues cfg n st st' -> (0 < n)%nat -> exists m, s_est st' = Some m.
Proof.
  intros Hrun Hn. destruct n as [| k]; [lia |].
  destruct (continues_last cfg k st st' Hrun) as [st1 [_ E]].
  exact (proj2 (iteration_counter cfg st1 _ E)).
Qed.

Lemma continues_index cfg (n : nat) st st' :
  continues cfg n st st' -> s_i st' = (s_i st + Z.of_nat n)%Z.
Proof.
  induction 1 as [st | n st st1 st2 E _ IH]; [lia |].
  pose proof (proj1 (iteration_counter cfg st _ E)) as Ei.
  cbn [outcome_state] in Ei. rewrite IH, Ei. lia.
Qed.

Lemma refresh_due_first st : s_i st = 0%Z -> refresh_due (advance st) = true.
Proof.
  intros Ei. unfold refresh_due. cbn [advance s_i]. rewrite Ei. reflexivity.
Qed.

Lemma iteration_raises_iff cfg st :
  randint_spec -> loop_ready st ->
  (iteration cfg st = None <->
   refresh_due (advance st) = true /\ remainder (s_sampler st) = []).
Proof.
  intros Hrand Hready. unfold iteration, refresh.
  destruct (refresh_due (advance st)) eqn:Edue.
  - change (s_sampler (advance st)) with (s_sampler st).
    destruct (remainder (s_sampler st)) as [| p rest] eqn:El.
    + rewrite integrate_remainder_empty by exact El. cbn [obind]. tauto.
    + assert (Hne : remainder (s_sampler st) <> [])
        by (rewrite El; discriminate).
      destruct (integrate_remainder_returns Hrand (s_sampler st)
                  (s_rng (advance st)) (s_logwidth (advance st))
                  (s_logVolremaining (advance st)) (s_logZ (advance st))
                  (s_H (advance st)) (Lmax (s_sampler st)) Hne)
        as [g' [m E]].
      rewrite E. cbn [obind s_est].
      destruct (stop_rule cfg _ m _); split;
        try discriminate; intros [_ Habs]; discriminate Habs.
  - cbn [obind]. change (s_est (advance st)) with (s_est st).
    destruct Hready as [Ei | [m Em]].
    + rewrite (refresh_due_first st Ei) in Edue. discriminate.
    + rewrite Em. cbn [obind].
      destruct (stop_rule cfg _ m _); split;
        try discriminate; intros [Habs _]; discriminate Habs.
Qed.

(** In a run from the start state, of a sampler whose [nlive_points] is
    positive and fixed (so that no division raises), a pass raises only when
    a call of [integrate_remainder] is due and the live set is empty: the
    remainder variables are never read unbound. *)
Theorem pass_raises_only_on_empty_live_set cfg (n : nat) (sampler : S) (g : G)
  st :
  randint_spec ->
  nlive_points_fixed ->
  (0 < nlive_points sampler)%Z ->
  continues cfg n (start sampler g) st ->
  (0 < nlive_points (s_sampler st))%Z /\
  (iteration cfg st = None <->
   refresh_due (advance st) = true /\ remainder (s_sampler st) = []).
Proof.
  intros Hrand Hfixed Hpos Hrun.
  split.
  { destruct (continues_counters cfg n _ st Hfixed Hrun) as (_ & _ & En & _).
    rewrite En, (proj1 (start_fields sampler g)), Hfixed. exact Hpos. }
  apply iteration_raises_iff; [exact Hrand |].
  destruct n as [| k].
  - inversion Hrun; subst. left.
    exact (proj1 (proj2 (start_fields sampler g))).
  - right. apply (continues_est cfg _ _ _ Hrun). lia.
Qed.

(** A tolerance stop can only happen in an iteration numbered 1 modulo 10 or
    in the first one past [nlive_points]: in any other the values compared
    are those of the previous check, at which the rule did not fire. *)
Theorem tolerance_stop_iteration cfg (n : nat) (sampler : S) (g : G) st st2 :
  nlive_points_fixed ->
  continues cfg n (start sampler g) st ->
  iteration cfg st = Some (Break ToleranceReached st2) ->
  (s_i st2 mod 10 = 1 \/ s_i st2 = nlive_points sampler + 1)%Z.
Proof.
  intros Hfixed Hrun E.
  destruct (iteration_inv cfg st _ E) as (st2' & m & Er & Em & Ho).
  destruct Ho as [[_ Ho] | [why [Hrule Ho]]]; [discriminate Ho |].
  injection Ho as <- <-.
  destruct (refresh_keeps _ _ Er) as (Es & Ei & _).
  cbn [advance s_sampler s_i] in Es, Ei.
  destruct (continues_counters cfg n _ st Hfixed Hrun) as (Ein & _ & En & _).
  destruct (start_fields sampler g) as (Es0 & Ei0 & _ & _ & Ee0 & _).
  rewrite Ei0 in Ein. rewrite Es0, Hfixed in En.
  assert (Hlate : (nlive_points (s_sampler st2) < s_i st2)%Z).
  { destruct (Z.ltb_spec (nlive_points (s_sampler st2)) (s_i st2)) as [Hlt | Hge];
      [exact Hlt |].
    rewrite (stop_rule_early cfg st2 m _ Hge) in Hrule. discriminate. }
  rewrite (stop_rule_late cfg st2 m _ Hlate) in Hrule.
  destruct (budget_exhausted cfg st2); [discriminate |].
  destruct (tolerance_reached cfg m) eqn:Etol;
    [| destruct (no_improvement m _); discriminate].
  destruct (refresh_est _ _ _ Er Em) as [[Edue _] | [Edue Eold]].
  - left. unfold refresh_due in Edue. cbn [advance s_i s_sampler] in Edue.
    rewrite <- Ei in Edue.
    apply orb_true_iff in Edue. destruct Edue as [E1 | E10].
    + apply Z.eqb_eq in E1. rewrite E1. reflexivity.
    + apply andb_true_iff in E10. destruct E10 as [_ E10].
      apply Z.eqb_eq in E10. exact E10.
  - cbn [advance s_est] in Eold.
    destruct n as [| k].
    { inversion Hrun; subst. rewrite Ee0 in Eold. discriminate. }
    destruct (continues_last cfg k _ st Hrun) as [st1 [Hrun1 E1]].
    destruct (iteration_inv cfg st1 _ E1) as (st1' & m1 & Er1 & Em1 & Ho1).
    destruct Ho1 as [[Hrule1 Ho1] | [why1 [_ Ho1]]]; [| discriminate Ho1].
    injection Ho1 as ->.
    rewrite draw_est, Em1 in Eold. injection Eold as ->.
    destruct (refresh_keeps _ _ Er1) as (Es1 & Ei1 & _).
    cbn [advance s_sampler s_i] in Es1, Ei1.
    destruct (continues_counters cfg k _ st1 Hfixed Hrun1) as (Eik & _ & Enk & _).
    rewrite Ei0 in Eik. rewrite Es0, Hfixed in Enk.
    destruct (Z.ltb_spec (nlive_points (s_sampler st1')) (s_i st1'))
      as [Hlt1 | Hge1].
    + rewrite (stop_rule_late cfg st1' m _ Hlt1), Etol in Hrule1.
      destruct (budget_exhausted cfg st1'); discriminate.
    + right. rewrite Es1, Enk, Ei1, Eik in Hge1.
      rewrite Es, En, Ei, Ein in Hlate. rewrite Ei, Ein. lia.
Qed.

(** With [max_samples] set, a sampler whose [nlive_points] is positive and
    fixed, whose draw count grows with every point and whose live set is
    never empty makes [nested_integrator] return within
    [max(nlive_points, max_samples - ndraws) + 1] iterations. *)
Theorem nested_integrator_terminates_within_budget cfg (sampler : S) (g : G)
  (limit : Z) (live_ok : S -> Prop) :
  randint_spec ->
  nlive_points_fixed ->
  (0 < nlive_points sampler)%Z ->
  (forall s, (ndraws s + 1 <= ndraws (fst (next s)))%Z) ->
  (forall s, live_ok s -> live_ok (fst (next s)) /\ remainder s <> []) ->
  live_ok sampler ->
  max_samples cfg = Some limit ->
  exists (out : Output) (why : Reason),
    nested_integrator
      (Datatypes.S
         (Z.to_nat (Z.max (nlive_points sampler) (limit - ndraws sampler))))
      sampler g cfg = Returned out why.
Proof.
  intros Hrand Hfixed Hpos Hgrow Hlive Hok Hlimit.
  assert (Hloop : forall (k : nat) st,
            loop_ready st -> live_ok (s_sampler st) ->
            (Z.max (nlive_points (s_sampler st) - s_i st)
                   (limit - ndraws (s_sampler st) + 1) <= Z.of_nat k)%Z ->
            exists out why, loop (Datatypes.S k) cfg st = Returned out why).
  { induction k as [| k IH]; intros st Hready Hst Hmeasure.
    all: destruct (Hlive _ Hst) as [Hnext Hne].
    all: destruct (iteration cfg st) as [o |] eqn:E;
      [| apply (iteration_raises_iff cfg st Hrand Hready) in E;
         destruct E as [_ E]; congruence].
    all: destruct (iteration_inv cfg st o E) as (st2 & m & Er & Em & Ho).
    all: destruct (refresh_keeps _ _ Er) as (Es & Ei & _).
    all: cbn [advance s_sampler s_i] in Es, Ei.
    all: destruct Ho as [[Hrule ->] | [why [_ ->]]].
    - exfalso.
      assert (Hlate : (nlive_points (s_sampler st2) < s_i st2)%Z)
        by (rewrite Es, Ei; lia).
      rewrite (stop_rule_late cfg st2 m _ Hlate) in Hrule.
      unfold budget_exhausted in Hrule. rewrite Hlimit, Es in Hrule.
      replace (limit <? ndraws (s_sampler st))%Z with true in Hrule
        by (symmetry; apply Z.ltb_lt; lia).
      discriminate.
    - assert (Hne2 : remainder (s_sampler st2) <> []) by (rewrite Es; exact Hne).
      destruct (finish_returns cfg st2 Hrand Hne2) as [g' [mf [_ Efin]]].
      eexists. exists why. cbn [loop]. rewrite E, Efin. reflexivity.
    - destruct (draw_fields st2) as (Ds & _ & Di & _).
      destruct (IH (draw st2)) as [out [why Eloop]].
      + right. exists m. rewrite draw_est. exact Em.
      + rewrite Ds, Es. exact Hnext.
      + rewrite Ds, Di, Es, Ei, Hfixed.
        pose proof (Hgrow (s_sampler st)).
        assert (Hmust : (1 <= Z.max (nlive_points (s_sampler st) - s_i st)
                                  (limit - ndraws (s_sampler st) + 1))%Z).
        { destruct (Z.le_gt_cases 1
                      (Z.max (nlive_points (s_sampler st) - s_i st)
                             (limit - ndraws (s_sampler st) + 1)))
            as [Hle | Hgt]; [exact Hle | exfalso].
          assert (Hlate : (nlive_points (s_sampler st2) < s_i st2)%Z)
            by (rewrite Es, Ei; lia).
          rewrite (stop_rule_late cfg st2 m _ Hlate) in Hrule.
          unfold budget_exhausted in Hrule. rewrite Hlimit, Es in Hrule.
          replace (limit <? ndraws (s_sampler st))%Z with true in Hrule
            by (symmetry; apply Z.ltb_lt; lia).
          discriminate. }
        lia.
      + exists out, why.
        change (loop (Datatypes.S (Datatypes.S k)) cfg st)
          with (match iteration cfg st with
                | None => Raised
                | Some (Continue st') => loop (Datatypes.S k) cfg st'
                | Some (Break why0 st') =>
                    match finish cfg st' with
                    | Some out0 => Returned out0 why0
                    | None => Raised
                    end
                end).
        rewrite E. exact Eloop.
    - assert (Hne2 : remainder (s_sampler st2) <> []) by (rewrite Es; exact Hne).
      destruct (finish_returns cfg st2 Hrand Hne2) as [g' [mf [_ Efin]]].
      eexists. exists why.
      change (loop (Datatypes.S (Datatypes.S k)) cfg st)
        with (match iteration cfg st with
              | None => Raised
              | Some (Continue st') => loop (Datatypes.S k) cfg st'
              | Some (Break why0 st') =>
                  match finish cfg st' with
                  | Some out0 => Returned out0 why0
                  | None => Raised
                  end
              end).
      rewrite E, Efin. reflexivity. }
  unfold nested_integrator. apply Hloop.
  - left. exact (proj1 (proj2 (start_fields sampler g))).
  - rewrite (proj1 (start_fields sampler g)). apply Hlive, Hok.
  - destruct (start_fields sampler g) as (Es0 & Ei0 & _).
    rewrite Es0, Ei0, Hfixed. pose proof (Hgrow sampler). lia.
Qed.

End Progress.

Lemma pass_raises_only_on_empty_live_set_witness :
  iteration ToyRun.no_budget (start Toy.single tt) <> None.
Proof.
  intros Enone.
  assert (Hpos : (0 < nlive_points Toy.single)%Z) by reflexivity.
  apply (pass_raises_only_on_empty_live_set ToyRun.no_budget 0 Toy.single tt
           (start Toy.single tt) toy_randint_spec toy_nlive_points_fixed Hpos
           (continues_refl ToyRun.no_budget (start Toy.single tt))) in Enone.
  destruct Enone as [_ Hempty].
  assert (El : remainder (s_sampler (start Toy.single tt)) = [Toy.point 2])
    by reflexivity.
  rewrite El in Hempty. discriminate Hempty.
Defined.

Lemma nested_integrator_terminates_within_budget_witness :
  exists (out : Output) (why : Reason),
    nested_integrator
      (Datatypes.S
         (Z.to_nat (Z.max (nlive_points Toy.single) (0 - ndraws Toy.single))))
      Toy.single tt ToyRun.no_budget = Returned out why.
Proof.
  apply (nested_integrator_terminates_within_budget ToyRun.no_budget
           Toy.single tt 0%Z (fun s => Toy.t_live s <> [])).
  - exact toy_randint_spec.
  - exact toy_nlive_points_fixed.
  - reflexivity.
  - intros s. cbn. lia.
  - intros s Hs. split; exact Hs.
  - discriminate.
  - reflexivity.
Defined.

(** ** What the returned record reports *)

Section Report.
Context {S G : Type} {SamplerS : Sampler S} {RandomG : RandomSource G}.
Implicit Types (st : @LoopState S G) (cfg : Config).

Lemma finish_inv cfg st (out : Output) :
  finish cfg st = Some out ->
  exists g' mf,
    integrate_remainder (s_sampler st) (s_rng st) (s_logwidth st)
      (s_logVolremaining st) (s_logZ st) (s_H st) (Lmax (s_sampler st))
      = Some (g', mf) /\
    out_logZ out = totalZ mf /\
    out_logZerr out =
      (if need_robust_remainder_error cfg
       then Rmax (totalZerr mf) (totalZerr_bootstrapped mf)
       else totalZerr mf).
Proof.
  unfold finish. intros E.
  destruct (integrate_remainder _ _ _ _ _ _ _) as [[g' mf] |];
    cbn [obind] in E; [| discriminate].
  injection E as <-. exists g', mf. repeat split.
Qed.

Lemma continues_logZ cfg (n : nat) st st' :
  continues cfg n st st' -> s_logZ st <= s_logZ st'.
Proof.
  induction 1 as [st | n st st1 st2 E _ IH]; [apply Rle_refl |].
  pose proof (iteration_logZ cfg st _ E) as Hz. cbn [outcome_state] in Hz.
  lra.
Qed.

(** In a run on numbers that leaves the loop, the [logZ] returned is the
    evidence the loop accumulated plus the final shell width times the sum
    of the live likelihoods, so it lies strictly above the loop's [logZ],
    which never fell below the initial one; [information] is the loop's
    [H].  Where the [H] the final call ends with is not negative, so that
    its total errors are numbers, the returned [logZerr] is at least the
    final [remainderZerr] and [totalZerr], and with
    [need_robust_remainder_error] at least the bootstrapped one as well. *)
Theorem nested_integrator_reports_live_mass cfg (n fuel : nat) (sampler : S)
  (g : G) st st2 (why : Reason) :
  randint_spec ->
  (0 < nlive_points sampler)%Z ->
  runs cfg n (start sampler g) st ->
  pass_defined cfg st ->
  remainder (s_sampler st2) <> [] ->
  iteration cfg st = Some (Break why st2) ->
  exists (out : Output) (g' : G) (mf : Remainder),
    nested_integrator (n + Datatypes.S fuel) sampler g cfg = Returned out why /\
    finish cfg st2 = Some out /\
    integrate_remainder (s_sampler st2) (s_rng st2) (s_logwidth st2)
      (s_logVolremaining st2) (s_logZ st2) (s_H st2) (Lmax (s_sampler st2))
      = Some (g', mf) /\
    exp (out_logZ out) =
      exp (s_logZ st2)
      + exp (s_logwidth st2) * likelihood_sum (remainder (s_sampler st2)) /\
    s_logZ (start sampler g) <= s_logZ st2 /\
    s_logZ st2 < out_logZ out /\
    out_information out = s_H st2 /\
    (0 <= snd (fold_live (s_logwidth st2) (remainder (s_sampler st2))
                         (s_logZ st2) (s_H st2)) ->
     remainderZerr mf <= totalZerr mf /\
     totalZerr mf <= out_logZerr out /\
     (need_robust_remainder_error cfg = true ->
      totalZerr_bootstrapped mf <= out_logZerr out)).
Proof.
  intros Hrand Hpos Hruns Hdef Hne Ebreak.
  pose proof (runs_continues cfg n _ _ Hruns) as Hrun.
  destruct (break_returns cfg n fuel sampler g st st2 why Hrand Hne Hrun
              Ebreak)
    as (out & g' & mf & Erun & Efin & Ecall & EZ & Eerr & Einfo & _).
  exists out, g', mf.
  split; [exact Erun |]. split; [exact Efin |]. split; [exact Ecall |].
  destruct (integrate_remainder_inv _ _ _ _ _ _ _ _ _ Ecall) as [v [Ev Em]].
  destruct (integrate_remainder_locals_inv _ _ _ _ _ _ _ _ _ (mkPoint [] [] 0) Ev)
    as (_ & _ & ELs & _ & _ & _ & Emid' & Emid & _).
  assert (Emass : exp (out_logZ out) =
                  exp (s_logZ st2)
                  + exp (s_logwidth st2)
                    * likelihood_sum (remainder (s_sampler st2))).
  { rewrite EZ, Em. cbn [returned totalZ].
    rewrite Emid, exp_logaddexp, Emid', ELs, (ln_sum_rebased _ _ Hne), exp_plus.
    rewrite exp_ln by (apply likelihood_sum_pos, Hne). reflexivity. }
  split; [exact Emass |].
  split.
  { apply Rle_trans with (s_logZ st); [apply (continues_logZ cfg n _ _ Hrun) |].
    pose proof (iteration_logZ cfg st _ Ebreak) as Hz.
    cbn [outcome_state] in Hz. exact Hz. }
  split.
  { apply exp_lt_inv. rewrite Emass.
    pose proof (exp_pos (s_logwidth st2)).
    pose proof (likelihood_sum_pos _ Hne).
    assert (0 < exp (s_logwidth st2)
                * likelihood_sum (remainder (s_sampler st2)))
      by (apply Rmult_lt_0_compat; assumption).
    lra. }
  split; [exact Einfo |].
  intros _. split.
  { rewrite Em. cbn [returned totalZerr remainderZerr].
    pose proof (sqrt_pos (v_H v / IZR (nlive_points (s_sampler st2)))).
    unfold Num.pow_half. lra. }
  split.
  { rewrite Eerr. destruct (need_robust_remainder_error cfg);
      [apply Rmax_l | apply Rle_refl]. }
  intros Hrobust. rewrite Eerr, Hrobust. apply Rmax_r.
Qed.

End Report.

(** * The loop on numbers *)

(** ** Bounds on exponentials and logarithms *)

Lemma exp_ge_1_plus (x : R) : 1 + x <= exp x.
Proof.
  destruct (Req_dec x 0) as [-> | Hx].
  - rewrite exp_0. lra.
  - left. apply exp_ineq1, Hx.
Qed.

Lemma ln_le_minus_1 (x : R) : 0 < x -> ln x <= x - 1.
Proof.
  intros Hx. pose proof (exp_ge_1_plus (ln x)) as Hle.
  rewrite exp_ln in Hle by exact Hx. lra.
Qed.

Lemma ln_ge_1_minus_inv (x : R) : 0 < x -> 1 - / x <= ln x.
Proof.
  intros Hx.
  pose proof (Rinv_0_lt_compat x Hx) as Hinv.
  pose proof (ln_le_minus_1 (/ x) Hinv) as Hle.
  rewrite ln_Rinv in Hle by exact Hx. lra.
Qed.

Lemma exp_1_gt_2 : 2 < exp 1.
Proof. pose proof (exp_ineq1 1). lra. Qed.

Lemma exp_10_ge_1024 : 1024 <= exp 10.
Proof.
  pose proof exp_1_gt_2 as H1.
  assert (H2 : 4 <= exp 2).
  { replace 2 with (1 + 1) by ring. rewrite exp_plus. nra. }
  assert (H4 : 16 <= exp 4).
  { replace 4 with (2 + 2) by ring. rewrite exp_plus. nra. }
  assert (H8 : 256 <= exp 8).
  { replace 8 with (4 + 4) by ring. rewrite exp_plus. nra. }
  replace 10 with (8 + 2) by ring. rewrite exp_plus. nra.
Qed.

Lemma exp_neg_1_bounds : / 3 <= exp (- 1) < / 2.
Proof.
  assert (E : exp (- 1) = / exp 1).
  { replace (- 1) with (Ropp 1) by lra. apply exp_Ropp. }
  rewrite E.
  pose proof exp_1_gt_2 as Hlo. pose proof exp_le_3 as Hhi.
  split.
  - apply Rinv_le_contravar; lra.
  - apply Rinv_lt_contravar; nra.
Qed.

Lemma exp_neg_half_sq : exp (- 1 / 2) * exp (- 1 / 2) = exp (- 1).
Proof. rewrite <- exp_plus. f_equal. field. Qed.

Lemma exp_neg_half_bounds : 57 / 100 <= exp (- 1 / 2) < 71 / 100.
Proof.
  pose proof exp_neg_half_sq as Hsq.
  pose proof exp_neg_1_bounds as [Hlo Hhi].
  pose proof (exp_pos (- 1 / 2)) as Hpos.
  split; nra.
Qed.

(** The information of two levels of likelihood: total width [w0] at
    likelihood 0 and total width [w] at likelihood [b]. *)
Lemma two_level_info (w0 w b Z H : R) :
  0 < w0 -> 0 < w -> 0 <= b ->
  exp Z = w0 + w * exp b ->
  exp Z * (H + Z) = w * exp b * b ->
  - ln w - (b + 1) * w0 / (w * exp b) <= H <= - ln w.
Proof.
  intros Hw0 Hw Hb EZ EH.
  set (t := w * exp b) in *.
  assert (Ht : 0 < t) by (apply Rmult_lt_0_compat; [exact Hw | apply exp_pos]).
  assert (HZ : Z = ln (w0 + t)) by (rewrite <- EZ, ln_exp; reflexivity).
  assert (Hlnt : ln t = ln w + b).
  { unfold t. rewrite ln_mult by (try apply exp_pos; exact Hw).
    rewrite ln_exp. reflexivity. }
  assert (HH : H = t * b / (w0 + t) - Z).
  { rewrite EZ in EH. apply Rmult_eq_reg_l with (w0 + t); [| lra].
    rewrite Rmult_minus_distr_l.
    replace ((w0 + t) * (t * b / (w0 + t))) with (t * b) by (field; lra).
    lra. }
  assert (Hratio : 0 < w0 / t) by (apply Rdiv_lt_0_compat; assumption).
  assert (Hfrac_hi : t * b / (w0 + t) <= b).
  { apply Rmult_le_reg_r with (w0 + t); [lra |].
    replace (t * b / (w0 + t) * (w0 + t)) with (t * b) by (field; lra). nra. }
  assert (Hfrac_lo : b - b * (w0 / t) <= t * b / (w0 + t)).
  { apply Rmult_le_reg_r with ((w0 + t) * t); [nra |].
    replace (t * b / (w0 + t) * ((w0 + t) * t)) with (t * b * t)
      by (field; lra).
    replace ((b - b * (w0 / t)) * ((w0 + t) * t))
      with ((b * t - b * w0) * (w0 + t)) by (field; lra).
    nra. }
  assert (Hln_lo : ln t <= ln (w0 + t)) by (apply ln_le_mono; lra).
  assert (Hln_hi : ln (w0 + t) <= ln t + w0 / t).
  { replace (w0 + t) with (t * (1 + w0 / t)) by (field; lra).
    rewrite ln_mult by lra.
    pose proof (ln_le_minus_1 (1 + w0 / t)). lra. }
  replace ((b + 1) * w0 / (w * exp b)) with (b * (w0 / t) + w0 / t)
    by (unfold t; field; split; [apply Rgt_not_eq, exp_pos | lra]).
  split; lra.
Qed.

(** With all the mass at likelihood 0 the information is minus the
    logarithm of the total width. *)
Lemma one_level_info (w Z H : R) :
  0 < w -> exp Z = w -> exp Z * (H + Z) = 0 -> H = - ln w.
Proof.
  intros Hw EZ EH.
  assert (HZ : Z = ln w) by (rewrite <- EZ, ln_exp; reflexivity).
  rewrite EZ in EH.
  assert (H + Z = 0) by (apply Rmult_eq_reg_l with w; lra).
  lra.
Qed.

Lemma sqrt_lt_1 (x : R) : 0 <= x -> x < 1 -> sqrt x < 1.
Proof.
  intros Hx Hlt. rewrite <- sqrt_1. apply sqrt_lt_1_alt. lra.
Qed.

Lemma sqrt_ge_tenth (x : R) : 1 / 100 <= x -> 1 / 10 <= sqrt x.
Proof.
  intros Hx.
  replace (1 / 10) with (sqrt (1 / 100)).
  - apply sqrt_le_1_alt, Hx.
  - replace (1 / 100) with ((1 / 10) * (1 / 10)) by field.
    apply sqrt_square. lra.
Qed.

(** ** The two runs of the climbing sampler in numbers *)

Lemma masses_after (Z H lw L A B : R) :
  exp Z = A -> exp Z * (H + Z) = B ->
  exp (fst (accumulate Z H lw L)) = A + exp (lw + L) /\
  exp (fst (accumulate Z H lw L)) * (snd (accumulate Z H lw L)
                                     + fst (accumulate Z H lw L))
  = B + exp (lw + L) * L.
Proof.
  intros EA EB.
  destruct (accumulate_masses Z H lw L) as (E1 & _ & E2). cbn zeta in E1, E2.
  split.
  - rewrite E1, EA. reflexivity.
  - rewrite E2, EB. reflexivity.
Qed.

Module ClimbFacts.

(** The shell width of two live points, [c = 1 - exp(-1/2)], its logarithm
    and the likelihood factor [exp 10]. *)
Lemma c_bounds : 29 / 100 < 1 - exp (- 1 / 2) <= 43 / 100.
Proof. pose proof exp_neg_half_bounds. lra. Qed.

Lemma exp_sh : exp (ln (1 - exp (- 1 / 2))) = 1 - exp (- 1 / 2).
Proof. apply exp_ln. pose proof c_bounds. lra. Qed.

Lemma shell_climb (s : Climb.State) : shell s = ln (1 - exp (- 1 / 2)).
Proof. reflexivity. Qed.

(** Before the loop, in both runs: mass [c] at likelihood 0. *)
Lemma start_masses (Z H : R) :
  Z = ln (1 - exp (- 1 / 2)) + 0 -> H = 0 - Z ->
  exp Z = 1 - exp (- 1 / 2) /\ exp Z * (H + Z) = 0 /\ 0 <= H.
Proof.
  intros -> ->. rewrite Rplus_0_r, exp_sh.
  split; [reflexivity |]. split; [ring |].
  pose proof c_bounds as [Hlo Hhi].
  pose proof (ln_le_minus_1 (1 - exp (- 1 / 2))). lra.
Qed.

Lemma div_le_of_le_mul (a b k : R) : 0 < b -> a <= k * b -> a / b <= k.
Proof.
  intros Hb Hle. apply Rmult_le_reg_r with b; [exact Hb |].
  replace (a / b * b) with a by (field; lra). exact Hle.
Qed.

Lemma inv_le_of_one_le_mul (b k : R) : 0 < b -> 1 <= k * b -> / b <= k.
Proof.
  intros Hb Hle. apply Rmult_le_reg_r with b; [exact Hb |].
  replace (/ b * b) with 1 by (field; lra). exact Hle.
Qed.

(** The exponentials the two runs meet, in terms of [c = 1 - exp(-1/2)],
    [q = exp(-1/2)] and [E = exp 10]. *)
Lemma exp_width_1 (L : R) :
  exp (ln (1 - exp (- 1 / 2)) + 0 + L) = (1 - exp (- 1 / 2)) * exp L.
Proof. rewrite Rplus_0_r, exp_plus, exp_sh. reflexivity. Qed.

Lemma exp_width_0 :
  exp (ln (1 - exp (- 1 / 2)) + 0) = 1 - exp (- 1 / 2).
Proof. rewrite Rplus_0_r. apply exp_sh. Qed.

Lemma exp_width_3 :
  exp (ln (1 - exp (- 1 / 2)) + (0 - 1 / 2 - 1 / 2))
  = (1 - exp (- 1 / 2)) * exp (- 1).
Proof.
  replace (0 - 1 / 2 - 1 / 2) with (- 1) by field.
  rewrite exp_plus, exp_sh. reflexivity.
Qed.

Lemma exp_width_2 (L : R) :
  exp (ln (1 - exp (- 1 / 2)) + (0 - 1 / 2) + L)
  = (1 - exp (- 1 / 2)) * exp (- 1 / 2) * exp L.
Proof.
  replace (0 - 1 / 2) with (- 1 / 2) by field.
  rewrite !exp_plus, exp_sh. reflexivity.
Qed.

(** The run from [Climb.flat_start]: the information is a number in each of
    the first three passes, after the third merge it is at most 200, and the
    one the call of the first pass ends with is a number too. *)
Lemma flat_numbers (Z0 H0 : R) :
  Z0 = ln (1 - exp (- 1 / 2)) + 0 -> H0 = 0 - Z0 ->
  let lw1 := ln (1 - exp (- 1 / 2)) + 0 in
  let lw2 := ln (1 - exp (- 1 / 2)) + (0 - 1 / 2) in
  let r1 := accumulate Z0 H0 lw1 0 in
  let r2 := accumulate (fst r1) (snd r1) lw2 10 in
  0 <= H0 /\ 0 <= snd r1 /\ 0 <= snd r2 <= 200 /\
  0 <= snd (fold_live lw1 [Toy.point 0; Toy.point 10] Z0 H0).
Proof.
  intros EZ EH lw1 lw2 r1 r2.
  destruct (start_masses Z0 H0 EZ EH) as (A0 & B0 & HH0).
  pose proof c_bounds as [Hclo Hchi].
  pose proof exp_neg_half_bounds as [Hqlo Hqhi].
  pose proof exp_10_ge_1024 as HE.
  destruct (masses_after Z0 H0 lw1 0 _ _ A0 B0) as [A1 B1].
  fold r1 in A1, B1. unfold lw1 in A1, B1.
  rewrite exp_width_1, exp_0 in A1, B1.
  destruct (masses_after (fst r1) (snd r1) lw2 10 _ _ A1 B1) as [A2 B2].
  fold r2 in A2, B2. unfold lw2 in A2, B2. rewrite exp_width_2 in A2, B2.
  destruct (fold_live_sums lw1 [Toy.point 0; Toy.point 10] Z0 H0) as [A' B'].
  cbn zeta in A', B'.
  unfold likelihood_sum, likelihood_moment in A', B'.
  cbn [map Toy.point pt_L] in A', B'. rewrite !sum_cons in A', B'.
  unfold Num.sum in A', B'. cbn [fold_right] in A', B'.
  rewrite A0, exp_0 in A'. rewrite B0, exp_0 in B'.
  unfold lw1 in A', B'. rewrite exp_width_0 in A', B'.
  set (c := 1 - exp (- 1 / 2)) in *.
  set (q := exp (- 1 / 2)) in *.
  set (E := exp 10) in *.
  split; [exact HH0 |].
  split.
  { rewrite (one_level_info (c + c * 1) (fst r1) (snd r1)); [| lra | exact A1 | lra].
    pose proof (ln_le_minus_1 (c + c * 1)). lra. }
  assert (Hcq : 0 < c * q) by nra.
  assert (HcqE : 0 < c * q * E) by nra.
  split.
  { destruct (two_level_info (c + c * 1) (c * q) 10 (fst r2) (snd r2)
                ltac:(lra) Hcq ltac:(lra) ltac:(rewrite A2; unfold E; ring)
                ltac:(rewrite B2; unfold E; ring)) as [Hlo Hhi];
      fold E in Hlo, Hhi.
    assert (Hfrac : (10 + 1) * (c + c * 1) / (c * q * E) <= 4 / 100).
    { apply div_le_of_le_mul; [exact HcqE |]. nra. }
    pose proof (ln_le_minus_1 (c * q) Hcq) as Hln1.
    pose proof (ln_ge_1_minus_inv (c * q) Hcq) as Hln2.
    assert (Hinv : / (c * q) <= 7) by (apply inv_le_of_one_le_mul; nra).
    assert (Hsmall : c * q <= 1 / 2) by nra.
    split; lra. }
  destruct (two_level_info (c + c * 1) c 10 _ _ ltac:(lra) ltac:(lra)
              ltac:(lra) ltac:(rewrite A'; unfold E; ring)
              ltac:(rewrite B'; unfold E; ring))
    as [Hlo _]; fold E in Hlo.
  assert (Hfrac : (10 + 1) * (c + c * 1) / (c * E) <= 3 / 100).
  { apply div_le_of_le_mul; nra. }
  pose proof (ln_le_minus_1 c). unfold lw1. lra.
Qed.

(** The run from [Climb.step_start]: the information is a number in each
    of the first three passes and at least 1/4 in the third; the one the
    call of the first pass ends with lies between 2/100 and 2. *)
Lemma step_numbers (Z0 H0 : R) :
  Z0 = ln (1 - exp (- 1 / 2)) + 0 -> H0 = 0 - Z0 ->
  let lw1 := ln (1 - exp (- 1 / 2)) + 0 in
  let lw2 := ln (1 - exp (- 1 / 2)) + (0 - 1 / 2) in
  let r1 := accumulate Z0 H0 lw1 10 in
  let r2 := accumulate (fst r1) (snd r1) lw2 10 in
  0 <= H0 /\ 0 <= snd r1 /\ 1 / 4 <= snd r2 /\
  2 / 100 <= snd (fold_live lw1 [Toy.point 10; Toy.point 10] Z0 H0) < 2 /\
  2 / 100 <= snd (fold_live (ln (1 - exp (- 1 / 2)) + (0 - 1 / 2 - 1 / 2))
                            [Toy.point 10; Toy.point 10] (fst r2) (snd r2)).
Proof.
  intros EZ EH lw1 lw2 r1 r2.
  destruct (start_masses Z0 H0 EZ EH) as (A0 & B0 & HH0).
  pose proof c_bounds as [Hclo Hchi].
  pose proof exp_neg_half_bounds as [Hqlo Hqhi].
  pose proof exp_neg_half_sq as Hqsq.
  pose proof exp_neg_1_bounds as [Helo Hehi].
  pose proof exp_10_ge_1024 as HE.
  destruct (masses_after Z0 H0 lw1 10 _ _ A0 B0) as [A1 B1].
  fold r1 in A1, B1. unfold lw1 in A1, B1. rewrite exp_width_1 in A1, B1.
  destruct (masses_after (fst r1) (snd r1) lw2 10 _ _ A1 B1) as [A2 B2].
  fold r2 in A2, B2. unfold lw2 in A2, B2. rewrite exp_width_2 in A2, B2.
  destruct (fold_live_sums lw1 [Toy.point 10; Toy.point 10] Z0 H0) as [A' B'].
  cbn zeta in A', B'.
  unfold likelihood_sum, likelihood_moment in A', B'.
  cbn [map Toy.point pt_L] in A', B'. rewrite !sum_cons in A', B'.
  unfold Num.sum in A', B'. cbn [fold_right] in A', B'.
  rewrite A0 in A'. rewrite B0 in B'.
  unfold lw1 in A', B'. rewrite exp_width_0 in A', B'.
  destruct (fold_live_sums (ln (1 - exp (- 1 / 2)) + (0 - 1 / 2 - 1 / 2))
              [Toy.point 10; Toy.point 10] (fst r2) (snd r2)) as [A3 B3].
  cbn zeta in A3, B3.
  unfold likelihood_sum, likelihood_moment in A3, B3.
  cbn [map Toy.point pt_L] in A3, B3. rewrite !sum_cons in A3, B3.
  unfold Num.sum in A3, B3. cbn [fold_right] in A3, B3.
  rewrite A2 in A3. rewrite B2 in B3. rewrite exp_width_3 in A3, B3.
  set (c := 1 - exp (- 1 / 2)) in *.
  set (q := exp (- 1 / 2)) in *.
  set (e1 := exp (- 1)) in *.
  set (E := exp 10) in *.
  split; [exact HH0 |].
  split.
  { destruct (two_level_info c c 10 (fst r1) (snd r1)
                ltac:(lra) ltac:(lra) ltac:(lra) ltac:(rewrite A1; unfold E; ring)
                ltac:(rewrite B1; unfold E; ring)) as [Hlo _];
      fold E in Hlo.
    assert (Hfrac : (10 + 1) * c / (c * E) <= 2 / 100).
    { apply div_le_of_le_mul; nra. }
    pose proof (ln_le_minus_1 c). lra. }
  split.
  { assert (Hw : 0 < c + c * q) by nra.
    destruct (two_level_info c (c + c * q) 10 (fst r2) (snd r2)
                ltac:(lra) Hw ltac:(lra) ltac:(rewrite A2; unfold E; ring)
                ltac:(rewrite B2; unfold E; ring)) as [Hlo _];
      fold E in Hlo.
    assert (Hfrac : (10 + 1) * c / ((c + c * q) * E) <= 2 / 100).
    { apply div_le_of_le_mul; nra. }
    pose proof (ln_le_minus_1 (c + c * q) Hw) as Hln.
    assert (Hc : c + c * q = 1 - q * q) by (unfold c, q; ring).
    lra. }
  assert (Hw : 0 < c + c) by lra.
  destruct (two_level_info c (c + c) 10 _ _ ltac:(lra) Hw
              ltac:(lra) ltac:(rewrite A'; unfold E; ring)
              ltac:(rewrite B'; unfold E; ring))
    as [Hlo Hhi]; fold E in Hlo, Hhi.
  assert (Hfrac : (10 + 1) * c / ((c + c) * E) <= 1 / 100).
  { apply div_le_of_le_mul; nra. }
  pose proof (ln_le_minus_1 (c + c) Hw) as Hln1.
  pose proof (ln_ge_1_minus_inv (c + c) Hw) as Hln2.
  assert (Hinv : / (c + c) <= 2) by (apply inv_le_of_one_le_mul; nra).
  split; [unfold lw1; split; lra |].
  assert (Hw3 : c + c * q + c * e1 * 2 = 1 + e1 * (1 - 2 * q)).
  { rewrite <- Hqsq. unfold c. ring. }
  assert (Hw3hi : c + c * q + c * e1 * 2 <= 96 / 100) by nra.
  assert (Hw3lo : 78 / 100 <= c + c * q + c * e1 * 2) by nra.
  destruct (two_level_info c (c + c * q + c * e1 * 2) 10 _ _ ltac:(lra)
              ltac:(lra) ltac:(lra) ltac:(rewrite A3; unfold E; ring)
              ltac:(rewrite B3; unfold E; ring)) as [Hlo3 _];
    fold E in Hlo3.
  assert (Hfrac3 : (10 + 1) * c / ((c + c * q + c * e1 * 2) * E) <= 1 / 100).
  { apply div_le_of_le_mul; nra. }
  pose proof (ln_le_minus_1 (c + c * q + c * e1 * 2) ltac:(lra)) as Hln3.
  lra.
Qed.

(** The bracket of the first call in the run from [Climb.flat_start]: its
    live likelihoods are 0 and 10, and the upper estimate lies at least 1
    above the lower one. *)
Lemma flat_bracket (Z0 : R) :
  Z0 = ln (1 - exp (- 1 / 2)) + 0 ->
  1 <= Num.logaddexp Z0 (ln (1 - exp (- 1 / 2)) + 0
                         + ln (exp (10 - 10) + 0 + exp (10 - 10)) + 10)
       - Num.logaddexp Z0 (ln (1 - exp (- 1 / 2)) + 0
                           + ln (exp (0 - 10) + 0 + exp (0 - 10)) + 10).
Proof.
  intros EZ.
  pose proof c_bounds as [Hclo Hchi].
  pose proof exp_10_ge_1024 as HE.
  pose proof exp_le_3 as He.
  pose proof (exp_pos (0 - 10)) as Hlow.
  assert (Hone : exp (0 - 10) * exp 10 = 1).
  { rewrite <- exp_plus. replace (0 - 10 + 10) with 0 by ring. apply exp_0. }
  set (up := Num.logaddexp Z0 _). set (lo := Num.logaddexp Z0 _).
  assert (Eup : exp up = (1 - exp (- 1 / 2)) + (1 - exp (- 1 / 2)) * 2 * exp 10).
  { unfold up. rewrite exp_logaddexp, EZ, exp_width_0.
    rewrite 2!exp_plus, exp_width_0.
    rewrite exp_self_cancel, exp_ln by lra. ring. }
  assert (Elo : exp lo = (1 - exp (- 1 / 2)) + (1 - exp (- 1 / 2)) * 2).
  { unfold lo. rewrite exp_logaddexp, EZ, exp_width_0.
    rewrite 2!exp_plus, exp_width_0.
    rewrite exp_ln by lra.
    replace ((1 - exp (- 1 / 2)) * (exp (0 - 10) + 0 + exp (0 - 10)) * exp 10)
      with ((1 - exp (- 1 / 2)) * 2 * (exp (0 - 10) * exp 10)) by ring.
    rewrite Hone. ring. }
  destruct (Rle_lt_dec (lo + 1) up) as [Hle | Hgt]; [lra | exfalso].
  apply exp_increasing in Hgt. rewrite exp_plus, Eup, Elo in Hgt.
  set (c := 1 - exp (- 1 / 2)) in *. nra.
Qed.

Lemma sqrt_le_10 (x : R) : 0 <= x -> x <= 100 -> sqrt x <= 10.
Proof.
  intros H0 Hx. replace 10 with (sqrt (10 * 10)) by (apply sqrt_square; lra).
  apply sqrt_le_1; lra.
Qed.

End ClimbFacts.

(** The lower and upper estimates of a call on a live set of two points of
    likelihoods [a] and [b], with the best live likelihood as global
    maximum, and the total error it returns. *)
Lemma climb_estimate (s : Climb.State) (g g' : unit) (lw lv Z H a b : R)
  (m : Remainder) :
  Climb.c_live s = [Toy.point a; Toy.point b] ->
  integrate_remainder s g lw lv Z H (Lmax s) = Some (g', m) ->
  remainderZerr m =
    Num.logaddexp Z (lw + ln (exp (b - b) + 0 + exp (b - b)) + b)
    - Num.logaddexp Z (lw + ln (exp (a - b) + 0 + exp (a - b)) + b) /\
  totalZerr m =
    remainderZerr m
    + sqrt (snd (fold_live lw [Toy.point a; Toy.point b] Z H) / 2).
Proof.
  intros Hlive E.
  destruct (integrate_remainder_inv _ _ _ _ _ _ _ _ _ E) as [v [Ev ->]].
  destruct (integrate_remainder_locals_inv _ _ _ _ _ _ _ _ _ (Toy.point 0) Ev)
    as (_ & EL0 & ELs & ELsMax & ELmax & ELmin & _ & _ & Eup & Elo & Eerr
        & Efold).
  change (remainder s) with (Climb.c_live s) in EL0, ELs, Efold.
  change (Lmax s) with (pt_L (last (Climb.c_live s) (Toy.point 0))) in ELsMax.
  rewrite Hlive in EL0, ELs, ELsMax, Efold.
  cbn [last pt_L Toy.point] in EL0, ELsMax.
  rewrite EL0 in ELs, ELsMax, Eup, Elo.
  unfold rebased in ELs. cbn [map pt_L Toy.point] in ELs.
  rewrite ELs in ELsMax, ELmin. cbn [removelast app] in ELsMax.
  rewrite ELsMax in ELmax.
  cbn [tl last hd removelast] in ELmax, ELmin.
  unfold Num.sum in ELmax, ELmin. cbn [fold_right] in ELmax, ELmin.
  rewrite ELmax in Eup. rewrite ELmin in Elo.
  assert (EH : v_H v = snd (fold_live lw [Toy.point a; Toy.point b] Z H)).
  { rewrite <- Efold. reflexivity. }
  cbn [returned remainderZerr totalZerr]. unfold Num.pow_half.
  rewrite EH, Eerr, Eup, Elo. split; reflexivity.
Qed.

Lemma stat_error_advance {S G : Type} {SamplerS : Sampler S}
  (st : @LoopState S G) :
  stat_error (advance st) = sqrt (s_H st / IZR (nlive_points (s_sampler st))).
Proof. reflexivity. Qed.

Lemma climb_nlive_points_fixed : @nlive_points_fixed Climb.State Climb.sampler.
Proof. intros s. reflexivity. Qed.

Module ClimbRuns.
Import ClimbFacts.

(** *** The run from [Climb.step_start] *)

Lemma step_information :
  0 <= s_H Climb.step0 /\ 0 <= s_H Climb.step1 /\ 1 / 4 <= s_H Climb.step2 /\
  2 / 100 <= snd (fold_live (s_logwidth (advance Climb.step0))
                            (remainder (s_sampler Climb.step0))
                            (s_logZ Climb.step0) (s_H Climb.step0)) < 2 /\
  2 / 100 <= snd (fold_live (s_logwidth (advance Climb.step2))
                            (remainder (s_sampler (advance Climb.step2)))
                            (s_logZ (advance Climb.step2))
                            (s_H (advance Climb.step2))).
Proof.
  exact (step_numbers (s_logZ Climb.step0) (s_H Climb.step0) eq_refl eq_refl).
Qed.

Lemma step_first_call :
  exists g' : unit,
    integrate_remainder (s_sampler (advance Climb.step0)) tt
      (s_logwidth (advance Climb.step0))
      (s_logVolremaining (advance Climb.step0))
      (s_logZ Climb.step0) (s_H Climb.step0)
      (Lmax (s_sampler (advance Climb.step0)))
    = Some (g', Climb.step_estimate).
Proof.
  assert (E : refresh (advance Climb.step0)
              = Some (Toy.value Climb.step0 (refresh (advance Climb.step0))))
    by reflexivity.
  assert (Em : s_est (Toy.value Climb.step0 (refresh (advance Climb.step0)))
               = Some Climb.step_estimate) by reflexivity.
  assert (Hdue : refresh_due (advance Climb.step0) = true) by reflexivity.
  destruct (refresh_est _ _ _ E Em) as [[_ Hcall] | [Hnot _]];
    [exact Hcall | rewrite Hdue in Hnot; discriminate Hnot].
Qed.

(** The remainder variables of the third pass: the two live points are
    level, so the bracket is of width 0 and the total error is the
    statistical term. *)
Lemma step_estimate_errors :
  remainderZerr Climb.step_estimate = 0 /\
  1 / 10 <= totalZerr Climb.step_estimate < 1.
Proof.
  destruct step_first_call as [g' Ecall].
  assert (Hlive : Climb.c_live (s_sampler (advance Climb.step0))
                  = [Toy.point 10; Toy.point 10]) by reflexivity.
  destruct (climb_estimate _ _ _ _ _ _ _ 10 10 _ Hlive Ecall) as [Eerr Etot].
  destruct step_information as (_ & _ & _ & [Hlo Hhi] & _).
  change (remainder (s_sampler Climb.step0))
    with [Toy.point 10; Toy.point 10] in Hlo, Hhi.
  assert (Ezero : remainderZerr Climb.step_estimate = 0)
    by (rewrite Eerr; apply Rminus_diag_eq; reflexivity).
  split; [exact Ezero |].
  rewrite Etot, Ezero, Rplus_0_l.
  split.
  - apply sqrt_ge_tenth. lra.
  - apply sqrt_lt_1; lra.
Qed.

Lemma step_pass1_defined (cfg : Config) :
  (need_small_remainder cfg = true -> 0 < max_remainder cfg) ->
  pass_defined cfg Climb.step0.
Proof.
  intros Hmax. destruct step_information as (H0 & _ & _ & [Hlo _] & _).
  split; [reflexivity |]. split; [exact H0 |].
  split; [intros _; lra | exact Hmax].
Qed.

Lemma step_pass2_defined (cfg : Config) :
  (need_small_remainder cfg = true -> 0 < max_remainder cfg) ->
  pass_defined cfg Climb.step1.
Proof.
  intros Hmax. destruct step_information as (_ & H1 & _).
  split; [reflexivity |]. split; [exact H1 |].
  split; [| exact Hmax].
  assert (Hdue : refresh_due (advance Climb.step1) = false) by reflexivity.
  rewrite Hdue. discriminate.
Qed.

Lemma step_pass3_defined (cfg : Config) :
  (need_small_remainder cfg = true -> 0 < max_remainder cfg) ->
  pass_defined cfg Climb.step2.
Proof.
  intros Hmax. destruct step_information as (_ & _ & H2 & _).
  split; [reflexivity |]. split; [lra |].
  split; [| exact Hmax].
  assert (Hdue : refresh_due (advance Climb.step2) = false) by reflexivity.
  rewrite Hdue. discriminate.
Qed.

(** The first two passes stay in the loop under every configuration: no
    rule is evaluated in them. *)
Lemma step_runs (cfg : Config) :
  (need_small_remainder cfg = true -> 0 < max_remainder cfg) ->
  runs cfg 2 (start Climb.step_start tt) Climb.step2.
Proof.
  intros Hmax.
  apply runs_step with Climb.step1;
    [exact (step_pass1_defined cfg Hmax) | reflexivity |].
  apply runs_step with Climb.step2;
    [exact (step_pass2_defined cfg Hmax) | reflexivity |].
  apply runs_refl.
Qed.

Lemma step_third_pass :
  remainder (s_sampler (advance Climb.step2)) <> [] /\
  refresh (advance Climb.step2) = Some (advance Climb.step2) /\
  s_est (advance Climb.step2) = Some Climb.step_estimate /\
  (nlive_points (s_sampler (advance Climb.step2))
   < s_i (advance Climb.step2))%Z /\
  s_i (advance Climb.step2) = 3%Z /\
  ndraws (s_sampler (advance Climb.step2)) = 3%Z.
Proof.
  split.
  { change (remainder (s_sampler (advance Climb.step2)))
      with [Toy.point 10; Toy.point 10]. discriminate. }
  repeat split; reflexivity.
Qed.

(** The statistical error of the third pass is at least 1/10. *)
Lemma step_stat_error :
  1 / 10 <= sqrt (s_H Climb.step2 / IZR (nlive_points (s_sampler Climb.step2))).
Proof.
  destruct step_information as (_ & _ & H2 & _).
  change (IZR (nlive_points (s_sampler Climb.step2))) with 2.
  apply sqrt_ge_tenth. lra.
Qed.

(** The total error of the call after the loop is at least 1/10. *)
Lemma step_final_error (g' : unit) (mf : Remainder) :
  integrate_remainder (s_sampler (advance Climb.step2))
    (s_rng (advance Climb.step2)) (s_logwidth (advance Climb.step2))
    (s_logVolremaining (advance Climb.step2)) (s_logZ (advance Climb.step2))
    (s_H (advance Climb.step2)) (Lmax (s_sampler (advance Climb.step2)))
  = Some (g', mf) ->
  1 / 10 <= totalZerr mf.
Proof.
  intros Ecall.
  assert (Hlive : Climb.c_live (s_sampler (advance Climb.step2))
                  = [Toy.point 10; Toy.point 10]) by reflexivity.
  destruct (climb_estimate _ _ _ _ _ _ _ 10 10 _ Hlive Ecall) as [Eerr Etot].
  destruct step_information as (_ & _ & _ & _ & Hfin).
  change (remainder (s_sampler (advance Climb.step2)))
    with [Toy.point 10; Toy.point 10] in Hfin.
  assert (Ezero : remainderZerr mf = 0)
    by (rewrite Eerr; apply Rminus_diag_eq; reflexivity).
  rewrite Etot, Ezero, Rplus_0_l.
  apply sqrt_ge_tenth. lra.
Qed.

(** With a tolerance of 1 the third pass leaves the loop through the
    tolerance rule. *)
Lemma step_tolerance_break :
  iteration Climb.unit_tolerance Climb.step2
  = Some (Break ToleranceReached (advance Climb.step2)).
Proof.
  destruct step_third_pass as (_ & E & Em & Hlate & _).
  destruct step_estimate_errors as (_ & _ & Hlt).
  rewrite (iteration_eq Climb.unit_tolerance _ _ _ E Em).
  rewrite (stop_rule_late _ _ _ _ Hlate).
  replace (budget_exhausted Climb.unit_tolerance (advance Climb.step2))
    with false by reflexivity.
  replace (tolerance_reached Climb.unit_tolerance Climb.step_estimate)
    with true; [reflexivity |].
  symmetry. apply tolerance_reached_iff.
  split; [exact Hlt |]. split; left; reflexivity.
Qed.

(** With the default configuration the tolerance rule does not fire in the
    third pass, and the last rule does. *)
Lemma step_default_rules :
  budget_exhausted default_config (advance Climb.step2) = false /\
  tolerance_reached default_config Climb.step_estimate = false /\
  remainderZerr Climb.step_estimate
  < sqrt (s_H Climb.step2 / IZR (nlive_points (s_sampler Climb.step2))) / 10.
Proof.
  destruct step_estimate_errors as (Ezero & Hlo & _).
  pose proof step_stat_error as Hstat.
  split; [reflexivity |]. split.
  - apply tolerance_not_reached. cbn [default_config tolerance]. lra.
  - rewrite Ezero. lra.
Qed.

(** *** The run from [Climb.flat_start] *)

Lemma flat_information :
  0 <= s_H Climb.flat0 /\ 0 <= s_H Climb.flat1 /\
  0 <= s_H Climb.flat2 <= 200 /\
  0 <= snd (fold_live (s_logwidth (advance Climb.flat0))
                      (remainder (s_sampler Climb.flat0))
                      (s_logZ Climb.flat0) (s_H Climb.flat0)).
Proof.
  exact (flat_numbers (s_logZ Climb.flat0) (s_H Climb.flat0) eq_refl eq_refl).
Qed.

Lemma flat_first_call :
  exists g' : unit,
    integrate_remainder (s_sampler (advance Climb.flat0)) tt
      (s_logwidth (advance Climb.flat0))
      (s_logVolremaining (advance Climb.flat0))
      (s_logZ Climb.flat0) (s_H Climb.flat0)
      (Lmax (s_sampler (advance Climb.flat0)))
    = Some (g', Climb.flat_estimate).
Proof.
  assert (E : refresh (advance Climb.flat0)
              = Some (Toy.value Climb.flat0 (refresh (advance Climb.flat0))))
    by reflexivity.
  assert (Em : s_est (Toy.value Climb.flat0 (refresh (advance Climb.flat0)))
               = Some Climb.flat_estimate) by reflexivity.
  assert (Hdue : refresh_due (advance Climb.flat0) = true) by reflexivity.
  destruct (refresh_est _ _ _ E Em) as [[_ Hcall] | [Hnot _]];
    [exact Hcall | rewrite Hdue in Hnot; discriminate Hnot].
Qed.

(** The remainder variables of the third pass: the bracket of the live
    likelihoods 0 and 10 is at least 1 wide. *)
Lemma flat_estimate_errors :
  1 <= remainderZerr Climb.flat_estimate /\
  1 <= totalZerr Climb.flat_estimate.
Proof.
  destruct flat_first_call as [g' Ecall].
  assert (Hlive : Climb.c_live (s_sampler (advance Climb.flat0))
                  = [Toy.point 0; Toy.point 10]) by reflexivity.
  destruct (climb_estimate _ _ _ _ _ _ _ 0 10 _ Hlive Ecall) as [Eerr Etot].
  assert (Hwide : 1 <= remainderZerr Climb.flat_estimate).
  { rewrite Eerr. exact (flat_bracket (s_logZ Climb.flat0) eq_refl). }
  split; [exact Hwide |].
  rewrite Etot.
  pose proof (sqrt_pos (snd (fold_live (s_logwidth (advance Climb.flat0))
                               [Toy.point 0; Toy.point 10]
                               (s_logZ Climb.flat0) (s_H Climb.flat0)) / 2)).
  lra.
Qed.

Lemma flat_pass3_defined (cfg : Config) :
  (need_small_remainder cfg = true -> 0 < max_remainder cfg) ->
  pass_defined cfg Climb.flat2.
Proof.
  intros Hmax. destruct flat_information as (_ & _ & [H2 _] & _).
  split; [reflexivity |]. split; [exact H2 |].
  split; [| exact Hmax].
  assert (Hdue : refresh_due (advance Climb.flat2) = false) by reflexivity.
  rewrite Hdue. discriminate.
Qed.

Lemma flat_runs (cfg : Config) :
  (need_small_remainder cfg = true -> 0 < max_remainder cfg) ->
  runs cfg 2 (start Climb.flat_start tt) Climb.flat2.
Proof.
  intros Hmax.
  destruct flat_information as (H0 & H1 & _ & Hfold).
  apply runs_step with Climb.flat1; [| reflexivity |].
  { split; [reflexivity |]. split; [exact H0 |].
    split; [intros _; exact Hfold | exact Hmax]. }
  apply runs_step with Climb.flat2; [| reflexivity | apply runs_refl].
  split; [reflexivity |]. split; [exact H1 |].
  split; [| exact Hmax].
  assert (Hdue : refresh_due (advance Climb.flat1) = false) by reflexivity.
  rewrite Hdue. discriminate.
Qed.

(** With a budget of three draws, the third pass, at which three draws have
    been made, stays in the loop. *)
Lemma flat_third_pass_goes_on :
  iteration Climb.budget3 Climb.flat2
  = Some (Continue (draw (advance Climb.flat2))).
Proof.
  assert (E : refresh (advance Climb.flat2) = Some (advance Climb.flat2))
    by reflexivity.
  assert (Em : s_est (advance Climb.flat2) = Some Climb.flat_estimate)
    by reflexivity.
  assert (Hlate : (nlive_points (s_sampler (advance Climb.flat2))
                   < s_i (advance Climb.flat2))%Z) by reflexivity.
  destruct flat_estimate_errors as [Hwide Htot].
  destruct flat_information as (_ & _ & [H2lo H2hi] & _).
  rewrite (iteration_eq Climb.budget3 _ _ _ E Em).
  rewrite (stop_rule_late _ _ _ _ Hlate).
  replace (budget_exhausted Climb.budget3 (advance Climb.flat2))
    with false by reflexivity.
  rewrite tolerance_not_reached
    by (cbn [Climb.budget3 tolerance]; lra).
  replace (no_improvement _ _) with false; [reflexivity |].
  symmetry. apply Rltb_false.
  rewrite stat_error_advance.
  change (IZR (nlive_points (s_sampler Climb.flat2))) with 2.
  pose proof (sqrt_le_10 (s_H Climb.flat2 / 2) ltac:(lra) ltac:(lra)).
  lra.
Qed.

End ClimbRuns.

(** ** The stopping rules and the returned record on these runs *)

Lemma default_max_remainder (cfg : Config) :
  max_remainder cfg = 1 / 10 ->
  need_small_remainder cfg = true -> 0 < max_remainder cfg.
Proof. intros E _. rewrite E. lra. Qed.

Lemma budget_rule_stops_past_limit_witness :
  exists out : Output,
    nested_integrator 3 Climb.step_start tt Climb.budget2
      = Returned out MaxSamplesReached /\
    out_niterations out = 3%Z /\
    tolerance Climb.budget2 < out_logZerr out.
Proof.
  assert (Hmax : need_small_remainder Climb.budget2 = true ->
                 0 < max_remainder Climb.budget2)
    by (apply default_max_remainder; reflexivity).
  assert (Hpos : (0 < nlive_points Climb.step_start)%Z) by reflexivity.
  destruct ClimbRuns.step_third_pass as (Hne & E & Em & Hlate & Ei & End).
  destruct (budget_rule_stops_past_limit Climb.budget2 2 0 Climb.step_start tt
              Climb.step2 (advance Climb.step2) Climb.step_estimate
              toy_randint_spec Hpos (ClimbRuns.step_runs _ Hmax)
              (ClimbRuns.step_pass3_defined _ Hmax) Hne E Em Hlate)
    as (_ & _ & Hret).
  destruct Hret as (out & g' & mf & Erun & _ & Ecall & _ & _ & Eit & Eerr).
  { exists 2%Z. split; [reflexivity | rewrite End; lia]. }
  exists out. split; [exact Erun |]. split; [rewrite Eit; exact Ei |].
  destruct ClimbRuns.step_information as (_ & _ & _ & _ & Hfin).
  rewrite Eerr by lra.
  pose proof (ClimbRuns.step_final_error g' mf Ecall) as Hbig.
  cbn [Climb.budget2 need_robust_remainder_error tolerance]. lra.
Defined.

(** C3, as stated, fails at the boundary.  In the run from
    [Climb.flat_start] with [max_samples = 3], the check of the third pass
    finds [ndraws = 3]: the count has reached the limit, every float of the
    run is a number, and the loop does not stop but draws the next point;
    it is left one pass later, at [ndraws = 4]. *)
Lemma budget_reached_does_not_stop :
  runs Climb.budget3 2 (start Climb.flat_start tt) Climb.flat2 /\
  pass_defined Climb.budget3 Climb.flat2 /\
  max_samples Climb.budget3 = Some 3%Z /\
  ndraws (s_sampler (advance Climb.flat2)) = 3%Z /\
  (nlive_points (s_sampler (advance Climb.flat2))
   < s_i (advance Climb.flat2))%Z /\
  iteration Climb.budget3 Climb.flat2
    = Some (Continue (draw (advance Climb.flat2))) /\
  (forall fuel : nat,
     nested_integrator (3 + fuel) Climb.flat_start tt Climb.budget3
     = loop fuel Climb.budget3 (draw (advance Climb.flat2))) /\
  ndraws (s_sampler (advance (draw (advance Climb.flat2)))) = 4%Z /\
  iteration Climb.budget3 (draw (advance Climb.flat2))
    = Some (Break MaxSamplesReached (advance (draw (advance Climb.flat2)))).
Proof.
  assert (Hmax : need_small_remainder Climb.budget3 = true ->
                 0 < max_remainder Climb.budget3)
    by (apply default_max_remainder; reflexivity).
  pose proof (ClimbRuns.flat_runs _ Hmax) as Hruns.
  pose proof ClimbRuns.flat_third_pass_goes_on as Eit.
  split; [exact Hruns |].
  split; [exact (ClimbRuns.flat_pass3_defined _ Hmax) |].
  split; [reflexivity |]. split; [reflexivity |]. split; [reflexivity |].
  split; [exact Eit |].
  split.
  { intros fuel.
    exact (continue_goes_on Climb.budget3 2 fuel Climb.flat_start tt
             Climb.flat2 _ (runs_continues _ _ _ _ Hruns) Eit). }
  split; reflexivity.
Qed.

Lemma tolerance_rule_exact_witness :
  exists out : Output,
    nested_integrator 3 Climb.step_start tt Climb.unit_tolerance
      = Returned out ToleranceReached /\
    out_niterations out = 3%Z.
Proof.
  assert (Hmax : need_small_remainder Climb.unit_tolerance = true ->
                 0 < max_remainder Climb.unit_tolerance)
    by (apply default_max_remainder; reflexivity).
  assert (Hpos : (0 < nlive_points Climb.step_start)%Z) by reflexivity.
  destruct ClimbRuns.step_third_pass as (Hne & E & Em & Hlate & Ei & _).
  destruct ClimbRuns.step_estimate_errors as (_ & _ & Hlt).
  destruct (tolerance_rule_exact Climb.unit_tolerance 2 0 Climb.step_start tt
              Climb.step2 (advance Climb.step2) Climb.step_estimate
              toy_randint_spec Hpos (ClimbRuns.step_runs _ Hmax)
              (ClimbRuns.step_pass3_defined _ Hmax) Hne E Em)
    as (_ & _ & Hrule & _).
  destruct (Hrule Hlate eq_refl) as (_ & Hret & _).
  destruct Hret as (out & g' & mf & Erun & _ & _ & _ & _ & Eit).
  { split; [exact Hlt |]. split; left; reflexivity. }
  exists out. split; [exact Erun | rewrite Eit; exact Ei].
Defined.

Lemma no_improvement_rule_exact_witness :
  exists out : Output,
    nested_integrator 3 Climb.step_start tt default_config
      = Returned out NoImprovement /\
    out_niterations out = 3%Z.
Proof.
  assert (Hmax : need_small_remainder default_config = true ->
                 0 < max_remainder default_config)
    by (apply default_max_remainder; reflexivity).
  assert (Hpos : (0 < nlive_points Climb.step_start)%Z) by reflexivity.
  destruct ClimbRuns.step_third_pass as (Hne & E & Em & Hlate & Ei & _).
  destruct ClimbRuns.step_default_rules as (Hbudget & Htol & Hlt).
  destruct (no_improvement_rule_exact default_config 2 0 Climb.step_start tt
              Climb.step2 (advance Climb.step2) Climb.step_estimate
              toy_randint_spec Hpos (ClimbRuns.step_runs _ Hmax)
              (ClimbRuns.step_pass3_defined _ Hmax) Hne E Em Hlate Hbudget
              Htol)
    as (_ & _ & Hret & _).
  destruct (Hret Hlt) as (out & g' & mf & Erun & _ & _ & _ & _ & Eit).
  exists out. split; [exact Erun | rewrite Eit; exact Ei].
Defined.

Lemma tolerance_stop_iteration_witness :
  iteration Climb.unit_tolerance Climb.step2
    = Some (Break ToleranceReached (advance Climb.step2)) /\
  (s_i (advance Climb.step2) mod 10 = 1 \/
   s_i (advance Climb.step2) = nlive_points Climb.step_start + 1)%Z.
Proof.
  assert (Hmax : need_small_remainder Climb.unit_tolerance = true ->
                 0 < max_remainder Climb.unit_tolerance)
    by (apply default_max_remainder; reflexivity).
  pose proof ClimbRuns.step_tolerance_break as Ebreak.
  split; [exact Ebreak |].
  exact (tolerance_stop_iteration Climb.unit_tolerance 2 Climb.step_start tt
           Climb.step2 (advance Climb.step2) climb_nlive_points_fixed
           (runs_continues _ _ _ _ (ClimbRuns.step_runs _ Hmax)) Ebreak).
Defined.

Lemma nested_integrator_reports_live_mass_witness :
  exists out : Output,
    nested_integrator 3 Climb.step_start tt Climb.unit_tolerance
      = Returned out ToleranceReached /\
    s_logZ (advance Climb.step2) < out_logZ out /\
    1 / 10 <= out_logZerr out.
Proof.
  assert (Hmax : need_small_remainder Climb.unit_tolerance = true ->
                 0 < max_remainder Climb.unit_tolerance)
    by (apply default_max_remainder; reflexivity).
  assert (Hpos : (0 < nlive_points Climb.step_start)%Z) by reflexivity.
  destruct ClimbRuns.step_third_pass as (Hne & _).
  destruct (nested_integrator_reports_live_mass Climb.unit_tolerance 2 0
              Climb.step_start tt Climb.step2 (advance Climb.step2)
              ToleranceReached toy_randint_spec Hpos
              (ClimbRuns.step_runs _ Hmax)
              (ClimbRuns.step_pass3_defined _ Hmax) Hne
              ClimbRuns.step_tolerance_break)
    as (out & g' & mf & Erun & _ & Ecall & _ & _ & Hlt & _ & Herr).
  exists out. split; [exact Erun |]. split; [exact Hlt |].
  destruct ClimbRuns.step_information as (_ & _ & _ & _ & Hfin).
  destruct Herr as (_ & Hle & _); [lra |].
  pose proof (ClimbRuns.step_final_error g' mf Ecall). lra.
Defined.
